(** * Masked auto-encoder core of [mae.py]: patch codec, masking, losses

    A shallow embedding of the tensor bookkeeping of [src/mae.py].

    - A per-sample tensor is an [ndarray]: a shape and a flat row-major
      buffer, as in numpy/JAX, so that [reshape] is the identity on the
      buffer and [einsum] is an index permutation.
    - A batch (the axis [jax.vmap] maps over) is a list of samples.
    - A finite float is the rational it stands for; infinities and NaN
      are the other values of [xfloat].  The Python float arithmetic of
      [int(L*(1-mask_ratio))] is modelled exactly: every operation returns
      the double nearest to the exact result ([round_double]).  The float32
      arithmetic of the tensors is modelled without its rounding, but with
      its range: a result beyond the largest float32 is an infinity
      ([f32]).  [int(n ** .5)] is the integer square root.
    - Element-wise operations broadcast their operands and raise
      [TypeError] on shapes that do not broadcast ([nd_map2],
      [broadcast_shapes]).
    - The network itself ([model.apply]), the PRNG and the transcendental
      functions are parameters.
    - Python exceptions are the [Raise] branch of [result]. *)

From Stdlib Require Import List Arith ZArith QArith Qround Lia Lqa Bool.
From Stdlib Require Import Permutation Sorted.
Import ListNotations.

Set Implicit Arguments.
Close Scope Q_scope.
Open Scope nat_scope.

(** ** Exceptions *)

Inductive exn : Type :=
| AssertionError
| TypeError
| IndexError
| ZeroDivisionError
| ValueError
| OverflowError.

Inductive result (A : Type) : Type :=
| Ok (a : A)
| Raise (e : exn).

Arguments Ok {A} a.
Arguments Raise {A} e.

Definition bind {A B} (m : result A) (k : A -> result B) : result B :=
  match m with
  | Ok a => k a
  | Raise e => Raise e
  end.

Declare Scope py_scope.
Delimit Scope py_scope with py.
Notation "x <- m ;; k" := (bind m (fun x => k))
  (at level 61, m at next level, right associativity) : py_scope.
Notation "'assert' b ;; k" := (if b then k else Raise AssertionError)
  (at level 61, b at next level, right associativity) : py_scope.
Open Scope py_scope.

(** ** Arrays *)

Record ndarray (A : Type) : Type := mk_ndarray {
  shape : list nat;
  data : list A
}.

Arguments mk_ndarray {A} shape data.

(** Number of elements of a shape. *)
Definition size (s : list nat) : nat := fold_right Nat.mul 1 s.

Definition well_formed {A} (t : ndarray A) : Prop :=
  length (data t) = size (shape t).

(** Row-major flat offset of a multi-index, and its inverse. *)
Fixpoint ravel (s idx : list nat) : nat :=
  match s, idx with
  | _ :: s', i :: idx' => i * size s' + ravel s' idx'
  | _, _ => 0
  end.

Fixpoint unravel (s : list nat) (k : nat) : list nat :=
  match s with
  | [] => []
  | _ :: s' => k / size s' :: unravel s' (k mod size s')
  end.

(** [l[ks]] for in-range offsets; an offset outside the buffer selects
    nothing.  No caller produces one: see [chpwq_hwpqc_lt] for the codec,
    [shuffle_lt] and [restore_lt] for random masking and [grid_keep_facts]
    for grid masking. *)
Definition pick {A} (l : list A) (ks : list nat) : list A :=
  flat_map (fun k => match nth_error l k with
                     | Some v => [v]
                     | None => []
                     end) ks.

(** [x.shape[i]] *)
Definition shape_at {A} (t : ndarray A) (i : nat) : result nat :=
  match nth_error (shape t) i with
  | Some n => Ok n
  | None => Raise IndexError
  end.

(** [x.reshape(s)]: the buffer is kept, the element counts must agree. *)
Definition reshape {A} (t : ndarray A) (s : list nat) : result (ndarray A) :=
  if size (shape t) =? size s
  then Ok (mk_ndarray s (data t))
  else Raise TypeError.

(** [jnp.einsum("chpwq->hwpqc", x)]: [out[h,w,p,q,c] = x[c,h,p,w,q]]. *)
Definition chpwq_hwpqc (nc nh np nw nq : nat) (k : nat) : nat :=
  match unravel [nh; nw; np; nq; nc] k with
  | [h; w; p; q; c] => ravel [nc; nh; np; nw; nq] [c; h; p; w; q]
  | _ => 0
  end.

Definition einsum_chpwq_hwpqc {A} (t : ndarray A) : result (ndarray A) :=
  match shape t with
  | [nc; nh; np; nw; nq] =>
      Ok (mk_ndarray [nh; nw; np; nq; nc]
            (pick (data t)
               (map (chpwq_hwpqc nc nh np nw nq) (seq 0 (size [nh; nw; np; nq; nc])))))
  | _ => Raise ValueError
  end.

(** [jnp.einsum("hwpqc->chpwq", x)]: [out[c,h,p,w,q] = x[h,w,p,q,c]]. *)
Definition hwpqc_chpwq (nh nw np nq nc : nat) (k : nat) : nat :=
  match unravel [nc; nh; np; nw; nq] k with
  | [c; h; p; w; q] => ravel [nh; nw; np; nq; nc] [h; w; p; q; c]
  | _ => 0
  end.

Definition einsum_hwpqc_chpwq {A} (t : ndarray A) : result (ndarray A) :=
  match shape t with
  | [nh; nw; np; nq; nc] =>
      Ok (mk_ndarray [nc; nh; np; nw; nq]
            (pick (data t)
               (map (hwpqc_chpwq nh nw np nq nc) (seq 0 (size [nc; nh; np; nw; nq])))))
  | _ => Raise ValueError
  end.

(** ** Patch codec *)

(** [create_patches(x, p)], one sample (the function is vmapped over the
    batch axis).  The channel count [3] is a literal of the source. *)
Definition create_patches {A} (x : ndarray A) (p : nat) : result (ndarray A) :=
  s1 <- shape_at x 1 ;;
  s2 <- shape_at x 2 ;;
  if negb (s1 =? s2) then Raise AssertionError
  else if p =? 0 then Raise ZeroDivisionError
  else
    assert (s1 mod p =? 0) ;;
    let h := s1 / p in
    let w := h in
    x_patches <- reshape x [3; h; p; w; p] ;;
    x_patches <- einsum_chpwq_hwpqc x_patches ;;
    reshape x_patches [h * w; p ^ 2 * 3].

(** [recreate_images(x, p)], one sample; [int(n ** .5)] is the integer
    square root. *)
Definition recreate_images {A} (x : ndarray A) (p : nat) : result (ndarray A) :=
  s0 <- shape_at x 0 ;;
  let h := Nat.sqrt s0 in
  let w := h in
  assert (h * w =? s0) ;;
  x <- reshape x [h; w; p; p; 3] ;;
  x <- einsum_hwpqc_chpwq x ;;
  reshape x [3; h * p; h * p].

(** The buffer of the patch sequence of a three-channel image of side
    [h * p]: what [create_patches] computes on a valid image. *)
Definition patch_buffer {A} (d : list A) (h p : nat) : list A :=
  pick d (map (chpwq_hwpqc 3 h p h p) (seq 0 (size [h; h; p; p; 3]))).

(** The batched functions. *)
Fixpoint vmap {A B} (f : A -> result B) (xs : list A) : result (list B) :=
  match xs with
  | [] => Ok []
  | x :: xs' => y <- f x ;; ys <- vmap f xs' ;; Ok (y :: ys)
  end.

Definition create_patches_batch {A} (xs : list (ndarray A)) (p : nat) :=
  vmap (fun x => create_patches x p) xs.

Definition recreate_images_batch {A} (xs : list (ndarray A)) (p : nat) :=
  vmap (fun x => recreate_images x p) xs.

(** ** Sequences *)

(** Element-wise combination of two sequences of the same length. *)
Fixpoint map2 {A B C} (f : A -> B -> C) (l : list A) (l' : list B) : list C :=
  match l, l' with
  | a :: t, b :: t' => f a b :: map2 f t t'
  | _, _ => []
  end.

(** ** Python floats *)

(** The value of a float expression: a finite float is the rational it
    stands for. *)
Inductive xfloat : Type :=
| Finite (q : Q)
| Infinite (negative : bool)
| NaN.

(** The integer nearest to [n / d] for [d > 0], ties to the even one. *)
Definition round_half_even (n d : Z) : Z :=
  let q := (n / d)%Z in
  let r := (n mod d)%Z in
  if (2 * r <? d)%Z then q
  else if (d <? 2 * r)%Z then (q + 1)%Z
  else if Z.even q then q else (q + 1)%Z.

(** The double (IEEE binary64) nearest to a rational, ties to even.  With
    [|q| = a / d] in units of [2^-1074], the smallest positive double, the
    result is [m * 2^t] units for the 53-bit integer [m] nearest to
    [a / (d * 2^t)]; past the largest double, [(2^53 - 1) * 2^971], it is an
    infinity. *)
Definition round_double (q : Q) : xfloat :=
  let a := (Z.abs (Qnum q) * 2 ^ 1074)%Z in
  let d := Zpos (Qden q) in
  let t := Z.max 0 (Z.log2 (a / d) - 52) in
  let m := round_half_even a (d * 2 ^ t) in
  if (2045 <? t)%Z || ((t =? 2045)%Z && (m =? 2 ^ 53)%Z)
  then Infinite (Qnum q <? 0)%Z
  else Finite (Qred (Z.sgn (Qnum q) * m * 2 ^ t # Z.to_pos (2 ^ 1074))).

(** [float(z)], the conversion an arithmetic operation applies to an
    [int] operand. *)
Definition float_of_int (z : Z) : result xfloat :=
  match round_double (inject_Z z) with
  | Finite q => Ok (Finite q)
  | _ => Raise OverflowError
  end.

(** The arithmetic of a float format: on finite operands the exact result
    is handed to the rounding [rnd] of the format; the special values
    follow IEEE 754 (zeros carry no sign here, so a non-zero value divided
    by zero is an infinity of the sign of the dividend). *)
Section FloatArithmetic.
Variable rnd : Q -> xfloat.

Definition is_negative (q : Q) : bool := negb (Qle_bool 0 q).

Definition fl_add (x y : xfloat) : xfloat :=
  match x, y with
  | Finite a, Finite b => rnd (a + b)
  | NaN, _ | _, NaN => NaN
  | Infinite s, Infinite s' => if Bool.eqb s s' then Infinite s else NaN
  | Infinite s, Finite _ | Finite _, Infinite s => Infinite s
  end.

Definition fl_sub (x y : xfloat) : xfloat :=
  match x, y with
  | Finite a, Finite b => rnd (a - b)
  | NaN, _ | _, NaN => NaN
  | Infinite s, Infinite s' => if Bool.eqb s s' then NaN else Infinite s
  | Infinite s, Finite _ => Infinite s
  | Finite _, Infinite s => Infinite (negb s)
  end.

Definition fl_mul (x y : xfloat) : xfloat :=
  match x, y with
  | Finite a, Finite b => rnd (a * b)
  | NaN, _ | _, NaN => NaN
  | Infinite s, Infinite s' => Infinite (xorb s s')
  | Infinite s, Finite b | Finite b, Infinite s =>
      if Qeq_bool b 0 then NaN else Infinite (xorb s (is_negative b))
  end.

Definition fl_div (x y : xfloat) : xfloat :=
  match x, y with
  | Finite a, Finite b =>
      if Qeq_bool b 0 then
        if Qeq_bool a 0 then NaN else Infinite (is_negative a)
      else rnd (a / b)
  | NaN, _ | _, NaN => NaN
  | Infinite _, Infinite _ => NaN
  | Infinite s, Finite b => Infinite (xorb s (is_negative b))
  | Finite _, Infinite _ => Finite 0
  end.
End FloatArithmetic.

(** [x - y] and [x * y] on Python floats. *)
Definition float_sub : xfloat -> xfloat -> xfloat := fl_sub round_double.
Definition float_mul : xfloat -> xfloat -> xfloat := fl_mul round_double.

(** [int(q)] on a finite float: truncation toward zero. *)
Definition py_int (q : Q) : Z :=
  if Qle_bool 0 q then Qfloor q else Qceiling q.

(** [int(x)] on a float. *)
Definition int_of_float (x : xfloat) : result Z :=
  match x with
  | Finite q => Ok (py_int q)
  | Infinite _ => Raise OverflowError
  | NaN => Raise ValueError
  end.

(** ** Index helpers shared by the masking functions *)

(** Stop position of the Python slice [[:k]] on a sequence of length [len]:
    a negative [k] counts from the end, everything is clipped to the
    sequence. *)
Definition slice_stop (k : Z) (len : nat) : nat :=
  if (k <? 0)%Z then len - Z.to_nat (- k) else Nat.min (Z.to_nat k) len.

(** [l[:k]] *)
Definition slice_to {A} (l : list A) (k : Z) : list A :=
  firstn (slice_stop k (length l)) l.

(** [l.at[:k].set(v)] *)
Definition set_slice_to {A} (l : list A) (k : Z) (v : A) : list A :=
  repeat v (slice_stop k (length l)) ++ skipn (slice_stop k (length l)) l.

(** [l.at[i].set(v)]; an index outside the array is dropped. *)
Fixpoint set_at {A} (l : list A) (i : nat) (v : A) : list A :=
  match l, i with
  | [], _ => []
  | _ :: l', 0 => v :: l'
  | a :: l', S i' => a :: set_at l' i' v
  end.

(** [l.at[ids].set(v)] *)
Definition scatter_set {A} (l : list A) (ids : list nat) (v : A) : list A :=
  fold_left (fun m i => set_at m i v) ids l.

(** [jnp.ones(n)] *)
Definition ones (n : nat) : list Q := repeat 1%Q n.

(** [range(start, stop, step)] for a positive [step]. *)
Definition range (start stop step : nat) : list nat :=
  map (fun i => start + i * step) (seq 0 ((stop - start + (step - 1)) / step)).

(** [jnp.argsort]: the indices that sort the keys, ties kept in index
    order (the sort is stable). *)
Section Argsort.
Variable K : Type.
Variable leb : K -> K -> bool.

Fixpoint insert_key (v : K * nat) (l : list (K * nat)) : list (K * nat) :=
  match l with
  | [] => [v]
  | u :: l' =>
      if leb (fst v) (fst u) then v :: u :: l' else u :: insert_key v l'
  end.

Definition sort_keys (l : list (K * nat)) : list (K * nat) :=
  fold_right insert_key [] l.

Definition argsort (l : list K) : list nat :=
  map snd (sort_keys (combine l (seq 0 (length l)))).

(** The order the table is sorted by. *)
Definition key_le (u v : K * nat) : Prop := leb (fst u) (fst v) = true.
End Argsort.

(** ** Masking strategies *)

Section Masking.
(** The PRNG: [uniform key n] is [jax.random.uniform(key, shape=(n,))]. *)
Variable Key : Type.
Variable uniform : Key -> nat -> list Q.

(** [random_masking(x, mask_ratio, key)], one sample: [x] is the
    sequence of the [L] patch embeddings and [mask_ratio] the value of a
    finite Python float.  [int(L*(1-mask_ratio))] is evaluated in double
    precision, each operation rounded. *)
Definition random_masking {A} (x : list A) (mask_ratio : Q) (key : Key)
  : result (list A * list Q * list nat) :=
  let L := length x in
  keep <- (l <- float_of_int (Z.of_nat L) ;;
           int_of_float
             (float_mul l (float_sub (Finite 1) (Finite mask_ratio)))) ;;
  let noise := uniform key L in
  let ids_shuffle := argsort Qle_bool noise in
  let ids_restore := argsort Nat.leb ids_shuffle in
  let ids_keep := slice_to ids_shuffle keep in
  let x_masked := pick x ids_keep in
  let mask := ones L in
  let mask := set_slice_to mask keep 0%Q in
  let mask := pick mask ids_restore in
  Ok (x_masked, mask, ids_restore).

(** The local variables [keep] and [ids_shuffle] of [random_masking],
    named for the statements about them. *)
Definition keep_count (L : nat) (mask_ratio : Q) : result Z :=
  l <- float_of_int (Z.of_nat L) ;;
  int_of_float (float_mul l (float_sub (Finite 1) (Finite mask_ratio))).

Definition ids_shuffle (L : nat) (key : Key) : list nat :=
  argsort Qle_bool (uniform key L).

(** [grid_masking(x, mask_ratio, key)], one sample.  The stride [keep] is
    1 or 2 once the assertion has passed: at the two ratios the assertion
    lets through, [1-mask_ratio] and its inverse are powers of two, and the
    float operations are exact.  (On an empty sequence the source
    indexes with an empty array that has no integer type; the statements
    below take a non-empty grid.) *)
Definition grid_masking {A} (x : list A) (mask_ratio : Q) (key : Key)
  : result (list A * list Q * list nat) :=
  assert (Qeq_bool mask_ratio (1 # 2) || Qeq_bool mask_ratio (3 # 4)) ;;
  let L := length x in
  let nb_patches := Nat.sqrt L in
  let keep := Z.to_nat (py_int (1 / (1 - mask_ratio))%Q / 2) in
  let ids_restore := seq 0 L in
  let even_rows := range 0 nb_patches 2 in
  let ids_keep :=
    flat_map (fun row => range (row * nb_patches) ((row + 1) * nb_patches) keep)
      even_rows in
  let x_masked := pick x ids_keep in
  let mask := ones L in
  let mask := scatter_set mask ids_keep 0%Q in
  let mask := pick mask ids_restore in
  Ok (x_masked, mask, ids_restore).
End Masking.

(** The local variables [keep] (the column stride) and [ids_keep] of
    [grid_masking], named for the statements about them. *)
Definition grid_stride (mask_ratio : Q) : nat :=
  Z.to_nat (py_int (1 / (1 - mask_ratio))%Q / 2).

Definition grid_ids_keep (nb_patches keep : nat) : list nat :=
  flat_map (fun row => range (row * nb_patches) ((row + 1) * nb_patches) keep)
    (range 0 nb_patches 2).

(** The sequence in original patch order that the decoder is meant to
    work on: the class token, then patch [i] where the mask says visible
    and the mask token where it says hidden. *)
Definition cls_in_order {A} (cls_token mask_token : A) (x : list A)
  (mask : list Q) : list A :=
  cls_token :: map2 (fun xi m => if Qeq_bool m 0 then xi else mask_token) x mask.

(** Number of visible patches according to a mask (entries equal to 0). *)
Definition zeros_count (mask : list Q) : nat :=
  length (filter (fun m => Qeq_bool m 0) mask).

(** A generator for concrete runs: the noise is read off a table. *)
Definition table_uniform (key : nat -> Q) (n : nat) : list Q :=
  map key (seq 0 n).

Definition sample_noise (i : nat) : Q :=
  match i with
  | 0 => 1 # 2
  | 1 => 1 # 3
  | 2 => 1 # 5
  | 3 => 1 # 4
  | _ => 1
  end.

(** The un-shuffling step of [MAEDecoder.__call__]: [x] is the embedded
    latent sequence, class token first; the result is the sequence the
    decoder adds its position embedding to. *)
Definition decoder_unshuffle {A} (mask_token : A) (x : list A)
  (ids_restore : list nat) : list A :=
  let mask_tokens := repeat mask_token (length ids_restore + 1 - length x) in
  let x_ := skipn 1 x ++ mask_tokens in
  let x_ := pick x_ ids_restore in
  firstn 1 x ++ x_.

(** What the encoder hands to the decoder: the class token in front of the
    visible subset ([MAEEncoder.__call__], the concatenation). *)
Definition with_cls {A} (cls_token : A) (x_masked : list A) : list A :=
  cls_token :: x_masked.

(** ** Floating-point results and reductions *)

(** [a / b] on finite floats: a division by zero yields the IEEE special
    values instead of raising. *)
Definition fdiv (a b : Q) : xfloat :=
  if Qeq_bool b 0 then
    if Qeq_bool a 0 then NaN else Infinite (negb (Qle_bool 0 a))
  else Finite (a / b).

Definition Qsum (l : list Q) : Q := fold_right Qplus 0%Q l.

(** The mean of a sequence of rationals. *)
Definition mean (v : list Q) : Q :=
  (Qsum v / inject_Z (Z.of_nat (length v)))%Q.

(** The sub-arrays along the leading axis, and the rows of a matrix. *)
Definition unstack {A} (t : ndarray A) : list (ndarray A) :=
  match shape t with
  | n :: s =>
      map (fun i => mk_ndarray s (firstn (size s) (skipn (i * size s) (data t))))
        (seq 0 n)
  | [] => []
  end.

Definition rows {A} (t : ndarray A) : list (list A) := map (@data A) (unstack t).

(** Shape of the result of an element-wise operation ([TypeError] when the
    operands do not broadcast); the shapes are given last axis first. *)
Fixpoint broadcast_rev (s1 s2 : list nat) : result (list nat) :=
  match s1, s2 with
  | [], s => Ok s
  | s, [] => Ok s
  | a :: s1', b :: s2' =>
      if (a =? b) || (b =? 1) then s <- broadcast_rev s1' s2' ;; Ok (a :: s)
      else if a =? 1 then s <- broadcast_rev s1' s2' ;; Ok (b :: s)
      else Raise TypeError
  end.

Definition broadcast_shapes (s1 s2 : list nat) : result (list nat) :=
  s <- broadcast_rev (rev s1) (rev s2) ;; Ok (rev s).

(** ** float32 tensors *)

(** The largest float32. *)
Definition f32_max : Q := inject_Z ((2 ^ 24 - 1) * 2 ^ 104).

(** The float32 arithmetic of the tensors.  A finite result is modelled by
    the exact rational (the rounding to 24 bits is not modelled, nor is the
    order in which a reduction adds its terms); a result outside the
    float32 range is an infinity. *)
Definition f32 (q : Q) : xfloat :=
  if Qle_bool (- f32_max) q && Qle_bool q f32_max then Finite q
  else Infinite (is_negative q).

Definition f32_add : xfloat -> xfloat -> xfloat := fl_add f32.
Definition f32_sub : xfloat -> xfloat -> xfloat := fl_sub f32.
Definition f32_mul : xfloat -> xfloat -> xfloat := fl_mul f32.
Definition f32_div : xfloat -> xfloat -> xfloat := fl_div f32.

(** [jnp.sum] over a buffer. *)
Definition f32_sum (l : list xfloat) : xfloat := fold_right f32_add (Finite 0%Q) l.

(** A float that is zero or not a number: what a product with a zero mask
    entry can be. *)
Definition zero_or_nan (x : xfloat) : Prop :=
  x = NaN \/ exists z, x = Finite z /\ (z == 0)%Q.

(** An array of finite values as a float32 array. *)
Definition lift (t : ndarray Q) : ndarray xfloat :=
  mk_ndarray (shape t) (map Finite (data t)).

(** The batch array of the per-sample results of a vmapped function; the
    samples of a (non-empty) batch have one shape. *)
Definition stack {A} (ts : list (ndarray A)) : ndarray A :=
  mk_ndarray (length ts :: match ts with t :: _ => shape t | [] => [] end)
    (concat (map (@data A) ts)).

(** Index into an operand of shape [s] for the index [idx] of the
    broadcast result: the leading axes the operand lacks are dropped and
    its axes of size 1 are read at 0. *)
Definition bcast_index (s idx : list nat) : list nat :=
  map2 (fun d i => if d =? 1 then 0 else i) s (skipn (length idx - length s) idx).

Definition nd_get {A} (d : A) (t : ndarray A) (idx : list nat) : A :=
  nth (ravel (shape t) idx) (data t) d.

(** An element-wise binary operation, with broadcasting ([d] fills in for
    an entry missing from a buffer shorter than its shape says). *)
Definition nd_map2 {A} (d : A) (f : A -> A -> A) (a b : ndarray A)
  : result (ndarray A) :=
  s <- broadcast_shapes (shape a) (shape b) ;;
  Ok (mk_ndarray s
        (map (fun k => f (nd_get d a (bcast_index (shape a) (unravel s k)))
                         (nd_get d b (bcast_index (shape b) (unravel s k))))
           (seq 0 (size s)))).

(** The [n] rows of length [m] of a buffer: the slices along the last
    axis. *)
Definition chunks {A} (m : nat) (d : list A) (n : nat) : list (list A) :=
  map (fun i => firstn m (skipn (i * m) d)) (seq 0 n).

(** [jnp.mean(t, axis=-1)]: the sum of each row divided by its length. *)
Definition mean_last (t : ndarray xfloat) : result (ndarray xfloat) :=
  match rev (shape t) with
  | [] => Raise ValueError
  | D :: s =>
      Ok (mk_ndarray (rev s)
            (map (fun r => f32_div (f32_sum r) (Finite (inject_Z (Z.of_nat D))))
               (chunks D (data t) (size (rev s)))))
  end.

(** ** Loss functions *)

Section Losses.
Variables Key Params : Type.

(** [jax.random.split(key, 4)] *)
Variable split : Key -> Key * Key * Key * Key.

(** The square root of [(var + 1.e-6)**.5]. *)
Variable fsqrt : Q -> Q.

(** [optax.softmax_cross_entropy] on one sample. *)
Variable softmax_cross_entropy : list Q -> list Q -> Q.

(** The network: [apply model params x train mask_ratio key dropout
    drop_path] is [model.apply({'params': params}, ...)]; for the
    auto-encoder it returns the predicted patches [N, L, D] and the mask
    [N, L]. *)
Record mae_model : Type := {
  patch_size : nat;
  apply : Params -> list (ndarray Q) -> bool -> Q -> Key -> Key -> Key
          -> ndarray Q * ndarray Q
}.

(** The classifier returns the logits [N, K]. *)
Record cls_model : Type := {
  apply_cls : Params -> list (ndarray Q) -> Q -> bool -> Key -> Key -> Key
              -> ndarray Q
}.

Definition mae_loss (model : mae_model) (params : Params)
  (x : list (ndarray Q)) (train : bool) (mask_ratio : Q) (key : Key)
  : result (xfloat * Key) :=
  let '(key, dropout_apply_rng, drop_path_apply_rng, masked_rng) := split key in
  target <- create_patches_batch x (patch_size model) ;;
  let target := lift (stack target) in
  let '(y, mask) :=
    apply model params x train mask_ratio masked_rng
      dropout_apply_rng drop_path_apply_rng in
  let y := lift y in
  let mask := lift mask in
  diff <- nd_map2 NaN f32_sub y target ;;
  let square := mk_ndarray (shape diff) (map (fun v => f32_mul v v) (data diff)) in
  loss <- mean_last square ;;
  masked <- nd_map2 NaN f32_mul loss mask ;;
  let loss := f32_div (f32_sum (data masked)) (f32_sum (data mask)) in
  Ok (loss, key).

(** [v ** .5] on a float32: [fsqrt] on the finite non-negative values.  (In
    [mae_norm_pix_loss] the operand is a variance plus a positive constant:
    it is never negative.) *)
Definition f32_sqrt (x : xfloat) : xfloat :=
  match x with
  | Finite q => if Qle_bool 0 q then f32 (fsqrt q) else NaN
  | Infinite false => Infinite false
  | _ => NaN
  end.

(** [(target - mean) / (var + 1.e-6)**.5] on one row of length [D], with
    [mean] and [var] the mean and the variance of the row. *)
Definition normalize (D : nat) (t : list xfloat) : list xfloat :=
  let n := Finite (inject_Z (Z.of_nat D)) in
  let mean := f32_div (f32_sum t) n in
  let var :=
    f32_div
      (f32_sum (map (fun v => f32_mul (f32_sub v mean) (f32_sub v mean)) t)) n in
  let sd := f32_sqrt (f32_add var (Finite (1 # 1000000))) in
  map (fun v => f32_div (f32_sub v mean) sd) t.

(** The three lines that normalise the target along its last axis. *)
Definition normalize_last (t : ndarray xfloat) : result (ndarray xfloat) :=
  match rev (shape t) with
  | [] => Raise ValueError
  | D :: s =>
      Ok (mk_ndarray (shape t)
            (concat (map (normalize D) (chunks D (data t) (size (rev s))))))
  end.

Definition mae_norm_pix_loss (model : mae_model) (params : Params)
  (x : list (ndarray Q)) (train : bool) (mask_ratio : Q) (key : Key)
  : result (xfloat * Key) :=
  let '(key, dropout_apply_rng, drop_path_apply_rng, masked_rng) := split key in
  target <- create_patches_batch x (patch_size model) ;;
  let target := lift (stack target) in
  target <- normalize_last target ;;
  let '(y, mask) :=
    apply model params x train mask_ratio masked_rng
      dropout_apply_rng drop_path_apply_rng in
  let y := lift y in
  let mask := lift mask in
  diff <- nd_map2 NaN f32_sub y target ;;
  let square := mk_ndarray (shape diff) (map (fun v => f32_mul v v) (data diff)) in
  loss <- mean_last square ;;
  masked <- nd_map2 NaN f32_mul loss mask ;;
  let loss := f32_div (f32_sum (data masked)) (f32_sum (data mask)) in
  Ok (loss, key).

(** [v.argmax()]: the first position of the largest entry. *)
Fixpoint argmax_from (best : Q) (ibest i : nat) (v : list Q) : nat :=
  match v with
  | [] => ibest
  | a :: v' =>
      if Qle_bool a best then argmax_from best ibest (S i) v'
      else argmax_from a i (S i) v'
  end.

Definition argmax (v : list Q) : result nat :=
  match v with
  | [] => Raise ValueError
  | a :: v' => Ok (argmax_from a 0 1 v')
  end.

(** [jax.nn.one_hot(i, k)] *)
Definition one_hot (i k : nat) : list Q :=
  map (fun j => if j =? i then 1%Q else 0%Q) (seq 0 k).

(** [(preds == labels).mean()]: the mean of the element-wise
    comparison, over all entries of the [N, K] array. *)
Definition elementwise_agreement (preds labels : list (list Q)) : xfloat :=
  let eq := concat (map2 (map2 Qeq_bool) preds labels) in
  fdiv (inject_Z (Z.of_nat (length (filter (fun b => b) eq))))
       (inject_Z (Z.of_nat (length eq))).

Definition mae_cls_loss (model : cls_model) (params : Params)
  (x : list (ndarray Q) * ndarray Q) (train : bool) (mask_ratio : Q)
  (key : Key) : result (xfloat * xfloat * Key) :=
  let '(imgs, labels) := x in
  let '(key, dropout_apply_rng, drop_path_apply_rng, masked_rng) := split key in
  let logits :=
    apply_cls model params imgs mask_ratio train masked_rng
      dropout_apply_rng drop_path_apply_rng in
  let ce := map2 softmax_cross_entropy (rows logits) (rows labels) in
  let loss := fdiv (Qsum ce) (inject_Z (Z.of_nat (length ce))) in
  k <- shape_at labels 1 ;;
  ids <- vmap argmax (rows logits) ;;
  let preds := map (fun i => one_hot i k) ids in
  let acc := elementwise_agreement preds (rows labels) in
  Ok (loss, acc, key).

(** [mae_supervised_contrastive_loss]: the product [features * (1 - mask)]
    is formed (and may fail to broadcast), then the function returns
    Python's [None], modelled by [None]. *)
Definition mae_supervised_contrastive_loss (model : mae_model)
  (params : Params) (x : list (ndarray Q) * ndarray Q) (train : bool)
  (mask_ratio : Q) (key : Key) : result (option (xfloat * Key)) :=
  let '(imgs, labels) := x in
  let '(key, dropout_apply_rng, drop_path_apply_rng, masked_rng) := split key in
  let '(features, mask) :=
    apply model params imgs train mask_ratio masked_rng
      dropout_apply_rng drop_path_apply_rng in
  _ <- broadcast_shapes (shape features) (shape mask) ;;
  Ok None.
End Losses.

(** ** A small concrete model, for running the loss functions *)

Definition demo_split (k : unit) : unit * unit * unit * unit := (k, k, k, k).

(** One 1x1 image with channels 1, 2, 3. *)
Definition demo_batch : list (ndarray Q) :=
  [mk_ndarray [3; 1; 1] [1 # 1; 2 # 1; 3 # 1]%Q].

(** A network with patch size 1 that predicts 2 everywhere and returns the
    given mask. *)
Definition demo_model (mask : list Q) : mae_model unit unit :=
  {| patch_size := 1;
     apply := fun _ _ _ _ _ _ _ =>
                (mk_ndarray [1; 1; 3] [2 # 1; 2 # 1; 2 # 1]%Q,
                 mk_ndarray [1; 1] mask) |}.

(** One 2x2 image with channels (1, 2, 3, 4), (5, 6, 7, 8) and
    (9, 10, 11, 12), and a network with patch size 1 that predicts 0
    everywhere and returns the given mask over the four patches. *)
Definition demo_image : ndarray Q :=
  mk_ndarray [3; 2; 2] (map (fun i => inject_Z (Z.of_nat i)) (seq 1 12)).

Definition demo_net (mask : list Q) : mae_model unit unit :=
  {| patch_size := 1;
     apply := fun _ _ _ _ _ _ _ =>
                (mk_ndarray [1; 4; 3] (repeat 0%Q 12), mk_ndarray [1; 4] mask) |}.

(** ** The losses as the specification words them *)

(** The loss of patch [k]: the mean over its [D] entries of the squared
    difference between prediction and target; [y] and [t] are the buffers
    of two arrays of rows of length [D]. *)
Definition per_patch_mse (D : nat) (y t : list Q) (k : nat) : Q :=
  mean (map (fun j => (nth (k * D + j) y 0 - nth (k * D + j) t 0)
                      * (nth (k * D + j) y 0 - nth (k * D + j) t 0))%Q
          (seq 0 D)).

(** The per-patch losses of the hidden patches (mask entry 1). *)
Definition hidden_row (loss mask : list Q) : list Q :=
  map fst (filter (fun lm => Qeq_bool (snd lm) 1) (combine loss mask)).

(** Exact-match rate: the fraction of samples whose predicted one-hot
    vector is the label vector. *)
Definition row_eqb (u v : list Q) : bool :=
  (length u =? length v) && forallb (fun b => b) (map2 Qeq_bool u v).

Definition exact_match_rate (preds labels : list (list Q)) : xfloat :=
  fdiv (inject_Z (Z.of_nat (length (filter (fun b => b) (map2 row_eqb preds labels)))))
       (inject_Z (Z.of_nat (length labels))).

(** Number of samples whose predicted class differs from the label class. *)
Definition wrong_count (ids cs : list nat) : nat :=
  length (filter (fun ac => negb (fst ac =? snd ac)) (combine ids cs)).

(** * Properties *)

Unset Implicit Arguments.

(** ** Indexing lemmas *)

Lemma pick_nil {A} (l : list A) : pick l [] = [].
Proof. reflexivity. Qed.

Lemma pick_cons_some {A} (l : list A) k ks v :
  nth_error l k = Some v -> pick l (k :: ks) = v :: pick l ks.
Proof. intros H. unfold pick. simpl. now rewrite H. Qed.

Lemma pick_app {A} (l : list A) ks ks' :
  pick l (ks ++ ks') = pick l ks ++ pick l ks'.
Proof. unfold pick. apply flat_map_app. Qed.

Lemma nth_error_in_range {A} (l : list A) k :
  k < length l -> exists v, nth_error l k = Some v.
Proof.
  intros H. destruct (nth_error l k) eqn:E; eauto.
  apply nth_error_None in E. lia.
Qed.

Lemma length_pick {A} (l : list A) ks :
  Forall (fun k => k < length l) ks -> length (pick l ks) = length ks.
Proof.
  induction 1 as [|k ks Hk _ IH]; [reflexivity|].
  destruct (nth_error_in_range l k Hk) as [v Hv].
  rewrite (pick_cons_some _ _ _ _ Hv). simpl. now rewrite IH.
Qed.

Lemma nth_error_pick {A} (l : list A) ks j :
  Forall (fun k => k < length l) ks ->
  nth_error (pick l ks) j =
  match nth_error ks j with
  | Some k => nth_error l k
  | None => None
  end.
Proof.
  intros H. revert j. induction H as [|k ks Hk _ IH]; intros j.
  - now destruct j.
  - destruct (nth_error_in_range l k Hk) as [v Hv].
    rewrite (pick_cons_some _ _ _ _ Hv).
    destruct j as [|j]; simpl; [now rewrite Hv | apply IH].
Qed.

Lemma pick_pick {A} (l : list A) ks1 ks2 :
  Forall (fun k => k < length l) ks1 ->
  Forall (fun k => k < length ks1) ks2 ->
  pick (pick l ks1) ks2 = pick l (pick ks1 ks2).
Proof.
  intros H1. induction 1 as [|k ks2 Hk _ IH]; [reflexivity|].
  destruct (nth_error_in_range ks1 k Hk) as [k' Hk'].
  rewrite (pick_cons_some _ _ _ _ Hk').
  assert (Hin : k' < length l).
  { rewrite Forall_forall in H1. apply H1.
    eapply nth_error_In; eauto. }
  destruct (nth_error_in_range l k' Hin) as [v Hv].
  rewrite (pick_cons_some _ _ _ _ Hv).
  rewrite (pick_cons_some (pick l ks1) k ks2 v).
  - now rewrite IH.
  - rewrite nth_error_pick by assumption. now rewrite Hk'.
Qed.

Lemma pick_map {A B} (f : A -> B) (l : list A) ks :
  pick (map f l) ks = map f (pick l ks).
Proof.
  induction ks as [|k ks IH]; [reflexivity|].
  unfold pick in *. simpl. rewrite map_app, IH. f_equal.
  rewrite nth_error_map. now destruct (nth_error l k).
Qed.

Lemma pick_seq_self (s n : nat) ks :
  Forall (fun k => k < n) ks -> pick (seq s n) ks = map (fun k => s + k) ks.
Proof.
  induction 1 as [|k ks Hk _ IH]; [reflexivity|].
  rewrite (pick_cons_some _ _ _ (s + k)).
  - simpl. now rewrite IH.
  - rewrite nth_error_seq. apply Nat.ltb_lt in Hk. now rewrite Hk.
Qed.

Lemma pick_shift {A} (a : A) (l : list A) ks :
  pick (a :: l) (map S ks) = pick l ks.
Proof.
  induction ks as [|k ks IH]; [reflexivity|].
  unfold pick in *. simpl. now rewrite IH.
Qed.

Lemma pick_all {A} (l : list A) : pick l (seq 0 (length l)) = l.
Proof.
  induction l as [|a l IH]; [reflexivity|].
  cbn [length seq]. rewrite (pick_cons_some _ _ _ a) by reflexivity.
  now rewrite <- seq_shift, pick_shift, IH.
Qed.

Lemma Forall_lt_map_seq (f : nat -> nat) n m :
  (forall k, k < n -> f k < m) ->
  Forall (fun k => k < m) (map f (seq 0 n)).
Proof.
  intros H. apply Forall_forall. intros x Hx.
  apply in_map_iff in Hx as (k & <- & Hk). apply in_seq in Hk. apply H. lia.
Qed.

(** Gathering twice through index maps that cancel gives the buffer back. *)
Lemma pick_round_trip {A} (l : list A) (f g : nat -> nat) n :
  length l = n ->
  (forall k, k < n -> f k < n) ->
  (forall k, k < n -> g k < n) ->
  (forall k, k < n -> f (g k) = k) ->
  pick (pick l (map f (seq 0 n))) (map g (seq 0 n)) = l.
Proof.
  intros Hl Hf Hg Hfg.
  rewrite pick_pick.
  - rewrite pick_map, pick_seq_self by now apply Forall_lt_map_seq.
    rewrite !map_map.
    rewrite (map_ext_in _ (fun k => k)).
    + rewrite map_id. subst n. apply pick_all.
    + intros k Hk. apply in_seq in Hk. simpl. apply Hfg. lia.
  - rewrite Hl. now apply Forall_lt_map_seq.
  - rewrite length_map, length_seq. now apply Forall_lt_map_seq.
Qed.

(** ** Row-major offsets *)

Lemma size_cons n s : size (n :: s) = n * size s.
Proof. reflexivity. Qed.

Lemma unravel_lt s : forall k, k < size s -> Forall2 lt (unravel s k) s.
Proof.
  induction s as [|n s IH]; intros k Hk; [constructor|].
  rewrite size_cons in Hk. cbn [unravel].
  assert (Hs : size s <> 0) by (intros E; rewrite E in Hk; lia).
  constructor.
  - apply Nat.Div0.div_lt_upper_bound. lia.
  - apply IH. now apply Nat.mod_upper_bound.
Qed.

Lemma ravel_lt s : forall idx, Forall2 lt idx s -> ravel s idx < size s.
Proof.
  induction s as [|n s IH]; intros idx H; inversion H; subst; [simpl; lia|].
  cbn [ravel]. rewrite size_cons.
  match goal with Hr : Forall2 lt _ s |- _ => specialize (IH _ Hr) end.
  nia.
Qed.

Lemma ravel_unravel s : forall k, k < size s -> ravel s (unravel s k) = k.
Proof.
  induction s as [|n s IH]; intros k Hk; [simpl in *; lia|].
  rewrite size_cons in Hk. cbn [unravel ravel].
  assert (Hs : size s <> 0) by (intros E; rewrite E in Hk; lia).
  rewrite IH by now apply Nat.mod_upper_bound.
  pose proof (Nat.div_mod_eq k (size s)). lia.
Qed.

Lemma unravel_ravel s : forall idx, Forall2 lt idx s -> unravel s (ravel s idx) = idx.
Proof.
  induction s as [|n s IH]; intros idx H; inversion H; subst; [reflexivity|].
  cbn [ravel unravel].
  match goal with Hr : Forall2 lt _ s |- _ =>
    pose proof (ravel_lt s _ Hr) as Hlt; pose proof (IH _ Hr) as Heq end.
  assert (Hs : size s <> 0) by lia.
  rewrite Nat.div_add_l, Nat.div_small, Nat.add_0_r by assumption.
  rewrite Nat.add_comm, Nat.Div0.mod_add, Nat.mod_small by assumption.
  now rewrite Heq.
Qed.

(** ** The two axis permutations of the codec *)

Ltac in_bounds :=
  repeat (apply Forall2_cons; [assumption|]); apply Forall2_nil.

Lemma size_hwpqc nh nw np nq nc :
  size [nh; nw; np; nq; nc] = size [nc; nh; np; nw; nq].
Proof. unfold size, fold_right. nia. Qed.

Lemma chpwq_hwpqc_spec nc nh np nw nq h w p q c :
  h < nh -> w < nw -> p < np -> q < nq -> c < nc ->
  chpwq_hwpqc nc nh np nw nq (ravel [nh; nw; np; nq; nc] [h; w; p; q; c])
  = ravel [nc; nh; np; nw; nq] [c; h; p; w; q].
Proof.
  intros. unfold chpwq_hwpqc. rewrite unravel_ravel; [reflexivity|].
  in_bounds.
Qed.

Lemma hwpqc_chpwq_spec nh nw np nq nc c h p w q :
  h < nh -> w < nw -> p < np -> q < nq -> c < nc ->
  hwpqc_chpwq nh nw np nq nc (ravel [nc; nh; np; nw; nq] [c; h; p; w; q])
  = ravel [nh; nw; np; nq; nc] [h; w; p; q; c].
Proof.
  intros. unfold hwpqc_chpwq. rewrite unravel_ravel; [reflexivity|].
  in_bounds.
Qed.

Lemma unravel5 n1 n2 n3 n4 n5 k :
  k < size [n1; n2; n3; n4; n5] ->
  exists i1 i2 i3 i4 i5,
    unravel [n1; n2; n3; n4; n5] k = [i1; i2; i3; i4; i5] /\
    k = ravel [n1; n2; n3; n4; n5] [i1; i2; i3; i4; i5] /\
    i1 < n1 /\ i2 < n2 /\ i3 < n3 /\ i4 < n4 /\ i5 < n5.
Proof.
  intros Hk. pose proof (unravel_lt _ _ Hk) as H.
  pose proof (ravel_unravel _ _ Hk) as E.
  remember (unravel [n1; n2; n3; n4; n5] k) as u eqn:Eu. clear Eu.
  inversion H as [|i1 ? u1 ? H1 R1]; subst.
  inversion R1 as [|i2 ? u2 ? H2 R2]; subst.
  inversion R2 as [|i3 ? u3 ? H3 R3]; subst.
  inversion R3 as [|i4 ? u4 ? H4 R4]; subst.
  inversion R4 as [|i5 ? u5 ? H5 R5]; subst.
  inversion R5; subst.
  exists i1, i2, i3, i4, i5. repeat split; auto.
Qed.

Lemma chpwq_hwpqc_lt nc nh np nw nq k :
  k < size [nh; nw; np; nq; nc] ->
  chpwq_hwpqc nc nh np nw nq k < size [nc; nh; np; nw; nq].
Proof.
  intros Hk. destruct (unravel5 _ _ _ _ _ _ Hk)
    as (h & w & p & q & c & _ & -> & ? & ? & ? & ? & ?).
  rewrite chpwq_hwpqc_spec by assumption.
  apply ravel_lt. in_bounds.
Qed.

Lemma hwpqc_chpwq_lt nh nw np nq nc k :
  k < size [nc; nh; np; nw; nq] ->
  hwpqc_chpwq nh nw np nq nc k < size [nh; nw; np; nq; nc].
Proof.
  intros Hk. destruct (unravel5 _ _ _ _ _ _ Hk)
    as (c & h & p & w & q & _ & -> & ? & ? & ? & ? & ?).
  rewrite hwpqc_chpwq_spec by assumption.
  apply ravel_lt. in_bounds.
Qed.

Lemma chpwq_hwpqc_cancel nc nh np nw nq k :
  k < size [nc; nh; np; nw; nq] ->
  chpwq_hwpqc nc nh np nw nq (hwpqc_chpwq nh nw np nq nc k) = k.
Proof.
  intros Hk. destruct (unravel5 _ _ _ _ _ _ Hk)
    as (c & h & p & w & q & _ & -> & ? & ? & ? & ? & ?).
  rewrite hwpqc_chpwq_spec by assumption.
  now apply chpwq_hwpqc_spec.
Qed.

(** ** Patch codec *)

Lemma reshape_ok {A} (t : ndarray A) s :
  size (shape t) = size s -> reshape t s = Ok (mk_ndarray s (data t)).
Proof. intros E. unfold reshape. now rewrite E, Nat.eqb_refl. Qed.

Lemma size_image h p : size [3; h * p; h * p] = size [3; h; p; h; p].
Proof. unfold size, fold_right. nia. Qed.

Lemma size_patches h p : size [h; h; p; p; 3] = size [h * h; p ^ 2 * 3].
Proof. unfold size, fold_right. cbn [Nat.pow]. nia. Qed.

Lemma create_patches_ok {A} (d : list A) h p :
  p <> 0 ->
  create_patches (mk_ndarray [3; h * p; h * p] d) p
  = Ok (mk_ndarray [h * h; p ^ 2 * 3] (patch_buffer d h p)).
Proof.
  intros Hp. unfold create_patches, shape_at.
  cbn [shape nth_error bind].
  rewrite Nat.eqb_refl. cbn [negb].
  destruct (Nat.eqb_spec p 0) as [|_]; [contradiction|].
  rewrite Nat.Div0.mod_mul, Nat.eqb_refl, Nat.div_mul by assumption.
  rewrite reshape_ok by (cbn [shape]; apply size_image).
  cbn [bind]. unfold einsum_chpwq_hwpqc. cbn [shape data bind].
  rewrite reshape_ok by (cbn [shape]; apply size_patches).
  reflexivity.
Qed.

Lemma recreate_images_ok {A} (d : list A) h p :
  recreate_images (mk_ndarray [h * h; p ^ 2 * 3] d) p
  = Ok (mk_ndarray [3; h * p; h * p]
          (pick d (map (hwpqc_chpwq h h p p 3) (seq 0 (size [3; h; p; h; p]))))).
Proof.
  unfold recreate_images, shape_at. cbn [shape nth_error bind].
  rewrite Nat.sqrt_square, Nat.eqb_refl.
  rewrite reshape_ok by (cbn [shape]; symmetry; apply size_patches).
  cbn [bind]. unfold einsum_hwpqc_chpwq. cbn [shape data bind].
  rewrite reshape_ok by (cbn [shape]; symmetry; apply size_image).
  reflexivity.
Qed.

Lemma length_patch_buffer {A} (d : list A) h p :
  length d = size [3; h * p; h * p] ->
  length (patch_buffer d h p) = size [h * h; p ^ 2 * 3].
Proof.
  intros Hd. unfold patch_buffer. rewrite length_pick.
  - now rewrite length_map, length_seq, size_patches.
  - apply Forall_lt_map_seq. intros k Hk.
    rewrite Hd, size_image. now apply chpwq_hwpqc_lt.
Qed.

(** Entry [(r, q, c)] of the patch at grid cell [(i, j)] is the pixel
    [(c, i * p + r, j * p + q)] of the image. *)
Lemma patch_buffer_entry {A} (d : list A) h p i j r q c :
  length d = size [3; h * p; h * p] ->
  i < h -> j < h -> r < p -> q < p -> c < 3 ->
  nth_error (patch_buffer d h p)
    (ravel [h * h; p ^ 2 * 3] [i * h + j; (r * p + q) * 3 + c])
  = nth_error d (ravel [3; h * p; h * p] [c; i * p + r; j * p + q]).
Proof.
  intros Hd Hi Hj Hr Hq Hc.
  assert (E1 : ravel [h * h; p ^ 2 * 3] [i * h + j; (r * p + q) * 3 + c]
               = ravel [h; h; p; p; 3] [i; j; r; q; c]).
  { unfold ravel, size, fold_right. cbn [Nat.pow]. nia. }
  assert (E2 : ravel [3; h * p; h * p] [c; i * p + r; j * p + q]
               = ravel [3; h; p; h; p] [c; i; r; j; q]).
  { unfold ravel, size, fold_right. nia. }
  rewrite E1, E2. unfold patch_buffer.
  rewrite nth_error_pick.
  - rewrite nth_error_map, nth_error_seq.
    assert (Hlt : ravel [h; h; p; p; 3] [i; j; r; q; c] < size [h; h; p; p; 3])
      by (apply ravel_lt; in_bounds).
    apply Nat.ltb_lt in Hlt. rewrite Hlt. cbn [option_map Nat.add].
    now rewrite chpwq_hwpqc_spec.
  - apply Forall_lt_map_seq. intros k Hk.
    rewrite Hd, size_image. now apply chpwq_hwpqc_lt.
Qed.

Lemma patch_buffer_round_trip {A} (d : list A) h p :
  length d = size [3; h * p; h * p] ->
  pick (patch_buffer d h p)
    (map (hwpqc_chpwq h h p p 3) (seq 0 (size [3; h; p; h; p]))) = d.
Proof.
  intros Hd. unfold patch_buffer. rewrite size_hwpqc.
  rewrite size_image in Hd.
  apply pick_round_trip; try assumption.
  - intros k Hk. rewrite <- size_hwpqc in Hk. now apply chpwq_hwpqc_lt.
  - intros k Hk. rewrite <- size_hwpqc. now apply hwpqc_chpwq_lt.
  - intros k Hk. now apply chpwq_hwpqc_cancel.
Qed.

Lemma side_multiple n p : p <> 0 -> n mod p = 0 -> n = n / p * p.
Proof.
  intros Hp Hm. pose proof (Nat.div_mod_eq n p). lia.
Qed.

Lemma create_patches_image {A} (x : ndarray A) n p :
  shape x = [3; n; n] -> well_formed x -> p <> 0 -> n mod p = 0 ->
  create_patches x p
  = Ok (mk_ndarray [n / p * (n / p); p ^ 2 * 3] (patch_buffer (data x) (n / p) p))
  /\ length (data x) = size [3; n / p * p; n / p * p].
Proof.
  intros Hs Hw Hp Hm. destruct x as [s d]. cbn [shape data] in *. subst s.
  unfold well_formed in Hw. cbn [shape data] in Hw.
  pose proof (side_multiple n p Hp Hm) as En.
  split.
  - rewrite En at 1 2. now apply create_patches_ok.
  - now rewrite <- En.
Qed.

(** C1: for a square three-channel image whose side is a multiple of the
    patch size, [recreate_images (create_patches x p) p] is [x] itself, the
    same buffer entry for entry; the patch of grid cell [(i, j)] is row
    [i * (n / p) + j] of the sequence (row-major over the grid) and holds the
    pixels of that cell. *)
Theorem recreate_create_patches {A} (x : ndarray A) (n p : nat) :
  shape x = [3; n; n] -> well_formed x -> p <> 0 -> n mod p = 0 ->
  exists y,
    create_patches x p = Ok y /\
    recreate_images y p = Ok x /\
    (forall i j r q c,
        i < n / p -> j < n / p -> r < p -> q < p -> c < 3 ->
        nth_error (data y)
          (ravel (shape y) [i * (n / p) + j; (r * p + q) * 3 + c])
        = nth_error (data x) (ravel (shape x) [c; i * p + r; j * p + q])).
Proof.
  intros Hs Hw Hp Hm.
  destruct (create_patches_image x n p Hs Hw Hp Hm) as [Hc Hd].
  pose proof (side_multiple n p Hp Hm) as En.
  eexists. split; [exact Hc|]. split.
  - rewrite recreate_images_ok, patch_buffer_round_trip by assumption.
    destruct x as [s d]. cbn [shape data] in *. subst s. now rewrite <- En.
  - intros i j r q c Hi Hj Hr Hq Hc3. cbn [shape data]. rewrite Hs.
    rewrite patch_buffer_entry by assumption. now rewrite <- En.
Qed.

Lemma recreate_create_patches_witness :
  let x := mk_ndarray [3; 2; 2] [10; 11; 12; 13; 20; 21; 22; 23; 30; 31; 32; 33] in
  (shape x = [3; 2; 2] /\ well_formed x /\ 1 <> 0 /\ 2 mod 1 = 0) /\
  exists y,
    create_patches x 1 = Ok y /\
    recreate_images y 1 = Ok x /\
    (forall i j r q c,
        i < 2 / 1 -> j < 2 / 1 -> r < 1 -> q < 1 -> c < 3 ->
        nth_error (data y)
          (ravel (shape y) [i * (2 / 1) + j; (r * 1 + q) * 3 + c])
        = nth_error (data x) (ravel (shape x) [c; i * 1 + r; j * 1 + q])).
Proof.
  intros x. split.
  - split; [reflexivity | split; [reflexivity | split; [discriminate | reflexivity]]].
  - apply (recreate_create_patches x 2 1);
      [reflexivity | reflexivity | discriminate | reflexivity].
Defined.

(** C7, counterexample: a one-channel 2x2 image with patch size 2 is a
    valid (C, H, W) image with C = 1, yet no patch sequence of shape
    (1, 4) is returned: the reshape to three channels fails. *)
Lemma create_patches_one_channel_fails :
  create_patches (mk_ndarray [1; 2; 2] [5; 6; 7; 8]) 2 = Raise TypeError /\
  ~ (exists y, create_patches (mk_ndarray [1; 2; 2] [5; 6; 7; 8]) 2 = Ok y
               /\ shape y = [2 / 2 * (2 / 2); 2 ^ 2 * 1]).
Proof.
  split; [reflexivity|].
  intros (y & H & _). discriminate H.
Qed.

(** C7, as amended: the codec is defined for three channels.  A valid
    (3, H, W) image gives a sequence of shape (H/p * W/p, p^2 * 3) whose
    patches are flattened in (row, col, channel) order; a non-empty image
    with any other channel count is rejected by the reshape. *)
Theorem create_patches_three_channels {A} (x : ndarray A) (C n p : nat) :
  shape x = [C; n; n] -> well_formed x -> p <> 0 -> n mod p = 0 ->
  (C = 3 ->
   exists y,
     create_patches x p = Ok y /\
     shape y = [n / p * (n / p); p ^ 2 * 3] /\
     well_formed y /\
     (forall i j r q c,
         i < n / p -> j < n / p -> r < p -> q < p -> c < 3 ->
         nth_error (data y)
           (ravel (shape y) [i * (n / p) + j; (r * p + q) * 3 + c])
         = nth_error (data x) (ravel (shape x) [c; i * p + r; j * p + q])))
  /\ (C <> 3 -> 0 < n -> create_patches x p = Raise TypeError).
Proof.
  intros Hs Hw Hp Hm. split.
  - intros ->.
    destruct (create_patches_image x n p Hs Hw Hp Hm) as [Hc Hd].
    pose proof (side_multiple n p Hp Hm) as En.
    eexists. split; [exact Hc|]. split; [reflexivity|]. split.
    + unfold well_formed. cbn [shape data]. now apply length_patch_buffer.
    + intros i j r q c Hi Hj Hr Hq Hc3. cbn [shape data]. rewrite Hs.
      rewrite patch_buffer_entry by assumption. now rewrite <- En.
  - intros HC Hn. destruct x as [s d]. cbn [shape] in Hs. subst s.
    unfold create_patches, shape_at. cbn [shape nth_error bind].
    rewrite Nat.eqb_refl. cbn [negb].
    destruct (Nat.eqb_spec p 0) as [|_]; [contradiction|].
    rewrite Hm, Nat.eqb_refl.
    unfold reshape. cbn [shape].
    destruct (Nat.eqb_spec (size [C; n; n]) (size [3; n / p; p; n / p; p]))
      as [E|_]; [exfalso|reflexivity].
    rewrite <- size_image, <- (side_multiple n p Hp Hm) in E.
    unfold size, fold_right in E. nia.
Qed.

Lemma create_patches_three_channels_witness :
  let x := mk_ndarray [3; 2; 2] [10; 11; 12; 13; 20; 21; 22; 23; 30; 31; 32; 33] in
  let g := mk_ndarray [1; 2; 2] [5; 6; 7; 8] in
  (shape x = [3; 2; 2] /\ well_formed x /\ 2 <> 0 /\ 2 mod 2 = 0 /\ 3 = 3) /\
  (exists y,
    create_patches x 2 = Ok y /\
    shape y = [2 / 2 * (2 / 2); 2 ^ 2 * 3] /\
    well_formed y /\
    (forall i j r q c,
        i < 2 / 2 -> j < 2 / 2 -> r < 2 -> q < 2 -> c < 3 ->
        nth_error (data y)
          (ravel (shape y) [i * (2 / 2) + j; (r * 2 + q) * 3 + c])
        = nth_error (data x) (ravel (shape x) [c; i * 2 + r; j * 2 + q]))) /\
  (shape g = [1; 2; 2] /\ well_formed g /\ 1 <> 3 /\ 0 < 2) /\
  create_patches g 2 = Raise TypeError.
Proof.
  intros x g. split; [|split; [|split]].
  - split; [reflexivity | split; [reflexivity | split; [discriminate | split; reflexivity]]].
  - apply (proj1 (create_patches_three_channels x 3 2 2
                    eq_refl eq_refl (fun E => O_S 1 (eq_sym E)) eq_refl));
      reflexivity.
  - split; [reflexivity | split; [reflexivity | split; [discriminate | lia]]].
  - apply (proj2 (create_patches_three_channels g 1 2 2
                    eq_refl eq_refl (fun E => O_S 1 (eq_sym E)) eq_refl));
      [discriminate | lia].
Defined.

(** ** Sorting indices *)

Section ArgsortFacts.
Variable K : Type.
Variable leb : K -> K -> bool.

Lemma insert_key_perm v l : Permutation (insert_key leb v l) (v :: l).
Proof.
  induction l as [|u l IH]; [reflexivity|]. cbn [insert_key].
  destruct (leb (fst v) (fst u)); [reflexivity|].
  rewrite IH. apply perm_swap.
Qed.

Lemma sort_keys_perm l : Permutation (sort_keys leb l) l.
Proof.
  induction l as [|v l IH]; [reflexivity|].
  cbn [sort_keys fold_right]. fold (sort_keys leb l).
  rewrite insert_key_perm. now constructor.
Qed.

Lemma snd_combine_seq (l : list K) s :
  map snd (combine l (seq s (length l))) = seq s (length l).
Proof.
  revert s. induction l as [|a l IH]; intros s; [reflexivity|].
  cbn [length seq combine map snd]. now rewrite IH.
Qed.

Lemma fst_combine_seq (l : list K) s :
  map fst (combine l (seq s (length l))) = l.
Proof.
  revert s. induction l as [|a l IH]; intros s; [reflexivity|].
  cbn [length seq combine map fst]. now rewrite IH.
Qed.

Lemma argsort_perm l : Permutation (argsort leb l) (seq 0 (length l)).
Proof.
  unfold argsort. rewrite sort_keys_perm. now rewrite snd_combine_seq.
Qed.

Lemma argsort_length l : length (argsort leb l) = length l.
Proof.
  rewrite (Permutation_length (argsort_perm l)). apply length_seq.
Qed.

Lemma argsort_lt l : Forall (fun k => k < length l) (argsort leb l).
Proof.
  apply Forall_forall. intros k Hk.
  apply (Permutation_in _ (argsort_perm l)) in Hk.
  apply in_seq in Hk. lia.
Qed.

Lemma argsort_NoDup l : NoDup (argsort leb l).
Proof.
  apply (Permutation_NoDup (Permutation_sym (argsort_perm l))).
  apply seq_NoDup.
Qed.

(** Every pair of the sorted table is a key with its position. *)
Lemma in_combine_seq (l : list K) s a i :
  In (a, i) (combine l (seq s (length l))) ->
  s <= i /\ nth_error l (i - s) = Some a.
Proof.
  revert s. induction l as [|b l IH]; intros s H; [destruct H|].
  cbn [length seq combine] in H. destruct H as [E|H].
  - inversion E; subst. now rewrite Nat.sub_diag.
  - apply IH in H as [Hle Hn]. split; [lia|].
    replace (i - s) with (S (i - S s)) by lia. exact Hn.
Qed.

Hypothesis leb_total : forall a b, leb a b = true \/ leb b a = true.

Lemma insert_key_sorted v l :
  Sorted (key_le leb) l -> Sorted (key_le leb) (insert_key leb v l).
Proof.
  induction 1 as [|u l Hs IH Hd]; cbn [insert_key].
  - repeat constructor.
  - destruct (leb (fst v) (fst u)) eqn:E.
    + constructor; [now constructor|]. now constructor.
    + constructor; [exact IH|].
      assert (Huv : key_le leb u v).
      { unfold key_le. destruct (leb_total (fst v) (fst u)); congruence. }
      destruct Hd as [|w l Hw]; cbn [insert_key].
      * now constructor.
      * destruct (leb (fst v) (fst w)); now constructor.
Qed.

Lemma sort_keys_sorted l : Sorted (key_le leb) (sort_keys leb l).
Proof.
  induction l as [|v l IH]; [constructor|].
  cbn [sort_keys fold_right]. now apply insert_key_sorted.
Qed.
End ArgsortFacts.

(** ** Argsort of a permutation is its inverse *)

Lemma sorted_perm_seq n : forall s l,
  StronglySorted le l -> Permutation l (seq s n) -> l = seq s n.
Proof.
  induction n as [|n IH]; intros s l Hs Hp.
  - apply Permutation_sym, Permutation_nil in Hp. now subst.
  - destruct l as [|h t].
    + apply Permutation_length in Hp. discriminate Hp.
    + apply StronglySorted_inv in Hs as [Hs Hh].
      assert (Eh : h = s).
      { assert (Hin : In s (h :: t))
          by (apply (Permutation_in _ (Permutation_sym Hp)); now left).
        assert (Hge : s <= h).
        { assert (Hh' : In h (seq s (S n)))
            by (apply (Permutation_in _ Hp); now left).
          apply in_seq in Hh'. lia. }
        destruct Hin as [E|Hin]; [now subst|].
        rewrite Forall_forall in Hh. specialize (Hh _ Hin). lia. }
      subst h. cbn [seq] in *. f_equal. apply IH; [assumption|].
      now apply Permutation_cons_inv in Hp.
Qed.

Lemma pick_snd_fst {A} (p : list A) (t : list (A * nat)) :
  (forall a i, In (a, i) t -> nth_error p i = Some a) ->
  pick p (map snd t) = map fst t.
Proof.
  induction t as [|[a i] t IH]; intros H; [reflexivity|].
  cbn [map fst snd]. rewrite (pick_cons_some _ _ _ a) by (apply H; now left).
  f_equal. apply IH. intros b j Hb. apply H. now right.
Qed.

Lemma sorted_keys_le (t : list (nat * nat)) :
  Sorted (key_le Nat.leb) t -> StronglySorted le (map fst t).
Proof.
  intros H. apply Sorted_StronglySorted.
  - intros a b c. apply Nat.le_trans.
  - induction H as [|u t Hs IH Hd]; [constructor|].
    cbn [map]. constructor; [exact IH|].
    destruct Hd as [|w t Hw]; constructor.
    now apply Nat.leb_le.
Qed.

Lemma nat_leb_total a b : (a <=? b) = true \/ (b <=? a) = true.
Proof.
  destruct (Nat.le_ge_cases a b); [left | right]; now apply Nat.leb_le.
Qed.

(** [p[argsort(p)]] is [0, 1, ..., L-1]. *)
Lemma argsort_sorts_perm (p : list nat) :
  Permutation p (seq 0 (length p)) ->
  pick p (argsort Nat.leb p) = seq 0 (length p).
Proof.
  intros Hp. unfold argsort.
  set (t := sort_keys Nat.leb (combine p (seq 0 (length p)))).
  rewrite pick_snd_fst.
  - apply sorted_perm_seq.
    + apply sorted_keys_le, sort_keys_sorted, nat_leb_total.
    + unfold t. rewrite sort_keys_perm, fst_combine_seq. exact Hp.
  - intros a i Hin. unfold t in Hin.
    apply (Permutation_in _ (sort_keys_perm _ _ _)) in Hin.
    apply in_combine_seq in Hin as [_ Hn]. now rewrite Nat.sub_0_r in Hn.
Qed.

Lemma argsort_inv_r (p : list nat) k :
  Permutation p (seq 0 (length p)) -> k < length p ->
  exists j, nth_error (argsort Nat.leb p) k = Some j /\ nth_error p j = Some k.
Proof.
  intros Hp Hk.
  assert (Hk' : k < length (argsort Nat.leb p)) by now rewrite argsort_length.
  destruct (nth_error_in_range _ _ Hk') as [j Hj].
  exists j. split; [exact Hj|].
  pose proof (f_equal (fun l => nth_error l k) (argsort_sorts_perm p Hp)) as E.
  cbn beta in E. rewrite nth_error_pick, Hj, nth_error_seq in E
    by apply argsort_lt.
  apply Nat.ltb_lt in Hk. now rewrite Hk in E.
Qed.

Lemma argsort_inv_l (p : list nat) i :
  Permutation p (seq 0 (length p)) -> i < length p ->
  exists k, nth_error p i = Some k /\ nth_error (argsort Nat.leb p) k = Some i.
Proof.
  intros Hp Hi.
  destruct (nth_error_in_range _ _ Hi) as [k Hk].
  exists k. split; [exact Hk|].
  assert (Hlt : k < length p).
  { apply nth_error_In in Hk. apply (Permutation_in _ Hp) in Hk.
    apply in_seq in Hk. lia. }
  destruct (argsort_inv_r p k Hp Hlt) as (j & Hj & Hpj).
  assert (Hnd : NoDup p)
    by (apply (Permutation_NoDup (Permutation_sym Hp)), seq_NoDup).
  rewrite NoDup_nth_error in Hnd.
  rewrite (Hnd i j Hi) by congruence. exact Hj.
Qed.

(** ** Slices and sums *)

Lemma slice_stop_le k len : slice_stop k len <= len.
Proof. unfold slice_stop. destruct (k <? 0)%Z; lia. Qed.

Lemma slice_stop_nonneg k len :
  (0 <= k <= Z.of_nat len)%Z -> slice_stop k len = Z.to_nat k.
Proof.
  intros H. unfold slice_stop.
  destruct (Z.ltb_spec k 0); lia.
Qed.

Lemma ones_length n : length (ones n) = n.
Proof. apply repeat_length. Qed.

Lemma skipn_repeat {A} (a : A) n m : skipn m (repeat a n) = repeat a (n - m).
Proof.
  revert m. induction n as [|n IH]; intros [|m]; try reflexivity.
  cbn [repeat skipn Nat.sub]. apply IH.
Qed.

Lemma set_slice_to_ones k n :
  set_slice_to (ones n) k 0%Q
  = repeat 0%Q (slice_stop k n) ++ repeat 1%Q (n - slice_stop k n).
Proof.
  unfold set_slice_to. rewrite ones_length. f_equal.
  unfold ones. apply skipn_repeat.
Qed.

Lemma nth_error_set_slice_to_ones k n j :
  j < n ->
  nth_error (set_slice_to (ones n) k 0%Q) j
  = Some (if j <? slice_stop k n then 0%Q else 1%Q).
Proof.
  intros Hj. rewrite set_slice_to_ones.
  pose proof (slice_stop_le k n) as Hle.
  rewrite nth_error_app, repeat_length.
  destruct (Nat.ltb_spec j (slice_stop k n)).
  - now apply nth_error_repeat.
  - apply nth_error_repeat. lia.
Qed.

Lemma Qsum_app l l' : (Qsum (l ++ l') == Qsum l + Qsum l')%Q.
Proof.
  induction l as [|a l IH]; cbn [app Qsum fold_right].
  - now rewrite Qplus_0_l.
  - fold (Qsum (l ++ l')) (Qsum l). rewrite IH. apply Qplus_assoc.
Qed.

Lemma Qsum_repeat_0 n : (Qsum (repeat 0%Q n) == 0)%Q.
Proof.
  induction n as [|n IH]; [reflexivity|].
  cbn [repeat Qsum fold_right]. fold (Qsum (repeat 0%Q n)).
  rewrite IH. reflexivity.
Qed.

Lemma Qsum_repeat_1 n : (Qsum (repeat 1%Q n) == inject_Z (Z.of_nat n))%Q.
Proof.
  induction n as [|n IH]; [reflexivity|].
  cbn [repeat Qsum fold_right]. fold (Qsum (repeat 1%Q n)).
  rewrite IH, Nat2Z.inj_succ. unfold Z.succ. rewrite inject_Z_plus.
  apply Qplus_comm.
Qed.

Lemma Qsum_perm l l' : Permutation l l' -> (Qsum l == Qsum l')%Q.
Proof.
  induction 1 as [|a l l' _ IH|a b l|l l' l'' _ IH1 _ IH2].
  - reflexivity.
  - cbn [Qsum fold_right]. fold (Qsum l) (Qsum l'). now rewrite IH.
  - cbn [Qsum fold_right]. fold (Qsum l).
    rewrite !Qplus_assoc. now rewrite (Qplus_comm b a).
  - now rewrite IH1.
Qed.

Lemma pick_perm {A} (l : list A) ks :
  Permutation ks (seq 0 (length l)) -> Permutation (pick l ks) l.
Proof.
  intros H. rewrite <- (pick_all l) at 2.
  unfold pick. now apply Permutation_flat_map.
Qed.

Lemma argsort_inverse_l (p : list nat) :
  Permutation p (seq 0 (length p)) ->
  pick (argsort Nat.leb p) p = seq 0 (length p).
Proof.
  intros Hp. apply nth_error_ext. intros i.
  rewrite nth_error_pick.
  - rewrite nth_error_seq. destruct (Nat.ltb_spec i (length p)) as [Hi|Hi].
    + destruct (argsort_inv_l p i Hp Hi) as (k & -> & Hk). exact Hk.
    + apply nth_error_None in Hi. now rewrite Hi.
  - rewrite argsort_length. apply Forall_forall. intros k Hk.
    apply (Permutation_in _ Hp) in Hk. apply in_seq in Hk. lia.
Qed.

Lemma nth_error_map2 {A B C} (f : A -> B -> C) l l' i :
  nth_error (map2 f l l') i =
  match nth_error l i, nth_error l' i with
  | Some a, Some b => Some (f a b)
  | _, _ => None
  end.
Proof.
  revert l' i. induction l as [|a l IH]; intros [|b l'] [|i]; try reflexivity.
  - cbn [nth_error map2]. now destruct (nth_error l i).
  - cbn [map2 nth_error]. apply IH.
Qed.

(** ** Rounding to the nearest double *)

Lemma round_half_even_le n d N :
  (0 < d)%Z -> (n <= N * d)%Z -> (round_half_even n d <= N)%Z.
Proof.
  intros Hd Hn. unfold round_half_even.
  pose proof (Z.div_mod n d ltac:(lia)) as E.
  pose proof (Z.mod_pos_bound n d Hd) as Hr.
  destruct (Z.ltb_spec (2 * (n mod d)) d) as [H1|H1].
  - nia.
  - assert (n / d < N)%Z by nia.
    destruct (d <? 2 * (n mod d))%Z; [lia|]. destruct (Z.even (n / d)); lia.
Qed.

Lemma round_half_even_ge n d N :
  (0 < d)%Z -> (N * d <= n)%Z -> (N <= round_half_even n d)%Z.
Proof.
  intros Hd Hn. unfold round_half_even.
  pose proof (Z.div_mod n d ltac:(lia)) as E.
  pose proof (Z.mod_pos_bound n d Hd) as Hr.
  assert (N <= n / d)%Z by nia.
  destruct (2 * (n mod d) <? d)%Z; [lia|].
  destruct (d <? 2 * (n mod d))%Z; [lia|]. destruct (Z.even (n / d)); lia.
Qed.

Lemma round_half_even_scale g n d :
  (0 < g)%Z -> (0 < d)%Z ->
  round_half_even (g * n) (g * d) = round_half_even n d.
Proof.
  intros Hg Hd. unfold round_half_even.
  rewrite Z.div_mul_cancel_l by lia.
  rewrite Z.mul_mod_distr_l by lia.
  replace (2 * (g * (n mod d)) <? g * d)%Z with (2 * (n mod d) <? d)%Z.
  2:{ destruct (Z.ltb_spec (2 * (n mod d)) d), (Z.ltb_spec (2 * (g * (n mod d))) (g * d));
      try reflexivity; nia. }
  replace (g * d <? 2 * (g * (n mod d)))%Z with (d <? 2 * (n mod d))%Z.
  2:{ destruct (Z.ltb_spec d (2 * (n mod d))), (Z.ltb_spec (g * d) (2 * (g * (n mod d))));
      try reflexivity; nia. }
  reflexivity.
Qed.

(** The rounding sees the value of the rational only. *)
Lemma round_double_scale (g : positive) n d :
  round_double (Zpos g * n # g * d) = round_double (n # d).
Proof.
  unfold round_double. cbn [Qnum Qden].
  remember (2 ^ 1074)%Z as E eqn:HE.
  assert (HE0 : (0 < E)%Z) by (subst E; now apply Z.pow_pos_nonneg).
  rewrite Pos2Z.inj_mul, Z.abs_mul. change (Z.abs (Z.pos g)) with (Z.pos g).
  rewrite <- !Z.mul_assoc.
  rewrite (Z.div_mul_cancel_l (Z.abs n * E) (Z.pos d) (Z.pos g)) by discriminate.
  set (t := Z.max 0 (Z.log2 (Z.abs n * E / Z.pos d) - 52)).
  assert (Ht : (0 < 2 ^ t)%Z) by (apply Z.pow_pos_nonneg; lia).
  rewrite round_half_even_scale by lia.
  set (m := round_half_even (Z.abs n * E) (Z.pos d * 2 ^ t)).
  replace (Z.pos g * n <? 0)%Z with (n <? 0)%Z.
  2:{ destruct (Z.ltb_spec n 0), (Z.ltb_spec (Z.pos g * n) 0); try reflexivity; nia. }
  replace (Z.sgn (Z.pos g * n)) with (Z.sgn n).
  2:{ rewrite Z.sgn_mul. change (Z.sgn (Z.pos g)) with 1%Z. lia. }
  reflexivity.
Qed.

Lemma Qred_scale q :
  exists g : positive,
    q = (Zpos g * Qnum (Qred q) # g * Qden (Qred q))%Q.
Proof.
  destruct q as [n d]. unfold Qred.
  pose proof (Z.ggcd_gcd n (Zpos d)) as Hg.
  pose proof (Z.ggcd_correct_divisors n (Zpos d)) as Hc.
  destruct (Z.ggcd n (Zpos d)) as [g [n0 d0]]. cbn [fst snd] in *.
  destruct Hc as [Hn Hd]. cbn [Qnum Qden].
  assert (Hg0 : (0 <= g)%Z) by (subst g; apply Z.gcd_nonneg).
  assert (Hgp : (0 < g)%Z).
  { destruct (Z.eq_dec g 0) as [E0|E0]; [|lia]. rewrite E0 in Hd. discriminate Hd. }
  assert (Hd0 : (0 < d0)%Z).
  { pose proof (Pos2Z.is_pos d) as Hp. rewrite Hd in Hp.
    destruct (Z.ltb_spec 0 d0) as [|Hneg]; [assumption|]. exfalso. nia. }
  exists (Z.to_pos g). rewrite Z2Pos.id by exact Hgp.
  f_equal; [exact Hn|].
  apply Pos2Z.inj. rewrite Pos2Z.inj_mul, !Z2Pos.id by assumption. exact Hd.
Qed.

Lemma round_double_Qred q : round_double (Qred q) = round_double q.
Proof.
  destruct (Qred_scale q) as [g Hg]. rewrite Hg at 2.
  destruct (Qred q) as [n0 d0]. cbn [Qnum Qden].
  symmetry. apply round_double_scale.
Qed.

Lemma round_double_comp q q' : (q == q')%Q -> round_double q = round_double q'.
Proof.
  intros H. rewrite <- (round_double_Qred q), <- (round_double_Qred q').
  now rewrite (Qred_complete _ _ H).
Qed.

(** ** Bounds on the rounded value *)

Lemma Qred_Qle_num z (E : Z) (B : Z) :
  (0 < E)%Z -> (z <= B * E)%Z -> (Qred (z # Z.to_pos E) <= inject_Z B)%Q.
Proof.
  intros HE H. rewrite Qred_correct. unfold Qle. cbn [Qnum Qden inject_Z].
  rewrite Z2Pos.id by exact HE. lia.
Qed.

Lemma Qred_Qge_num z (E : Z) (B : Z) :
  (0 < E)%Z -> (B * E <= z)%Z -> (inject_Z B <= Qred (z # Z.to_pos E))%Q.
Proof.
  intros HE H. rewrite Qred_correct. unfold Qle. cbn [Qnum Qden inject_Z].
  rewrite Z2Pos.id by exact HE. lia.
Qed.

(** A value between 0 and an integer below 2^53 rounds to a value between
    0 and that integer. *)
Lemma round_double_le_int q B :
  (0 <= B < 2 ^ 53)%Z -> (0 <= q)%Q -> (q <= inject_Z B)%Q ->
  exists v, round_double q = Finite v /\ (0 <= v)%Q /\ (v <= inject_Z B)%Q.
Proof.
  intros HB H0 H1. destruct q as [n d].
  unfold Qle in H0, H1. cbn [Qnum Qden inject_Z] in H0, H1.
  assert (Hn : (0 <= n)%Z) by lia.
  unfold round_double. cbn [Qnum Qden].
  rewrite (Z.abs_eq n Hn).
  remember (2 ^ 1074)%Z as E eqn:HE.
  assert (HE0 : (0 < E)%Z) by (subst E; now apply Z.pow_pos_nonneg).
  set (A := (n * E / Z.pos d)%Z).
  assert (HA0 : (0 <= A)%Z) by (apply Z.div_pos; nia).
  assert (HA1 : (A <= B * E)%Z).
  { apply Z.div_le_upper_bound; nia. }
  set (t := Z.max 0 (Z.log2 A - 52)).
  assert (Ht : (0 <= t <= 1074)%Z).
  { split; [apply Z.le_max_l|]. apply Z.max_lub; [lia|].
    destruct (Z.eq_dec A 0) as [EA|EA]; [rewrite EA; cbn; lia|].
    assert (Z.log2 A < 53 + 1074)%Z; [|lia].
    apply Z.log2_lt_pow2; [lia|].
    rewrite Z.pow_add_r by lia. rewrite <- HE. nia. }
  assert (Hsplit : E = (2 ^ (1074 - t) * 2 ^ t)%Z).
  { rewrite <- Z.pow_add_r by lia. subst E. f_equal. lia. }
  assert (H2t : (0 < 2 ^ t)%Z) by (apply Z.pow_pos_nonneg; lia).
  assert (H2u : (0 < 2 ^ (1074 - t))%Z) by (apply Z.pow_pos_nonneg; lia).
  set (m := round_half_even (n * E) (Z.pos d * 2 ^ t)).
  assert (Hm1 : (m <= B * 2 ^ (1074 - t))%Z).
  { apply round_half_even_le; [nia|]. rewrite Hsplit. nia. }
  assert (Hm0 : (0 <= m)%Z).
  { apply round_half_even_ge; [nia|]. nia. }
  destruct ((2045 <? t)%Z || ((t =? 2045)%Z && (m =? 2 ^ 53)%Z)) eqn:Eo.
  { exfalso. apply orb_true_iff in Eo as [Eo|Eo].
    - apply Z.ltb_lt in Eo. lia.
    - apply andb_true_iff in Eo as [Eo _]. apply Z.eqb_eq in Eo. lia. }
  eexists. split; [reflexivity|]. split.
  - change 0%Q with (inject_Z 0). apply Qred_Qge_num; [exact HE0|].
    pose proof (Z.sgn_nonneg n) as Hs. nia.
  - apply Qred_Qle_num; [exact HE0|].
    assert (Hs : (Z.sgn n = 0 \/ Z.sgn n = 1)%Z).
    { destruct (Z.eq_dec n 0) as [->|]; [now left|right; apply Z.sgn_pos; lia]. }
    replace (B * E)%Z with (B * 2 ^ (1074 - t) * 2 ^ t)%Z by (rewrite Hsplit; ring).
    destruct Hs as [-> | ->]; nia.
Qed.

(** A value above an integer below 2^53 rounds, when it does not overflow,
    to a value above that integer. *)
Lemma round_double_ge_int q B v :
  (0 <= B < 2 ^ 53)%Z -> (inject_Z B <= q)%Q ->
  round_double q = Finite v -> (inject_Z B <= v)%Q.
Proof.
  intros HB H1. destruct q as [n d].
  unfold Qle in H1. cbn [Qnum Qden inject_Z] in H1.
  assert (Hn : (0 <= n)%Z) by nia.
  unfold round_double. cbn [Qnum Qden].
  rewrite (Z.abs_eq n Hn).
  remember (2 ^ 1074)%Z as E eqn:HE.
  assert (HE0 : (0 < E)%Z) by (subst E; now apply Z.pow_pos_nonneg).
  set (A := (n * E / Z.pos d)%Z).
  assert (HA0 : (0 <= A)%Z) by (apply Z.div_pos; nia).
  assert (HAd : (A * Z.pos d <= n * E)%Z).
  { unfold A. rewrite Z.mul_comm. apply Z.mul_div_le. lia. }
  set (t := Z.max 0 (Z.log2 A - 52)).
  assert (Ht0 : (0 <= t)%Z) by apply Z.le_max_l.
  assert (H2t : (0 < 2 ^ t)%Z) by (apply Z.pow_pos_nonneg; lia).
  set (m := round_half_even (n * E) (Z.pos d * 2 ^ t)).
  assert (Hm0 : (0 <= m)%Z).
  { apply round_half_even_ge; [nia|]. nia. }
  destruct ((2045 <? t)%Z || ((t =? 2045)%Z && (m =? 2 ^ 53)%Z)); [discriminate|].
  intros Ev. inversion Ev as [Ev']. clear Ev Ev'.
  apply Qred_Qge_num; [exact HE0|].
  destruct (Z.eq_dec n 0) as [En|En].
  { subst n. replace B with 0%Z by nia. cbn. lia. }
  rewrite Z.sgn_pos by lia. rewrite Z.mul_1_l.
  destruct (Z.le_gt_cases t 1074) as [Hle|Hgt].
  - assert (Hsplit : E = (2 ^ (1074 - t) * 2 ^ t)%Z).
    { rewrite <- Z.pow_add_r by lia. subst E. f_equal. lia. }
    assert (H2u : (0 < 2 ^ (1074 - t))%Z) by (apply Z.pow_pos_nonneg; lia).
    assert (Hm1 : (B * 2 ^ (1074 - t) <= m)%Z).
    { apply round_half_even_ge; [nia|]. rewrite Hsplit. nia. }
    replace (B * E)%Z with (B * 2 ^ (1074 - t) * 2 ^ t)%Z by (rewrite Hsplit; ring).
    nia.
  - assert (HtA : t = (Z.log2 A - 52)%Z) by (unfold t; lia).
    assert (HApos : (0 < A)%Z).
    { destruct (Z.eq_dec A 0) as [EA|]; [|lia].
      rewrite EA in HtA. cbn in HtA. lia. }
    pose proof (Z.log2_spec A HApos) as [Hlo _].
    replace (Z.log2 A) with (52 + t)%Z in Hlo by lia.
    rewrite Z.pow_add_r in Hlo by lia.
    assert (Hm1 : (2 ^ 52 <= m)%Z).
    { apply round_half_even_ge; [nia|]. nia. }
    assert (Hsplit : (2 ^ t = 2 ^ (t - 1074) * E)%Z).
    { rewrite HE, <- Z.pow_add_r by lia. f_equal. lia. }
    assert (H2u : (2 <= 2 ^ (t - 1074))%Z).
    { change 2%Z with (2 ^ 1)%Z at 1. apply Z.pow_le_mono_r; lia. }
    rewrite Hsplit.
    assert (B < 2 ^ 52 * 2)%Z by (change (2 ^ 52 * 2)%Z with (2 ^ 53)%Z; lia).
    nia.
Qed.

(** Integers below 2^53 in absolute value are doubles. *)
Lemma round_double_int q z :
  (0 <= z < 2 ^ 53)%Z -> (q == inject_Z z)%Q ->
  exists v, round_double q = Finite v /\ (v == inject_Z z)%Q.
Proof.
  intros Hz Hq.
  destruct (round_double_le_int q z Hz) as (v & Ev & Hv0 & Hv1).
  - rewrite Hq. change 0%Q with (inject_Z 0). rewrite <- Zle_Qle. lia.
  - rewrite Hq. apply Qle_refl.
  - exists v. split; [exact Ev|]. apply Qle_antisym; [exact Hv1|].
    apply (round_double_ge_int q z v Hz); [rewrite Hq; apply Qle_refl | exact Ev].
Qed.

(** [int(L * (1 - mask_ratio))] for a ratio between 0 and 1. *)
Lemma keep_count_bounds L r :
  (Z.of_nat L < 2 ^ 53)%Z -> (0 <= r)%Q -> (r <= 1)%Q ->
  exists keep, keep_count L r = Ok keep /\ (0 <= keep <= Z.of_nat L)%Z.
Proof.
  intros HL H0 H1. unfold keep_count, float_of_int.
  destruct (round_double_int (inject_Z (Z.of_nat L)) (Z.of_nat L))
    as (l & El & Hl); [lia | reflexivity |].
  rewrite El. cbn [bind float_sub fl_sub].
  destruct (round_double_le_int (1 - r) 1) as (v1 & E1 & Hv0 & Hv1).
  - change (2 ^ 53)%Z with 9007199254740992%Z. lia.
  - unfold Qminus. rewrite <- Qle_minus_iff. exact H1.
  - change (inject_Z 1) with 1%Q. rewrite Qle_minus_iff. ring_simplify. exact H0.
  - rewrite E1. cbn [float_mul fl_mul].
    assert (HL0 : (0 <= inject_Z (Z.of_nat L))%Q).
    { change 0%Q with (inject_Z 0). rewrite <- Zle_Qle. lia. }
    destruct (round_double_le_int (l * v1) (Z.of_nat L)) as (v & Ev & Hv & Hv').
    + lia.
    + rewrite Hl. now apply Qmult_le_0_compat.
    + rewrite Hl. rewrite <- (Qmult_1_r (inject_Z (Z.of_nat L))) at 2.
      rewrite !(Qmult_comm (inject_Z (Z.of_nat L))).
      apply Qmult_le_compat_r; [exact Hv1 | exact HL0].
    + rewrite Ev. cbn [int_of_float]. eexists. split; [reflexivity|].
      unfold py_int. apply Qle_bool_iff in Hv as Hb. rewrite Hb. split.
      * rewrite <- (Qfloor_Z 0). now apply Qfloor_resp_le.
      * rewrite <- (Qfloor_Z (Z.of_nat L)) at 1. now apply Qfloor_resp_le.
Qed.

(** A product that is an integer below 2^53 is computed exactly. *)
Lemma keep_count_exact L r v1 z :
  (Z.of_nat L < 2 ^ 53)%Z -> (0 <= z < 2 ^ 53)%Z ->
  round_double (1 - r) = Finite v1 ->
  (inject_Z (Z.of_nat L) * v1 == inject_Z z)%Q ->
  keep_count L r = Ok z.
Proof.
  intros HL Hz E1 Hp. unfold keep_count, float_of_int.
  destruct (round_double_int (inject_Z (Z.of_nat L)) (Z.of_nat L))
    as (l & El & Hl); [lia | reflexivity |].
  rewrite El. cbn [bind float_sub fl_sub]. rewrite E1. cbn [float_mul fl_mul].
  destruct (round_double_int (l * v1) z Hz) as (v & Ev & Hv).
  - now rewrite Hl.
  - rewrite Ev. cbn [int_of_float]. f_equal.
    unfold py_int.
    assert (Hb : Qle_bool 0 v = true).
    { apply Qle_bool_iff. rewrite Hv. change 0%Q with (inject_Z 0).
      rewrite <- Zle_Qle. lia. }
    rewrite Hb, (Qfloor_comp _ _ Hv). apply Qfloor_Z.
Qed.

(** ** Random masking *)

Section RandomMaskingFacts.
Variable Key : Type.
Variable uniform : Key -> nat -> list Q.
Hypothesis uniform_shape : forall key n, length (uniform key n) = n.

Lemma shuffle_perm L key : Permutation (ids_shuffle uniform L key) (seq 0 L).
Proof.
  unfold ids_shuffle.
  rewrite <- (uniform_shape key L) at 2. apply argsort_perm.
Qed.

Lemma shuffle_length L key : length (ids_shuffle uniform L key) = L.
Proof.
  rewrite (Permutation_length (shuffle_perm L key)). apply length_seq.
Qed.

Lemma shuffle_perm' L key :
  Permutation (ids_shuffle uniform L key)
    (seq 0 (length (ids_shuffle uniform L key))).
Proof. rewrite shuffle_length. apply shuffle_perm. Qed.

Lemma restore_perm L key :
  Permutation (argsort Nat.leb (ids_shuffle uniform L key)) (seq 0 L).
Proof.
  rewrite <- (shuffle_length L key) at 2. apply argsort_perm.
Qed.

Lemma restore_lt L key :
  Forall (fun k => k < L) (argsort Nat.leb (ids_shuffle uniform L key)).
Proof.
  apply Forall_forall. intros k Hk.
  apply (Permutation_in _ (restore_perm L key)), in_seq in Hk. lia.
Qed.

Lemma shuffle_lt L key : Forall (fun k => k < L) (ids_shuffle uniform L key).
Proof.
  apply Forall_forall. intros k Hk.
  apply (Permutation_in _ (shuffle_perm L key)), in_seq in Hk. lia.
Qed.

(** Position [i] of the original order sits at rank [j] of the shuffle. *)
Lemma restore_rank L key i :
  i < L ->
  exists j,
    j < L /\
    nth_error (argsort Nat.leb (ids_shuffle uniform L key)) i = Some j /\
    nth_error (ids_shuffle uniform L key) j = Some i.
Proof.
  intros Hi.
  destruct (argsort_inv_r (ids_shuffle uniform L key) i (shuffle_perm' L key))
    as (j & Hj & Hs); [now rewrite shuffle_length|].
  exists j. repeat split; try assumption.
  apply nth_error_In in Hj.
  pose proof (restore_lt L key) as H. rewrite Forall_forall in H. auto.
Qed.

Lemma rank_in_slice L key i j st :
  st <= L ->
  nth_error (ids_shuffle uniform L key) j = Some i ->
  (In i (firstn st (ids_shuffle uniform L key)) <-> j < st).
Proof.
  intros Hst Hj. split.
  - intros Hin. apply In_nth_error in Hin as [j' Hj'].
    rewrite nth_error_firstn in Hj'.
    destruct (Nat.ltb_spec j' st) as [Hlt|]; [|discriminate].
    assert (Hnd : NoDup (ids_shuffle uniform L key))
      by (apply (Permutation_NoDup (Permutation_sym (shuffle_perm L key))),
          seq_NoDup).
    rewrite NoDup_nth_error in Hnd.
    rewrite <- (Hnd j' j); [assumption| |congruence].
    rewrite shuffle_length. lia.
  - intros Hlt. apply (nth_error_In _ j).
    rewrite nth_error_firstn. apply Nat.ltb_lt in Hlt. now rewrite Hlt.
Qed.

(** Entry [i] of the mask returned by [random_masking]. *)
Lemma random_mask_entry L key k i j :
  j < L ->
  nth_error (argsort Nat.leb (ids_shuffle uniform L key)) i = Some j ->
  nth_error
    (pick (set_slice_to (ones L) k 0%Q)
       (argsort Nat.leb (ids_shuffle uniform L key))) i
  = Some (if j <? slice_stop k L then 0%Q else 1%Q).
Proof.
  intros Hj Hi. rewrite nth_error_pick, Hi.
  - now apply nth_error_set_slice_to_ones.
  - rewrite set_slice_to_ones, length_app, !repeat_length.
    pose proof (slice_stop_le k L).
    replace (slice_stop k L + (L - slice_stop k L)) with L by lia.
    apply restore_lt.
Qed.
End RandomMaskingFacts.

Lemma length_set_slice_to_ones k n : length (set_slice_to (ones n) k 0%Q) = n.
Proof.
  rewrite set_slice_to_ones, length_app, !repeat_length.
  pose proof (slice_stop_le k n). lia.
Qed.

(** [random_masking] raises what the computation of [keep] raises and
    otherwise returns. *)
Lemma random_masking_keep
  (Key : Type) (uniform : Key -> nat -> list Q) {A} (x : list A)
  (mask_ratio : Q) (key : Key) :
  random_masking uniform x mask_ratio key
  = (keep <- keep_count (length x) mask_ratio ;;
     let shuffle := ids_shuffle uniform (length x) key in
     Ok (pick x (slice_to shuffle keep),
         pick (set_slice_to (ones (length x)) keep 0%Q) (argsort Nat.leb shuffle),
         argsort Nat.leb shuffle)).
Proof. reflexivity. Qed.

(** C4: when [keep = int(L*(1-mask_ratio))] can be computed,
    [random_masking] returns; [ids_restore] is the inverse permutation of
    the argsort shuffle of the noise (each composed with the other is the
    identity on 0..L-1), and the returned mask, in original patch order, is
    0 exactly at the kept indices [ids_shuffle[:keep]] and 1 elsewhere. *)
Theorem random_masking_restore_inverse
  (Key : Type) (uniform : Key -> nat -> list Q)
  (uniform_shape : forall key n, length (uniform key n) = n)
  {A} (x : list A) (mask_ratio : Q) (key : Key) (keep : Z) :
  let L := length x in
  let shuffle := ids_shuffle uniform L key in
  let ids_keep := slice_to shuffle keep in
  keep_count L mask_ratio = Ok keep ->
  exists mask ids_restore,
    random_masking uniform x mask_ratio key
    = Ok (pick x ids_keep, mask, ids_restore) /\
    Permutation shuffle (seq 0 L) /\
    pick ids_restore shuffle = seq 0 L /\
    pick shuffle ids_restore = seq 0 L /\
    length mask = L /\
    forall i, i < L ->
      (In i ids_keep -> nth_error mask i = Some 0%Q) /\
      (~ In i ids_keep -> nth_error mask i = Some 1%Q).
Proof.
  intros L shuffle ids_keep Hk.
  pose proof (shuffle_perm Key uniform uniform_shape L key) as Hperm.
  pose proof (shuffle_length Key uniform uniform_shape L key) as Hlen.
  pose proof (shuffle_perm' Key uniform uniform_shape L key) as Hperm'.
  fold shuffle in Hperm, Hlen, Hperm'.
  rewrite random_masking_keep. fold L. rewrite Hk. cbn [bind]. fold shuffle.
  eexists _, _. split; [reflexivity|].
  split; [exact Hperm|]. split; [|split; [|split]].
  - rewrite <- Hlen. now apply argsort_inverse_l.
  - rewrite <- Hlen. now apply argsort_sorts_perm.
  - rewrite length_pick.
    + rewrite argsort_length. exact Hlen.
    + rewrite length_set_slice_to_ones.
      apply (restore_lt Key uniform uniform_shape).
  - intros i Hi.
    destruct (restore_rank Key uniform uniform_shape L key i Hi)
      as (j & Hj & Hr & Hs).
    fold shuffle in Hr, Hs.
    pose proof (random_mask_entry Key uniform uniform_shape L key
                  keep i j Hj Hr) as Hm.
    fold shuffle in Hm.
    pose proof (rank_in_slice Key uniform uniform_shape L key i j
                  (slice_stop keep L)
                  (slice_stop_le _ _) Hs) as Hin.
    fold shuffle in Hin.
    unfold ids_keep, slice_to. rewrite Hlen, Hm.
    destruct (Nat.ltb_spec j (slice_stop keep L)) as [Hlt|Hge].
    + split; [reflexivity|]. intros Hn. exfalso. apply Hn, Hin, Hlt.
    + split; [|reflexivity]. intros Hy. apply Hin in Hy. lia.
Qed.

Lemma in_firstn {A} (l : list A) n a : In a (firstn n l) -> In a l.
Proof.
  intros H. rewrite <- (firstn_skipn n l). apply in_or_app. now left.
Qed.

Lemma pick_incl {A} (l : list A) ks v : In v (pick l ks) -> In v l.
Proof.
  unfold pick. rewrite in_flat_map. intros (k & _ & H).
  destruct (nth_error l k) eqn:E; [|destruct H].
  destruct H as [<-|[]]. eapply nth_error_In; eauto.
Qed.

(** The visible rows and the mask of [random_masking] for a given [keep]. *)
Lemma random_masking_counts
  (Key : Type) (uniform : Key -> nat -> list Q)
  (uniform_shape : forall key n, length (uniform key n) = n)
  {A} (x : list A) (key : Key) (keep : Z) :
  let L := length x in
  let shuffle := ids_shuffle uniform L key in
  let mask := pick (set_slice_to (ones L) keep 0%Q) (argsort Nat.leb shuffle) in
  length (pick x (slice_to shuffle keep)) = slice_stop keep L /\
  length mask = L /\
  Forall (fun m => m = 0%Q \/ m = 1%Q) mask /\
  Permutation mask (repeat 0%Q (slice_stop keep L)
                      ++ repeat 1%Q (L - slice_stop keep L)).
Proof.
  intros L shuffle mask.
  pose proof (shuffle_length Key uniform uniform_shape L key) as Hlen.
  fold shuffle in Hlen.
  pose proof (slice_stop_le keep L) as Hst.
  assert (Hperm : Permutation mask (set_slice_to (ones L) keep 0%Q)).
  { apply pick_perm. rewrite length_set_slice_to_ones.
    apply (restore_perm Key uniform uniform_shape). }
  split; [|split; [|split]].
  - rewrite length_pick.
    + unfold slice_to. rewrite Hlen. now apply firstn_length_le; lia.
    + apply Forall_forall. intros k Hin.
      unfold slice_to in Hin. apply in_firstn in Hin.
      pose proof (shuffle_lt Key uniform uniform_shape L key) as Hlt.
      rewrite Forall_forall in Hlt. now apply Hlt.
  - rewrite (Permutation_length Hperm). apply length_set_slice_to_ones.
  - apply Forall_forall. intros m Hm. apply pick_incl in Hm.
    rewrite set_slice_to_ones in Hm.
    apply in_app_or in Hm as [Hm|Hm]; apply repeat_spec in Hm; auto.
  - now rewrite <- set_slice_to_ones.
Qed.

(** C3: for a sequence of length L < 2^53 and a mask ratio in [0, 1],
    [keep = int(L * (1 - mask_ratio))], evaluated in double precision, lies
    between 0 and L; random masking returns exactly [keep] visible rows, and
    its mask is binary, of length L, with entries summing to L - keep. *)
Theorem random_masking_conservation
  (Key : Type) (uniform : Key -> nat -> list Q)
  (uniform_shape : forall key n, length (uniform key n) = n)
  {A} (x : list A) (mask_ratio : Q) (key : Key) :
  let L := length x in
  (Z.of_nat L < 2 ^ 53)%Z ->
  (0 <= mask_ratio)%Q -> (mask_ratio <= 1)%Q ->
  exists keep x_masked mask ids_restore,
    keep_count L mask_ratio = Ok keep /\
    (0 <= keep <= Z.of_nat L)%Z /\
    random_masking uniform x mask_ratio key = Ok (x_masked, mask, ids_restore) /\
    Z.of_nat (length x_masked) = keep /\
    length mask = L /\
    Forall (fun m => m = 0%Q \/ m = 1%Q) mask /\
    (Qsum mask == inject_Z (Z.of_nat L - keep))%Q.
Proof.
  intros L HL H0 H1.
  destruct (keep_count_bounds L mask_ratio HL H0 H1) as (keep & Ek & Hk).
  exists keep. rewrite random_masking_keep. fold L. rewrite Ek. cbn [bind].
  eexists _, _, _. split; [reflexivity|]. split; [exact Hk|].
  split; [reflexivity|].
  destruct (random_masking_counts Key uniform uniform_shape x key keep)
    as (Hx & Hm & Hb & Hp).
  fold L in Hx, Hm, Hb, Hp.
  assert (Est : slice_stop keep L = Z.to_nat keep)
    by now apply slice_stop_nonneg.
  split; [|split; [|split]].
  - rewrite Hx, Est. lia.
  - exact Hm.
  - exact Hb.
  - rewrite (Qsum_perm _ _ Hp), Qsum_app, Qsum_repeat_0, Qsum_repeat_1.
    rewrite Qplus_0_l, Est.
    replace (Z.of_nat (L - Z.to_nat keep)) with (Z.of_nat L - keep)%Z by lia.
    reflexivity.
Qed.

(** C3, where the count is not the floor of the exact product: for ten
    patches and the float 0.1 the code keeps 9 rows, although the exact
    product 10 * (1 - 0.1), with 0.1 the value of the float, is below 9; and
    for the float 0.9 it keeps none, although 10 * (1 - 9/10) = 1. *)
Lemma random_masking_keep_not_floor :
  let r1 := (3602879701896397 # 36028797018963968)%Q in
  let r9 := (8106479329266893 # 9007199254740992)%Q in
  (round_double (1 # 10) = Finite r1 /\
   keep_count 10 r1 = Ok 9%Z /\
   Qfloor (inject_Z 10 * (1 - r1)) = 8%Z /\
   exists x_masked mask ids_restore,
     random_masking table_uniform (seq 0 10) r1 sample_noise
     = Ok (x_masked, mask, ids_restore) /\
     length x_masked = 9 /\
     Z.of_nat (length x_masked) <> Qfloor (inject_Z 10 * (1 - r1))) /\
  (round_double (9 # 10) = Finite r9 /\
   keep_count 10 r9 = Ok 0%Z /\
   Qfloor (inject_Z 10 * (1 - (9 # 10))) = 1%Z /\
   exists x_masked mask ids_restore,
     random_masking table_uniform (seq 0 10) r9 sample_noise
     = Ok (x_masked, mask, ids_restore) /\
     length x_masked = 0 /\
     Z.of_nat (length x_masked) <> Qfloor (inject_Z 10 * (1 - (9 # 10)))).
Proof.
  intros r1 r9. split.
  - split; [vm_compute; reflexivity|]. split; [vm_compute; reflexivity|].
    split; [vm_compute; reflexivity|].
    eexists _, _, _. split; [vm_compute; reflexivity|].
    split; [reflexivity|]. vm_compute. discriminate.
  - split; [vm_compute; reflexivity|]. split; [vm_compute; reflexivity|].
    split; [vm_compute; reflexivity|].
    eexists _, _, _. split; [vm_compute; reflexivity|].
    split; [reflexivity|]. vm_compute. discriminate.
Qed.

Lemma table_uniform_shape key n : length (table_uniform key n) = n.
Proof. unfold table_uniform. now rewrite length_map, length_seq. Qed.

Lemma random_masking_conservation_witness :
  let r := (3602879701896397 # 36028797018963968)%Q in
  (forall key n, length (table_uniform key n) = n) /\
  (Z.of_nat (length (seq 0 10)) < 2 ^ 53)%Z /\
  (0 <= r)%Q /\ (r <= 1)%Q /\
  (exists keep x_masked mask ids_restore,
    keep_count (length (seq 0 10)) r = Ok keep /\
    (0 <= keep <= Z.of_nat (length (seq 0 10)))%Z /\
    random_masking table_uniform (seq 0 10) r sample_noise
    = Ok (x_masked, mask, ids_restore) /\
    Z.of_nat (length x_masked) = keep /\
    length mask = length (seq 0 10) /\
    Forall (fun m => m = 0%Q \/ m = 1%Q) mask /\
    (Qsum mask == inject_Z (Z.of_nat (length (seq 0 10)) - keep))%Q) /\
  round_double (1 # 10) = Finite r /\
  keep_count 10 r = Ok 9%Z /\
  random_masking table_uniform (seq 0 10) r sample_noise
  = Ok ([2; 3; 1; 0; 4; 5; 6; 7; 8], [0; 0; 0; 0; 0; 0; 0; 0; 0; 1]%Q,
        [3; 2; 0; 1; 4; 5; 6; 7; 8; 9]).
Proof.
  intros r.
  split; [exact table_uniform_shape|].
  split; [reflexivity|]. split; [discriminate|]. split; [discriminate|].
  split; [|split; [|split]]; try (vm_compute; reflexivity).
  apply (random_masking_conservation (nat -> Q) table_uniform
           table_uniform_shape (seq 0 10) r sample_noise);
    [reflexivity | discriminate | discriminate].
Defined.

Lemma random_masking_restore_inverse_witness :
  (forall key n, length (table_uniform key n) = n) /\
  keep_count (length [10; 11; 12; 13]) (3 # 4) = Ok 1%Z /\
  exists mask ids_restore,
    random_masking table_uniform [10; 11; 12; 13] (3 # 4) sample_noise
    = Ok (pick [10; 11; 12; 13]
            (slice_to (ids_shuffle table_uniform 4 sample_noise) 1),
          mask, ids_restore) /\
    Permutation (ids_shuffle table_uniform 4 sample_noise) (seq 0 4) /\
    pick ids_restore (ids_shuffle table_uniform 4 sample_noise) = seq 0 4 /\
    pick (ids_shuffle table_uniform 4 sample_noise) ids_restore = seq 0 4 /\
    length mask = 4 /\
    forall i, i < 4 ->
      (In i (slice_to (ids_shuffle table_uniform 4 sample_noise) 1)
       -> nth_error mask i = Some 0%Q) /\
      (~ In i (slice_to (ids_shuffle table_uniform 4 sample_noise) 1)
       -> nth_error mask i = Some 1%Q).
Proof.
  split; [exact table_uniform_shape|].
  split; [vm_compute; reflexivity|].
  apply (random_masking_restore_inverse (nat -> Q) table_uniform
           table_uniform_shape [10; 11; 12; 13] (3 # 4) sample_noise 1).
  vm_compute. reflexivity.
Defined.

(** ** Restoring the patch order in the decoder *)

(** The sequence the decoder should see: patch [i] where it is visible,
    the mask token where it is hidden. *)
Lemma random_masking_unshuffle
  (Key : Type) (uniform : Key -> nat -> list Q)
  (uniform_shape : forall key n, length (uniform key n) = n)
  {A} (x : list A) (mask_ratio : Q) (key : Key) (cls tok : A) :
  forall x_masked mask ids_restore,
    random_masking uniform x mask_ratio key = Ok (x_masked, mask, ids_restore) ->
    decoder_unshuffle tok (with_cls cls x_masked) ids_restore
    = cls_in_order cls tok x mask.
Proof.
  intros x_masked mask ids_restore E. unfold cls_in_order.
  rewrite random_masking_keep in E.
  destruct (keep_count (length x) mask_ratio) as [k|]; [|discriminate].
  cbn [bind] in E. inversion E as [[Ex Em Er]]. clear E.
  set (L := length x) in *.
  set (s := ids_shuffle uniform L key) in *.
  set (r := argsort Nat.leb s) in *.
  set (st := slice_stop k L).
  pose proof (slice_stop_le k L) as Hst. fold st in Hst.
  pose proof (shuffle_length Key uniform uniform_shape L key) as Hlen.
  fold s in Hlen.
  assert (Hxm : length (pick x (slice_to s k)) = st).
  { rewrite length_pick.
    - unfold slice_to. rewrite Hlen. fold st. now apply firstn_length_le; lia.
    - apply Forall_forall. intros j Hin. unfold slice_to in Hin.
      apply in_firstn in Hin.
      pose proof (shuffle_lt Key uniform uniform_shape L key) as Hlt.
      rewrite Forall_forall in Hlt. now apply Hlt. }
  assert (Hr : length r = L).
  { unfold r. now rewrite argsort_length. }
  unfold decoder_unshuffle, with_cls. cbn [skipn firstn length app].
  f_equal. rewrite Hxm, Hr.
  replace (L + 1 - S st) with (L - st) by lia.
  assert (Hin : Forall (fun j => j < length (pick x (slice_to s k)
                                            ++ repeat tok (L - st))) r).
  { rewrite length_app, Hxm, repeat_length.
    replace (st + (L - st)) with L by lia.
    apply (restore_lt Key uniform uniform_shape). }
  apply nth_error_ext. intros i.
  rewrite nth_error_pick by exact Hin. rewrite nth_error_map2.
  destruct (Nat.ltb_spec i L) as [Hi|Hi].
  - destruct (restore_rank Key uniform uniform_shape L key i Hi)
      as (j & Hj & Hrj & Hsj).
    fold s in Hrj, Hsj. fold r in Hrj. rewrite Hrj.
    pose proof (random_mask_entry Key uniform uniform_shape L key k i j Hj Hrj)
      as Hm. fold s in Hm. fold r in Hm. rewrite Hm. fold st.
    destruct (nth_error_in_range x i Hi) as [xi Hxi]. rewrite Hxi.
    rewrite nth_error_app, Hxm.
    destruct (Nat.ltb_spec j st) as [Hlt|Hge].
    + cbn [Qeq_bool]. rewrite nth_error_pick.
      * unfold slice_to. rewrite Hlen. fold st.
        rewrite nth_error_firstn. apply Nat.ltb_lt in Hlt. rewrite Hlt.
        now rewrite Hsj.
      * apply Forall_forall. intros j' Hin'. unfold slice_to in Hin'.
        apply in_firstn in Hin'.
        pose proof (shuffle_lt Key uniform uniform_shape L key) as Hlt'.
        rewrite Forall_forall in Hlt'. now apply Hlt'.
    + rewrite nth_error_repeat by lia. reflexivity.
  - assert (Hn : nth_error r i = None) by (apply nth_error_None; lia).
    rewrite Hn.
    assert (Hx : nth_error x i = None) by (apply nth_error_None; fold L; lia).
    now rewrite Hx.
Qed.

(** C2, the failing run: grid masking of a 4x4 grid (tokens 100..115, class
    token 99, mask token 0) at ratio 0.75.  The visible patches 100, 102,
    108, 110 come back at positions 0..3 of the patch sequence instead of
    their grid indices 0, 2, 8, 10. *)
Theorem grid_masking_unshuffle_misplaced :
  let x := map (fun i => 100 + i) (seq 0 16) in
  exists x_masked mask ids_restore,
    grid_masking x (3 # 4) tt = Ok (x_masked, mask, ids_restore) /\
    x_masked = [100; 102; 108; 110] /\
    ids_restore = seq 0 16 /\
    decoder_unshuffle 0 (with_cls 99 x_masked) ids_restore
    = [99; 100; 102; 108; 110; 0; 0; 0; 0; 0; 0; 0; 0; 0; 0; 0; 0] /\
    cls_in_order 99 0 x mask
    = [99; 100; 0; 102; 0; 0; 0; 0; 0; 108; 0; 110; 0; 0; 0; 0; 0] /\
    decoder_unshuffle 0 (with_cls 99 x_masked) ids_restore
    <> cls_in_order 99 0 x mask.
Proof.
  intros x. eexists _, _, _. split; [reflexivity|].
  split; [reflexivity|]. split; [reflexivity|].
  split; [reflexivity|]. split; [reflexivity|].
  discriminate.
Qed.

(** ** Scatter updates and the number of visible patches *)

Lemma set_at_length {A} (l : list A) i v : length (set_at l i v) = length l.
Proof.
  revert i. induction l as [|a l IH]; intros [|i]; cbn [set_at length];
    try reflexivity. now rewrite IH.
Qed.

Lemma scatter_set_length {A} (ids : list nat) : forall (l : list A) v,
  length (scatter_set l ids v) = length l.
Proof.
  induction ids as [|i ids IH]; intros l v; [reflexivity|].
  unfold scatter_set in *. cbn [fold_left]. rewrite IH. apply set_at_length.
Qed.

Lemma nth_error_set_at_other {A} (l : list A) i j v :
  j <> i -> nth_error (set_at l i v) j = nth_error l j.
Proof.
  revert i j. induction l as [|a l IH]; intros [|i] [|j] H;
    cbn [set_at nth_error]; try reflexivity; try contradiction.
  apply IH. lia.
Qed.

Lemma zeros_count_cons a l :
  zeros_count (a :: l) = (if Qeq_bool a 0 then 1 else 0) + zeros_count l.
Proof.
  unfold zeros_count. cbn [filter]. now destruct (Qeq_bool a 0).
Qed.

Lemma zeros_set_at l : forall i v,
  nth_error l i = Some v -> Qeq_bool v 0 = false ->
  zeros_count (set_at l i 0%Q) = S (zeros_count l).
Proof.
  induction l as [|a l IH]; intros [|i] v Hn Hv; try discriminate.
  - cbn [nth_error] in Hn. inversion Hn; subst. cbn [set_at].
    rewrite !zeros_count_cons, Hv. reflexivity.
  - cbn [nth_error] in Hn. cbn [set_at].
    rewrite !zeros_count_cons, (IH i v Hn Hv).
    destruct (Qeq_bool a 0); lia.
Qed.

Lemma zeros_scatter ids : forall l,
  NoDup ids ->
  (forall i, In i ids ->
     exists v, nth_error l i = Some v /\ Qeq_bool v 0 = false) ->
  zeros_count (scatter_set l ids 0%Q) = zeros_count l + length ids.
Proof.
  induction ids as [|i ids IH]; intros l Hnd H.
  - unfold scatter_set. cbn [fold_left length]. lia.
  - inversion Hnd as [|? ? Hni Hnd']; subst.
    change (scatter_set l (i :: ids) 0%Q)
      with (scatter_set (set_at l i 0%Q) ids 0%Q).
    rewrite IH; [|assumption|].
    + destruct (H i (or_introl eq_refl)) as (v & Hn & Hv).
      rewrite (zeros_set_at l i v Hn Hv). cbn [length]. lia.
    + intros j Hj. rewrite nth_error_set_at_other.
      * apply H. now right.
      * intros ->. contradiction.
Qed.

Lemma zeros_count_ones n : zeros_count (ones n) = 0.
Proof.
  induction n as [|n IH]; [reflexivity|].
  unfold ones in *. cbn [repeat]. now rewrite zeros_count_cons, IH.
Qed.

(** ** The kept indices of grid masking *)

Lemma range_stride2 a n :
  range a (a + n) 2 = map (fun i => a + i * 2) (seq 0 ((n + 1) / 2)).
Proof.
  unfold range. replace (a + n - a + (2 - 1)) with (n + 1) by lia.
  reflexivity.
Qed.

Lemma half_up_bound n i : i < (n + 1) / 2 -> i * 2 < n.
Proof.
  intros H. pose proof (Nat.div_mod_eq (n + 1) 2).
  pose proof (Nat.mod_upper_bound (n + 1) 2). lia.
Qed.

Lemma NoDup_flat_map_blocks {A B} (f : A -> list B) l :
  NoDup l ->
  (forall a, In a l -> NoDup (f a)) ->
  (forall a b x, In a l -> In b l -> In x (f a) -> In x (f b) -> a = b) ->
  NoDup (flat_map f l).
Proof.
  induction 1 as [|a l Hni Hnd IH]; intros Hf Hd; [constructor|].
  cbn [flat_map]. apply NoDup_app.
  - apply Hf. now left.
  - apply IH.
    + intros b Hb. apply Hf. now right.
    + intros b c x Hb Hc. apply Hd; now right.
  - intros x Hx Hx'. apply in_flat_map in Hx' as (b & Hb & Hxb).
    assert (a = b) by (apply (Hd a b x); auto; [now left | now right]).
    subst. contradiction.
Qed.

Lemma length_flat_map_const {A B} (f : A -> list B) l m :
  (forall a, In a l -> length (f a) = m) ->
  length (flat_map f l) = length l * m.
Proof.
  induction l as [|a l IH]; intros H; [reflexivity|].
  cbn [flat_map length]. rewrite length_app, IH, H.
  - lia.
  - now left.
  - intros b Hb. apply H. now right.
Qed.

(** The indices kept at ratio 0.75 on an [n] x [n] grid. *)
Lemma grid_keep_facts n :
  let ids_keep :=
    flat_map (fun row => range (row * n) ((row + 1) * n) 2) (range 0 n 2) in
  NoDup ids_keep /\
  Forall (fun i => i < n * n) ids_keep /\
  length ids_keep = (n + 1) / 2 * ((n + 1) / 2).
Proof.
  intros ids_keep. subst ids_keep.
  assert (Hrow : forall row,
             range (row * n) ((row + 1) * n) 2
             = map (fun i => row * n + i * 2) (seq 0 ((n + 1) / 2))).
  { intros row. replace ((row + 1) * n) with (row * n + n) by lia.
    apply range_stride2. }
  assert (Hrows : range 0 n 2 = map (fun t => t * 2) (seq 0 ((n + 1) / 2))).
  { change n with (0 + n) at 1. rewrite (range_stride2 0 n). reflexivity. }
  rewrite (flat_map_ext _ _ Hrow), Hrows. split; [|split].
  - apply NoDup_flat_map_blocks.
    + apply Finite.Injective_map_NoDup_in; [|apply seq_NoDup].
      intros; lia.
    + intros row _. apply Finite.Injective_map_NoDup_in; [|apply seq_NoDup].
      intros; lia.
    + intros a b x _ _ Ha Hb.
      apply in_map_iff in Ha as (i & <- & Hi).
      apply in_map_iff in Hb as (j & E & Hj).
      apply in_seq in Hi, Hj.
      assert (i * 2 < n) by (apply half_up_bound; lia).
      assert (j * 2 < n) by (apply half_up_bound; lia).
      nia.
  - apply Forall_forall. intros x Hx.
    apply in_flat_map in Hx as (row & Hr & Hx).
    apply in_map_iff in Hr as (t & <- & Ht).
    apply in_map_iff in Hx as (i & <- & Hi).
    apply in_seq in Ht, Hi.
    assert (t * 2 < n) by (apply half_up_bound; lia).
    assert (i * 2 < n) by (apply half_up_bound; lia).
    nia.
  - rewrite (length_flat_map_const _ _ ((n + 1) / 2)).
    + now rewrite length_map, length_seq.
    + intros a _. now rewrite length_map, length_seq.
Qed.

Lemma grid_stride_075 r :
  (r == 3 # 4)%Q -> Z.to_nat (py_int (1 / (1 - r))%Q / 2) = 2.
Proof.
  intros H.
  assert (E : (1 / (1 - r) == 4)%Q) by (rewrite H; reflexivity).
  unfold py_int. destruct (Qle_bool 0 (1 / (1 - r))).
  - now rewrite (Qfloor_comp _ _ E).
  - now rewrite (Qceiling_comp _ _ E).
Qed.

(** C5, counterexample: on an 8x8 grid at ratio 0.75 the mask has 16
    zeros (16 visible patches out of 64), not (8/2) * (8/4) = 8. *)
Lemma grid_masking_8x8_keeps_16 :
  exists x_masked mask ids_restore,
    grid_masking (seq 0 64) (3 # 4) tt = Ok (x_masked, mask, ids_restore) /\
    zeros_count mask = 16 /\
    length x_masked = 16 /\
    zeros_count mask <> 8 / 2 * (8 / 4).
Proof.
  eexists _, _, _. split; [reflexivity|].
  split; [reflexivity|]. split; [reflexivity|]. discriminate.
Qed.

(** C5, as amended: grid masking fails (with the assertion error) for
    every mask ratio other than 0.5 and 0.75; at ratio 0.75 on an n x n
    grid it keeps every other column of every other row, so the mask has
    exactly ceil(n/2) * ceil(n/2) zeros (16 of 64 on an 8x8 grid). *)
Theorem grid_masking_validity
  (Key : Type) {A} (x : list A) (mask_ratio : Q) (key : Key) (n : nat) :
  (~ (mask_ratio == 1 # 2)%Q -> ~ (mask_ratio == 3 # 4)%Q ->
   grid_masking x mask_ratio key = Raise AssertionError)
  /\
  ((mask_ratio == 3 # 4)%Q -> 0 < n -> length x = n * n ->
   exists x_masked mask ids_restore,
     grid_masking x mask_ratio key = Ok (x_masked, mask, ids_restore) /\
     length x_masked = (n + 1) / 2 * ((n + 1) / 2) /\
     length mask = n * n /\
     zeros_count mask = (n + 1) / 2 * ((n + 1) / 2)).
Proof.
  split.
  - intros H1 H2. unfold grid_masking.
    destruct (Qeq_bool mask_ratio (1 # 2)) eqn:E1;
      [apply Qeq_bool_eq in E1; contradiction|].
    destruct (Qeq_bool mask_ratio (3 # 4)) eqn:E2;
      [apply Qeq_bool_eq in E2; contradiction|].
    reflexivity.
  - intros Hr Hn Hx. unfold grid_masking.
    rewrite (Qeq_eq_bool _ _ Hr), orb_true_r.
    rewrite (grid_stride_075 _ Hr), Hx, Nat.sqrt_square.
    destruct (grid_keep_facts n) as (Hnd & Hlt & Hlen).
    cbv zeta in Hnd, Hlt, Hlen.
    set (ids_keep :=
           flat_map (fun row => range (row * n) ((row + 1) * n) 2)
             (range 0 n 2)) in *.
    eexists _, _, _. split; [reflexivity|].
    assert (Hmask : pick (scatter_set (ones (n * n)) ids_keep 0%Q) (seq 0 (n * n))
                    = scatter_set (ones (n * n)) ids_keep 0%Q).
    { rewrite <- (ones_length (n * n)) at 2.
      rewrite <- (scatter_set_length ids_keep (ones (n * n)) 0%Q).
      apply pick_all. }
    rewrite Hmask. split; [|split].
    + rewrite length_pick; [exact Hlen|]. now rewrite Hx.
    + now rewrite scatter_set_length, ones_length.
    + rewrite zeros_scatter, zeros_count_ones; [exact Hlen|exact Hnd|].
      intros i Hi. rewrite Forall_forall in Hlt. specialize (Hlt i Hi).
      exists 1%Q. split; [|reflexivity].
      unfold ones. now apply nth_error_repeat.
Qed.

Lemma grid_masking_validity_witness :
  (~ (6 # 10 == 1 # 2)%Q /\ ~ (6 # 10 == 3 # 4)%Q /\
   grid_masking (seq 0 64) (6 # 10) tt = Raise AssertionError) /\
  ((3 # 4 == 3 # 4)%Q /\ 0 < 8 /\ length (seq 0 64) = 8 * 8) /\
  exists x_masked mask ids_restore,
    grid_masking (seq 0 64) (3 # 4) tt = Ok (x_masked, mask, ids_restore) /\
    length x_masked = (8 + 1) / 2 * ((8 + 1) / 2) /\
    length mask = 8 * 8 /\
    zeros_count mask = (8 + 1) / 2 * ((8 + 1) / 2).
Proof.
  split; [|split].
  - split; [discriminate | split; [discriminate|]].
    apply (proj1 (grid_masking_validity unit (seq 0 64) (6 # 10) tt 8));
      discriminate.
  - split; [reflexivity | split; [lia | reflexivity]].
  - apply (proj2 (grid_masking_validity unit (seq 0 64) (3 # 4) tt 8));
      [reflexivity | lia | reflexivity].
Defined.

(** ** Masked sums *)

Lemma Qsum_cons a l : Qsum (a :: l) = (a + Qsum l)%Q.
Proof. reflexivity. Qed.




(** ** Shapes of the batched arrays *)

Lemma length_map2 {A B C} (f : A -> B -> C) l : forall l',
  length l = length l' -> length (map2 f l l') = length l.
Proof.
  induction l as [|a l IH]; intros [|b l'] H; try discriminate; [reflexivity|].
  cbn [map2 length]. f_equal. apply IH. now inversion H.
Qed.

Lemma length_chunk {A} (d : list A) i n m :
  length d = n * m -> i < n -> length (firstn m (skipn (i * m) d)) = m.
Proof.
  intros Hd Hi. rewrite length_firstn, length_skipn, Hd. nia.
Qed.

Lemma unstack_spec {A} (t : ndarray A) n s :
  shape t = n :: s -> well_formed t ->
  length (unstack t) = n /\
  Forall (fun u => shape u = s /\ well_formed u) (unstack t).
Proof.
  intros Hs Hw. unfold unstack. rewrite Hs. split.
  - now rewrite length_map, length_seq.
  - apply Forall_forall. intros u Hu.
    apply in_map_iff in Hu as (i & <- & Hi). apply in_seq in Hi.
    split; [reflexivity|]. unfold well_formed in *. cbn [shape data].
    rewrite Hs, size_cons in Hw. apply (length_chunk _ _ n); [exact Hw | lia].
Qed.

Lemma rows_spec {A} (t : ndarray A) n m :
  shape t = [n; m] -> well_formed t ->
  length (rows t) = n /\ Forall (fun r => length r = m) (rows t).
Proof.
  intros Hs Hw. destruct (unstack_spec t n [m] Hs Hw) as [Hl Hf].
  unfold rows. rewrite length_map. split; [exact Hl|].
  apply Forall_forall. intros r Hr.
  apply in_map_iff in Hr as (u & <- & Hu).
  rewrite Forall_forall in Hf. destruct (Hf u Hu) as [Hsu Hwu].
  unfold well_formed in Hwu. rewrite Hwu, Hsu. unfold size, fold_right. lia.
Qed.

Lemma vmap_spec {A B} (f : A -> result B) (P : A -> Prop) (R : B -> Prop) xs :
  (forall x, P x -> exists y, f x = Ok y /\ R y) ->
  Forall P xs ->
  exists ys, vmap f xs = Ok ys /\ length ys = length xs /\ Forall R ys.
Proof.
  intros H. induction 1 as [|x xs Hx _ (ys & E & Hl & Hr)].
  - exists []. repeat split. constructor.
  - destruct (H x Hx) as (y & Ey & Ry).
    exists (y :: ys). cbn [vmap]. rewrite Ey. cbn [bind]. rewrite E.
    cbn [bind length]. repeat split; [now rewrite Hl | now constructor].
Qed.


(** The targets of a batch of valid images, with a property of the pixels. *)
Lemma create_patches_batch_data (P : Q -> Prop) (x : list (ndarray Q)) n p :
  p <> 0 -> n mod p = 0 ->
  Forall (fun xi => shape xi = [3; n; n] /\ well_formed xi /\ Forall P (data xi)) x ->
  exists target,
    create_patches_batch x p = Ok target /\
    length target = length x /\
    Forall (fun t => shape t = [n / p * (n / p); p ^ 2 * 3] /\ well_formed t /\
                     Forall P (data t))
      target.
Proof.
  intros Hp Hm Hx. unfold create_patches_batch.
  apply (vmap_spec _ _ _ x) with (2 := Hx).
  intros xi (Hs & Hw & Hd).
  destruct (create_patches_image xi n p Hs Hw Hp Hm) as [Hc Hl].
  eexists. split; [exact Hc|]. split; [reflexivity|]. split.
  - unfold well_formed. cbn [shape data]. now apply length_patch_buffer.
  - cbn [data]. apply Forall_forall. intros v Hv.
    unfold patch_buffer in Hv. apply pick_incl in Hv.
    rewrite Forall_forall in Hd. now apply Hd.
Qed.

(** The batch array of samples of one shape. *)
Lemma stack_spec {A} (P : A -> Prop) (ts : list (ndarray A)) s :
  ts <> [] ->
  Forall (fun t => shape t = s /\ well_formed t /\ Forall P (data t)) ts ->
  shape (stack ts) = length ts :: s /\ well_formed (stack ts) /\
  Forall P (data (stack ts)).
Proof.
  intros Hne H. unfold stack, well_formed. cbn [shape data].
  split; [|split].
  - destruct ts as [|t ts]; [contradiction|].
    inversion H as [|? ? (Hs & _) _]; subst. reflexivity.
  - replace (match ts with | [] => [] | t :: _ => shape t end) with s.
    2:{ destruct ts as [|t ts]; [contradiction|].
        inversion H as [|? ? (Hs & _) _]; subst. reflexivity. }
    rewrite size_cons. clear Hne.
    induction H as [|t ts (Hs & Hw & _) _ IH]; [reflexivity|].
    cbn [map concat length]. rewrite length_app, IH, Hw, Hs. lia.
  - clear Hne. induction H as [|t ts (_ & _ & Hd) _ IH]; [constructor|].
    cbn [map concat]. apply Forall_app. now split.
Qed.

(** ** Element-wise operations on arrays of one shape *)

Lemma broadcast_rev_same l : broadcast_rev l l = Ok l.
Proof.
  induction l as [|a l IH]; [reflexivity|].
  cbn [broadcast_rev]. rewrite Nat.eqb_refl. cbn [orb]. now rewrite IH.
Qed.

Lemma broadcast_shapes_same s : broadcast_shapes s s = Ok s.
Proof.
  unfold broadcast_shapes. rewrite broadcast_rev_same. cbn [bind].
  now rewrite rev_involutive.
Qed.

Lemma length_unravel s : forall k, length (unravel s k) = length s.
Proof.
  induction s as [|n s IH]; intros k; [reflexivity|].
  cbn [unravel length]. now rewrite IH.
Qed.

Lemma bcast_index_unravel s k :
  k < size s -> bcast_index s (unravel s k) = unravel s k.
Proof.
  unfold bcast_index. rewrite length_unravel, Nat.sub_diag. cbn [skipn].
  revert k. induction s as [|n s IH]; intros k Hk; [reflexivity|].
  rewrite size_cons in Hk. cbn [unravel map2].
  assert (Hs : size s <> 0) by (intros E; rewrite E in Hk; lia).
  rewrite IH by now apply Nat.mod_upper_bound. f_equal.
  destruct (Nat.eqb_spec n 1) as [->|]; [|reflexivity].
  symmetry. apply Nat.div_small. lia.
Qed.

Lemma map_nth_map2 {A} (d : A) (f : A -> A -> A) la : forall lb,
  length la = length lb ->
  map (fun k => f (nth k la d) (nth k lb d)) (seq 0 (length la)) = map2 f la lb.
Proof.
  induction la as [|a la IH]; intros [|b lb] H; try discriminate; [reflexivity|].
  cbn [length seq map map2 nth]. f_equal.
  rewrite <- seq_shift, map_map. cbn [nth]. apply IH. now inversion H.
Qed.

(** On operands of one shape the operation acts entry by entry. *)
Lemma nd_map2_same {A} (d : A) (f : A -> A -> A) (a b : ndarray A) s :
  shape a = s -> shape b = s -> well_formed a -> well_formed b ->
  nd_map2 d f a b = Ok (mk_ndarray s (map2 f (data a) (data b))).
Proof.
  intros Ha Hb Hwa Hwb. unfold nd_map2.
  rewrite Ha, Hb, broadcast_shapes_same. cbn [bind]. do 2 f_equal.
  unfold well_formed in Hwa, Hwb. rewrite Ha in Hwa. rewrite Hb in Hwb.
  rewrite <- (map_nth_map2 d f) by congruence. rewrite Hwa.
  apply map_ext_in. intros k Hk. apply in_seq in Hk.
  unfold nd_get. rewrite Ha, Hb, bcast_index_unravel, ravel_unravel by lia.
  reflexivity.
Qed.

(** ** Rows of a buffer *)

Lemma length_chunks {A} m (d : list A) n : length (chunks m d n) = n.
Proof. unfold chunks. now rewrite length_map, length_seq. Qed.




Lemma chunks_full {A} m (d : list A) n :
  length d = n * m -> Forall (fun r => length r = m) (chunks m d n).
Proof.
  intros H. apply Forall_forall. intros r Hr.
  apply in_map_iff in Hr as (i & <- & Hi). apply in_seq in Hi.
  apply (length_chunk _ _ n); [exact H | lia].
Qed.


Lemma length_concat_rows {A} (ls : list (list A)) m :
  Forall (fun r => length r = m) ls -> length (concat ls) = length ls * m.
Proof.
  induction 1 as [|r ls Hr _ IH]; [reflexivity|].
  cbn [concat length]. rewrite length_app, IH, Hr. lia.
Qed.

(** ** float32 arithmetic within range *)

Lemma f32_exact q : (- f32_max <= q)%Q -> (q <= f32_max)%Q -> f32 q = Finite q.
Proof.
  intros H1 H2. unfold f32.
  apply Qle_bool_iff in H1, H2. now rewrite H1, H2.
Qed.

Lemma f32_max_pos : (0 < f32_max)%Q.
Proof. reflexivity. Qed.

Lemma inject_nat_nonneg n : (0 <= inject_Z (Z.of_nat n))%Q.
Proof. change 0%Q with (inject_Z 0). rewrite <- Zle_Qle. lia. Qed.

Lemma inject_nat_succ n :
  (inject_Z (Z.of_nat (S n)) == inject_Z (Z.of_nat n) + 1)%Q.
Proof. rewrite Nat2Z.inj_succ. unfold Z.succ. now rewrite inject_Z_plus. Qed.


(** A sum of non-negative terms that stays within range is exact. *)
Lemma f32_sum_exact c l :
  Forall (fun v => 0 <= v /\ v <= c)%Q l ->
  (inject_Z (Z.of_nat (length l)) * c <= f32_max)%Q ->
  f32_sum (map Finite l) = Finite (Qsum l) /\
  (0 <= Qsum l)%Q /\ (Qsum l <= inject_Z (Z.of_nat (length l)) * c)%Q.
Proof.
  induction 1 as [|a l [Ha0 Ha1] _ IH]; intros Hc.
  - cbn. split; [reflexivity|]. split; [apply Qle_refl|].
    rewrite Qmult_0_l. apply Qle_refl.
  - cbn [length] in Hc. rewrite inject_nat_succ in Hc.
    pose proof (inject_nat_nonneg (length l)) as Hn.
    assert (Hc0 : (0 <= c)%Q) by lra.
    assert (Hnc : (0 <= inject_Z (Z.of_nat (length l)) * c)%Q)
      by now apply Qmult_le_0_compat.
    destruct IH as (E & H0 & H1); [lra|].
    cbn [map f32_sum fold_right]. fold (f32_sum (map Finite l)). rewrite E.
    cbn [f32_add fl_add]. rewrite Qsum_cons.
    pose proof f32_max_pos as Hm.
    cbn [length]. rewrite inject_nat_succ.
    split; [|split]; [apply f32_exact| |]; lra.
Qed.





(** ** The reconstruction loss within the float32 range *)



Lemma well_formed_lift (t : ndarray Q) : well_formed t -> well_formed (lift t).
Proof. unfold well_formed, lift. cbn [shape data]. now rewrite length_map. Qed.



(** ** Reconstruction losses *)



(** Why the entries are bounded: a visible patch predicted at 10^20 has a
    squared difference beyond the float32 range; its per-patch loss is an
    infinity, the product with its mask entry 0 is NaN, and so is the loss,
    although the three hidden patches have the finite mean loss 181/3. *)
Lemma mae_loss_visible_overflow :
  let big := inject_Z (10 ^ 20) in
  let y := mk_ndarray [1; 4; 3] ([big; big; big] ++ repeat 0%Q 9) in
  let mask := mk_ndarray [1; 4] [0; 1; 1; 1]%Q in
  let model :=
    {| patch_size := 1;
       apply := fun (_ : unit) _ _ _ (_ _ _ : unit) => (y, mask) |} in
  let t := [1; 5; 9; 2; 6; 10; 3; 7; 11; 4; 8; 12]%Q in
  let loss := map (per_patch_mse 3 (data y) t) (seq 0 4) in
  create_patches_batch [demo_image] 1 = Ok [mk_ndarray [4; 3] t] /\
  (mean (hidden_row loss (data mask)) == 181 # 3)%Q /\
  mae_loss demo_split model tt [demo_image] true (3 # 4) tt = Ok (NaN, tt).
Proof.
  intros big y mask model t loss.
  split; [reflexivity|]. split; vm_compute; reflexivity.
Qed.

(** ** An all-zero mask *)

Lemma f32_zero z : (z == 0)%Q -> f32 z = Finite z.
Proof.
  intros H. pose proof f32_max_pos. apply f32_exact; rewrite H; lra.
Qed.

Lemma f32_mul_zero v m : (m == 0)%Q -> zero_or_nan (f32_mul v (Finite m)).
Proof.
  intros Hm. destruct v as [a|s|]; cbn [f32_mul fl_mul].
  - right. exists (a * m)%Q. split; [|rewrite Hm; ring].
    apply f32_zero. rewrite Hm. ring.
  - left. now rewrite (Qeq_eq_bool _ _ Hm).
  - now left.
Qed.

Lemma f32_add_zero_or_nan u v :
  zero_or_nan u -> zero_or_nan v -> zero_or_nan (f32_add u v).
Proof.
  intros [->|(a & -> & Ha)] [->|(b & -> & Hb)]; cbn [f32_add fl_add];
    try (now left).
  right. exists (a + b)%Q. split; [|rewrite Ha, Hb; ring].
  apply f32_zero. rewrite Ha, Hb. ring.
Qed.

Lemma f32_sum_zero_or_nan l : Forall zero_or_nan l -> zero_or_nan (f32_sum l).
Proof.
  induction 1 as [|v l Hv _ IH].
  - right. exists 0%Q. split; reflexivity.
  - cbn [f32_sum fold_right]. now apply f32_add_zero_or_nan.
Qed.

Lemma masked_zero_or_nan loss : forall m,
  Forall (fun v => v == 0)%Q m ->
  Forall zero_or_nan (map2 f32_mul loss (map Finite m)).
Proof.
  induction loss as [|v loss IH]; intros [|b m] H; cbn [map map2];
    try constructor.
  - apply f32_mul_zero. now inversion H.
  - apply IH. now inversion H.
Qed.

Lemma f32_div_zero_mask u v :
  zero_or_nan u -> (exists z, v = Finite z /\ (z == 0)%Q) -> f32_div u v = NaN.
Proof.
  intros [->|(a & -> & Ha)] (b & -> & Hb); cbn [f32_div fl_div]; [reflexivity|].
  now rewrite (Qeq_eq_bool _ _ Hb), (Qeq_eq_bool _ _ Ha).
Qed.

(** The last two lines of both reconstruction losses, on arrays of the
    expected shapes and a mask that is zero everywhere: whatever the
    prediction and the target hold, the quotient is 0/0 or has a NaN
    numerator. *)
Lemma masked_mse_zero_mask {Key : Type} (y t : ndarray xfloat) (mask : ndarray Q)
  N L D (key : Key) :
  shape y = [N; L; D] -> well_formed y ->
  shape t = [N; L; D] -> well_formed t ->
  shape mask = [N; L] -> well_formed mask ->
  Forall (fun v => v == 0)%Q (data mask) ->
  (diff <- nd_map2 NaN f32_sub y t ;;
   let square := mk_ndarray (shape diff) (map (fun v => f32_mul v v) (data diff)) in
   loss <- mean_last square ;;
   masked <- nd_map2 NaN f32_mul loss (lift mask) ;;
   let loss := f32_div (f32_sum (data masked)) (f32_sum (data (lift mask))) in
   Ok (loss, key))
  = Ok (NaN, key).
Proof.
  intros Hys Hyw Hts Htw Hms Hmw Hz.
  rewrite (nd_map2_same NaN f32_sub y t [N; L; D] Hys Hts Hyw Htw).
  cbn [bind shape data]. unfold mean_last. cbn [shape rev app data bind].
  rewrite (nd_map2_same NaN f32_mul _ (lift mask) [N; L]);
    [|reflexivity | exact Hms
     | unfold well_formed; cbn [shape data];
       now rewrite length_map, length_chunks
     | now apply well_formed_lift].
  cbn [bind shape data lift]. do 2 f_equal.
  apply f32_div_zero_mask.
  - apply f32_sum_zero_or_nan. now apply masked_zero_or_nan.
  - assert (Hb : Forall (fun v => 0 <= v /\ v <= 0)%Q (data mask)).
    { revert Hz. apply Forall_impl. intros v E. rewrite E. split; apply Qle_refl. }
    pose proof f32_max_pos.
    destruct (f32_sum_exact 0 (data mask) Hb) as (E & H0 & H1); [lra|].
    eexists. split; [exact E|]. lra.
Qed.

Lemma length_normalize fsqrt D r : length (normalize fsqrt D r) = length r.
Proof. unfold normalize. apply length_map. Qed.

Lemma normalize_last_spec fsqrt (t : ndarray xfloat) N L D :
  shape t = [N; L; D] -> well_formed t ->
  exists t', normalize_last fsqrt t = Ok t' /\ shape t' = [N; L; D] /\
             well_formed t'.
Proof.
  intros Hs Hw. unfold normalize_last. rewrite Hs. cbn [rev app].
  eexists. split; [reflexivity|]. split; [reflexivity|].
  unfold well_formed in *. cbn [shape data]. rewrite Hs in Hw.
  assert (Hsz : size [N; L; D] = size [N; L] * D) by (unfold size, fold_right; lia).
  rewrite (length_concat_rows _ D).
  - now rewrite length_map, length_chunks.
  - apply Forall_forall. intros r Hr. apply in_map_iff in Hr as (r' & <- & Hr').
    rewrite length_normalize.
    pose proof (chunks_full D (data t) (size [N; L])) as Hf.
    rewrite Forall_forall in Hf. apply Hf; [congruence | exact Hr'].
Qed.

Lemma Forall_eq_repeat' {A} (a : A) l : Forall (fun v => v = a) l -> l = repeat a (length l).
Proof.
  induction 1 as [|v l -> _ IH]; [reflexivity|]. cbn [length repeat]. now f_equal.
Qed.

(** At mask ratio 0 random masking keeps every patch: the mask is zero
    everywhere. *)
Lemma random_masking_ratio_0
  (Key : Type) (uniform : Key -> nat -> list Q)
  (uniform_shape : forall key n, length (uniform key n) = n)
  {A} (x : list A) (key : Key) :
  (Z.of_nat (length x) < 2 ^ 53)%Z ->
  exists x_masked ids_restore,
    random_masking uniform x 0 key
    = Ok (x_masked, repeat 0%Q (length x), ids_restore) /\
    length x_masked = length x.
Proof.
  intros HL.
  assert (Ek : keep_count (length x) 0 = Ok (Z.of_nat (length x))).
  { apply (keep_count_exact _ _ 1%Q); [exact HL | lia | vm_compute; reflexivity |].
    ring. }
  rewrite random_masking_keep, Ek. cbn [bind].
  destruct (random_masking_counts Key uniform uniform_shape x key
              (Z.of_nat (length x))) as (Hx & Hm & Hb & Hp).
  rewrite slice_stop_nonneg, Nat2Z.id in Hx, Hp by lia.
  rewrite Nat.sub_diag in Hp. cbn [repeat] in Hp. rewrite app_nil_r in Hp.
  assert (Em : pick (set_slice_to (ones (length x)) (Z.of_nat (length x)) 0%Q)
                 (argsort Nat.leb (ids_shuffle uniform (length x) key))
               = repeat 0%Q (length x)).
  { set (m := pick _ (argsort Nat.leb _)) in *.
    rewrite <- Hm. apply Forall_eq_repeat'.
    apply Forall_forall. intros v Hv.
    apply (Permutation_in _ Hp) in Hv. now apply repeat_spec in Hv. }
  rewrite Em. eexists _, _. split; [reflexivity | exact Hx].
Qed.

(** C10: neither reconstruction loss guards the division by sum(mask).
    On a batch of valid images, with model outputs of the expected shapes
    and a mask that is zero everywhere, both return normally and the loss is
    NaN (the quotient 0/0, or a NaN numerator where a squared difference
    overflowed); random masking at mask ratio 0 keeps all L < 2^53 patches
    and returns such a mask, L zeros. *)
Theorem reconstruction_loss_zero_mask_nan :
  (forall (Key Params : Type) (split : Key -> Key * Key * Key * Key)
          (fsqrt : Q -> Q) (model : mae_model Key Params) (params : Params)
          (x : list (ndarray Q)) (train : bool) (mask_ratio : Q) (key : Key)
          (n : nat) (key' dropout_rng drop_path_rng masked_rng : Key)
          (y mask : ndarray Q),
      let p := patch_size model in
      let N := length x in
      let L := n / p * (n / p) in
      let D := p ^ 2 * 3 in
      split key = (key', dropout_rng, drop_path_rng, masked_rng) ->
      apply model params x train mask_ratio masked_rng dropout_rng drop_path_rng
      = (y, mask) ->
      p <> 0 -> n mod p = 0 -> x <> [] ->
      Forall (fun xi => shape xi = [3; n; n] /\ well_formed xi) x ->
      shape y = [N; L; D] -> well_formed y ->
      shape mask = [N; L] -> well_formed mask ->
      Forall (fun v => v == 0)%Q (data mask) ->
      mae_loss split model params x train mask_ratio key = Ok (NaN, key') /\
      mae_norm_pix_loss split fsqrt model params x train mask_ratio key
      = Ok (NaN, key'))
  /\
  (forall (Key : Type) (uniform : Key -> nat -> list Q) (A : Type)
          (x : list A) (key : Key),
      (forall key n, length (uniform key n) = n) ->
      (Z.of_nat (length x) < 2 ^ 53)%Z ->
      exists x_masked ids_restore,
        random_masking uniform x 0 key
        = Ok (x_masked, repeat 0%Q (length x), ids_restore) /\
        length x_masked = length x).
Proof.
  split.
  - intros Key Params split fsqrt model params x train mask_ratio key n
      key' dk dpk mk y mask p N L D Hsplit Happly Hp Hm Hne Hx Hys Hyw Hms Hmw Hz.
    assert (Hx' : Forall (fun xi => shape xi = [3; n; n] /\ well_formed xi /\
                                    Forall (fun _ => True) (data xi)) x).
    { revert Hx. apply Forall_impl. intros xi [H1 H2]. repeat split; try assumption.
      apply Forall_forall. trivial. }
    destruct (create_patches_batch_data (fun _ => True) x n p Hp Hm Hx')
      as (target & Ht & Hl & Hf).
    fold L D in Hf.
    assert (Htne : target <> []).
    { intros E. subst target. destruct x; [now apply Hne | discriminate Hl]. }
    destruct (stack_spec (fun _ => True) target [L; D] Htne Hf) as (Hss & Hsw & _).
    rewrite Hl in Hss. fold N in Hss.
    split.
    + unfold mae_loss. rewrite Hsplit. fold p. rewrite Ht. cbn [bind].
      rewrite Happly.
      apply (masked_mse_zero_mask (lift y) (lift (stack target)) mask N L D);
        try assumption; now apply well_formed_lift.
    + unfold mae_norm_pix_loss. rewrite Hsplit. fold p. rewrite Ht. cbn [bind].
      destruct (normalize_last_spec fsqrt (lift (stack target)) N L D)
        as (t' & Et & Hts & Htw); [exact Hss | now apply well_formed_lift |].
      rewrite Et. cbn [bind]. rewrite Happly.
      apply (masked_mse_zero_mask (lift y) t' mask N L D);
        try assumption; now apply well_formed_lift.
  - intros Key uniform A x key Hu HL.
    now apply random_masking_ratio_0.
Qed.

Lemma reconstruction_loss_zero_mask_nan_witness :
  let y := mk_ndarray [1; 4; 3] (repeat 0%Q 12) in
  let mask := mk_ndarray [1; 4] [0; 0; 0; 0]%Q in
  let model := demo_net [0; 0; 0; 0]%Q in
  let x := [demo_image] in
  (demo_split tt = (tt, tt, tt, tt) /\
   apply model tt x true 0%Q tt tt tt = (y, mask) /\
   1 <> 0 /\ 2 mod 1 = 0 /\ x <> [] /\
   Forall (fun xi => shape xi = [3; 2; 2] /\ well_formed xi) x /\
   shape y = [length x; 2 / 1 * (2 / 1); 1 ^ 2 * 3] /\ well_formed y /\
   shape mask = [length x; 2 / 1 * (2 / 1)] /\ well_formed mask /\
   Forall (fun v => v == 0)%Q (data mask)) /\
  mae_loss demo_split model tt x true 0%Q tt = Ok (NaN, tt) /\
  mae_norm_pix_loss demo_split (fun q => q) model tt x true 0%Q tt
  = Ok (NaN, tt).
Proof.
  intros y mask model x.
  assert (Hx : Forall (fun xi => shape xi = [3; 2; 2] /\ well_formed xi) x)
    by (repeat constructor).
  assert (Hz : Forall (fun v => v == 0)%Q (data mask))
    by (cbn; repeat (apply Forall_cons; [reflexivity|]); apply Forall_nil).
  split.
  - split; [reflexivity|]. split; [reflexivity|]. split; [discriminate|].
    split; [reflexivity|]. split; [discriminate|]. split; [exact Hx|].
    split; [reflexivity|]. split; [reflexivity|]. split; [reflexivity|].
    split; [reflexivity | exact Hz].
  - apply (proj1 reconstruction_loss_zero_mask_nan unit unit demo_split
             (fun q => q) model tt x true 0%Q tt 2 tt tt tt tt y mask);
      [reflexivity | reflexivity | discriminate | reflexivity | discriminate
      | exact Hx | reflexivity | reflexivity | reflexivity | reflexivity
      | exact Hz].
Defined.

(** ** Classification accuracy *)

(** C8, the failing run: one sample, three classes, logits (1, 0, 0) and
    label (0, 1, 0).  The prediction is class 0, the label class 1: no
    sample matches, the exact-match rate is 0, but the returned accuracy is
    1/3, the share of equal entries of the two one-hot vectors. *)
Theorem mae_cls_loss_accuracy_elementwise
  (Key Params : Type) (split : Key -> Key * Key * Key * Key)
  (softmax_cross_entropy : list Q -> list Q -> Q)
  (params : Params) (imgs : list (ndarray Q)) (train : bool) (mask_ratio : Q)
  (key : Key) :
  let logits := mk_ndarray [1; 3] [1 # 1; 0 # 1; 0 # 1]%Q in
  let labels := mk_ndarray [1; 3] [0 # 1; 1 # 1; 0 # 1]%Q in
  let model := {| apply_cls := fun (_ : Params) _ _ _ (_ _ _ : Key) => logits |} in
  exists loss key',
    mae_cls_loss split softmax_cross_entropy model params (imgs, labels)
      train mask_ratio key
    = Ok (loss, Finite (1 # 3), key') /\
    vmap argmax (rows logits) = Ok [0] /\
    exact_match_rate [one_hot 0 3] (rows labels) = Finite 0 /\
    Finite (1 # 3) <> exact_match_rate [one_hot 0 3] (rows labels).
Proof.
  intros logits labels model.
  unfold mae_cls_loss. destruct (split key) as [[[key' dk] dpk] mk].
  eexists _, key'. split; [|split; [|split]].
  - cbn [apply_cls model]. reflexivity.
  - reflexivity.
  - reflexivity.
  - discriminate.
Qed.

(** ** The supervised contrastive stub *)

Lemma broadcast_rev_cases s1 : forall s2,
  (exists s, broadcast_rev s1 s2 = Ok s) \/ broadcast_rev s1 s2 = Raise TypeError.
Proof.
  induction s1 as [|a s1 IH]; intros [|b s2]; cbn [broadcast_rev]; eauto.
  destruct (IH s2) as [[s E]|E]; rewrite E; cbn [bind];
    destruct ((a =? b) || (b =? 1)); eauto; destruct (a =? 1); eauto.
Qed.

(** C9, counterexample: on a batch of one single-patch image the function
    returns Python's [None]; it does not fail. *)
Lemma mae_supervised_contrastive_loss_single_patch :
  mae_supervised_contrastive_loss demo_split (demo_model [1 # 1]%Q) tt
    (demo_batch, mk_ndarray [1; 3] [0 # 1; 1 # 1; 0 # 1]%Q) true (3 # 4)%Q tt
  = Ok None /\
  ~ (exists e,
        mae_supervised_contrastive_loss demo_split (demo_model [1 # 1]%Q) tt
          (demo_batch, mk_ndarray [1; 3] [0 # 1; 1 # 1; 0 # 1]%Q) true (3 # 4)%Q tt
        = Raise e).
Proof.
  split; [reflexivity|]. intros [e H]. discriminate H.
Qed.

(** C9, as amended: whenever the product [features * (1 - mask)] can be
    formed, the function returns Python's [None]: no loss value, no advanced
    key, and no failure. *)
Theorem mae_supervised_contrastive_loss_stub
  (Key Params : Type) (split : Key -> Key * Key * Key * Key)
  (model : mae_model Key Params) (params : Params)
  (imgs : list (ndarray Q)) (labels : ndarray Q) (train : bool)
  (mask_ratio : Q) (key key' dropout_rng drop_path_rng masked_rng : Key)
  (features mask : ndarray Q) (s : list nat) :
  split key = (key', dropout_rng, drop_path_rng, masked_rng) ->
  apply model params imgs train mask_ratio masked_rng dropout_rng drop_path_rng
  = (features, mask) ->
  broadcast_shapes (shape features) (shape mask) = Ok s ->
  mae_supervised_contrastive_loss split model params (imgs, labels) train
    mask_ratio key
  = Ok None.
Proof.
  intros Hsplit Happly Hb. unfold mae_supervised_contrastive_loss.
  now rewrite Hsplit, Happly, Hb.
Qed.

Lemma mae_supervised_contrastive_loss_stub_witness :
  let features := mk_ndarray [1; 1; 3] [2 # 1; 2 # 1; 2 # 1]%Q in
  let mask := mk_ndarray [1; 1] [1 # 1]%Q in
  let labels := mk_ndarray [1; 3] [0 # 1; 1 # 1; 0 # 1]%Q in
  (demo_split tt = (tt, tt, tt, tt) /\
   apply (demo_model [1 # 1]%Q) tt demo_batch true (3 # 4)%Q tt tt tt
   = (features, mask) /\
   broadcast_shapes (shape features) (shape mask) = Ok [1; 1; 3]) /\
  mae_supervised_contrastive_loss demo_split (demo_model [1 # 1]%Q) tt
    (demo_batch, labels) true (3 # 4)%Q tt
  = Ok None.
Proof.
  intros features mask labels. split.
  - split; [reflexivity|]. split; reflexivity.
  - apply (mae_supervised_contrastive_loss_stub unit unit demo_split
             (demo_model [1 # 1]%Q) tt demo_batch labels true (3 # 4)%Q
             tt tt tt tt tt features mask [1; 1; 3]);
      reflexivity.
Defined.

(** Whatever the input, the stub returns [None] or fails in the broadcast:
    it has no other outcome. *)
Lemma mae_supervised_contrastive_loss_outcomes
  (Key Params : Type) (split : Key -> Key * Key * Key * Key)
  (model : mae_model Key Params) (params : Params)
  (x : list (ndarray Q) * ndarray Q) (train : bool) (mask_ratio : Q)
  (key : Key) :
  mae_supervised_contrastive_loss split model params x train mask_ratio key
  = Ok None \/
  mae_supervised_contrastive_loss split model params x train mask_ratio key
  = Raise TypeError.
Proof.
  destruct x as [imgs labels]. unfold mae_supervised_contrastive_loss.
  destruct (split key) as [[[key' dk] dpk] mk].
  destruct (apply model params imgs train mask_ratio mk dk dpk) as [features mask].
  unfold broadcast_shapes.
  destruct (broadcast_rev_cases (rev (shape features)) (rev (shape mask)))
    as [[s E]|E]; rewrite E; cbn [bind]; auto.
Qed.

(** * Further properties of the code *)

(** ** Patch codec: the other round trip, failures, batches *)

Lemma hwpqc_chpwq_cancel nh nw np nq nc k :
  k < size [nh; nw; np; nq; nc] ->
  hwpqc_chpwq nh nw np nq nc (chpwq_hwpqc nc nh np nw nq k) = k.
Proof.
  intros Hk. destruct (unravel5 _ _ _ _ _ _ Hk)
    as (h & w & p & q & c & _ & -> & ? & ? & ? & ? & ?).
  rewrite chpwq_hwpqc_spec by assumption.
  now apply hwpqc_chpwq_spec.
Qed.

Lemma image_buffer_round_trip {A} (d : list A) h p :
  length d = size [h * h; p ^ 2 * 3] ->
  patch_buffer
    (pick d (map (hwpqc_chpwq h h p p 3) (seq 0 (size [3; h; p; h; p])))) h p
  = d.
Proof.
  intros Hd. unfold patch_buffer. rewrite <- size_patches in Hd.
  rewrite <- (size_hwpqc h h p p 3).
  apply pick_round_trip; try assumption.
  - intros k Hk. rewrite size_hwpqc in Hk. rewrite size_hwpqc.
    rewrite <- size_hwpqc. now apply hwpqc_chpwq_lt.
  - intros k Hk. rewrite size_hwpqc. now apply chpwq_hwpqc_lt.
  - intros k Hk. now apply hwpqc_chpwq_cancel.
Qed.

(** X1: a patch sequence with a square number of patches of length
    [p^2 * 3] is rebuilt into a (3, h*p, h*p) image, and cutting that image
    into patches again gives the sequence back, entry for entry. *)
Theorem create_recreate_images {A} (y : ndarray A) (h p : nat) :
  shape y = [h * h; p ^ 2 * 3] -> well_formed y -> p <> 0 ->
  exists x,
    recreate_images y p = Ok x /\
    shape x = [3; h * p; h * p] /\
    well_formed x /\
    create_patches x p = Ok y.
Proof.
  intros Hs Hw Hp. destruct y as [s d]. cbn [shape] in Hs. subst s.
  unfold well_formed in Hw. cbn [shape data] in Hw.
  rewrite recreate_images_ok. eexists. split; [reflexivity|].
  split; [reflexivity|]. split.
  - unfold well_formed. cbn [shape data]. rewrite length_pick.
    + now rewrite length_map, length_seq, size_image.
    + apply Forall_lt_map_seq. intros k Hk.
      rewrite Hw, <- size_patches. now apply hwpqc_chpwq_lt.
  - rewrite create_patches_ok by assumption.
    now rewrite image_buffer_round_trip.
Qed.

Lemma create_recreate_images_witness :
  let y := mk_ndarray [1 * 1; 2 ^ 2 * 3]
             [10; 20; 30; 11; 21; 31; 12; 22; 32; 13; 23; 33] in
  (shape y = [1 * 1; 2 ^ 2 * 3] /\ well_formed y /\ 2 <> 0) /\
  exists x,
    recreate_images y 2 = Ok x /\
    shape x = [3; 1 * 2; 1 * 2] /\
    well_formed x /\
    create_patches x 2 = Ok y.
Proof.
  intros y. split.
  - split; [reflexivity | split; [reflexivity | discriminate]].
  - apply (create_recreate_images y 1 2); [reflexivity | reflexivity | discriminate].
Defined.

(** X2: on a rank-3 input (C, H, W), [create_patches] succeeds exactly when
    the image is square, the patch size is non-zero and divides the side,
    and the channel count is 3 (or the image is empty).  Otherwise it
    fails: with the assertion for a non-square image or a side that is no
    multiple of [p], with a division by zero for [p = 0] on a square image,
    and in the reshape for a wrong channel count. *)
Theorem create_patches_outcome {A} (x : ndarray A) (C H W p : nat) :
  shape x = [C; H; W] ->
  (H <> W -> create_patches x p = Raise AssertionError) /\
  (H = W -> p = 0 -> create_patches x p = Raise ZeroDivisionError) /\
  (H = W -> p <> 0 -> H mod p <> 0 -> create_patches x p = Raise AssertionError) /\
  (H = W -> p <> 0 -> H mod p = 0 -> C <> 3 -> H <> 0 ->
   create_patches x p = Raise TypeError) /\
  (H = W -> p <> 0 -> H mod p = 0 -> C = 3 \/ H = 0 ->
   exists y, create_patches x p = Ok y /\
             shape y = [H / p * (H / p); p ^ 2 * 3]).
Proof.
  intros Hs. destruct x as [s d]. cbn [shape] in Hs. subst s.
  unfold create_patches, shape_at. cbn [shape nth_error bind].
  repeat split.
  - intros Hne. apply Nat.eqb_neq in Hne. now rewrite Hne.
  - intros -> ->. now rewrite Nat.eqb_refl.
  - intros -> Hp Hm. rewrite Nat.eqb_refl. cbn [negb].
    apply Nat.eqb_neq in Hp, Hm. now rewrite Hp, Hm.
  - intros -> Hp Hm HC HH. rewrite Nat.eqb_refl. cbn [negb].
    destruct (Nat.eqb_spec p 0) as [|_]; [contradiction|].
    rewrite Hm, Nat.eqb_refl. unfold reshape. cbn [shape].
    destruct (Nat.eqb_spec (size [C; W; W]) (size [3; W / p; p; W / p; p]))
      as [E|_]; [exfalso|reflexivity].
    rewrite <- size_image, <- (side_multiple W p Hp Hm) in E.
    unfold size, fold_right in E. nia.
  - intros -> Hp Hm HC. rewrite Nat.eqb_refl. cbn [negb].
    destruct (Nat.eqb_spec p 0) as [|_]; [contradiction|].
    rewrite Hm, Nat.eqb_refl.
    assert (E : size [C; W; W] = size [3; W / p; p; W / p; p]).
    { rewrite <- size_image, <- (side_multiple W p Hp Hm).
      unfold size, fold_right. destruct HC as [->| ->]; lia. }
    rewrite reshape_ok by exact E. cbn [bind].
    unfold einsum_chpwq_hwpqc. cbn [shape data bind].
    rewrite reshape_ok by (cbn [shape]; apply size_patches).
    eexists. split; reflexivity.
Qed.

Lemma create_patches_outcome_witness :
  let x := mk_ndarray [3; 2; 3] [1; 2; 3; 4; 5; 6; 7; 8; 9; 10; 11; 12; 13; 14;
                                 15; 16; 17; 18] in
  let z := mk_ndarray [3; 2; 2] [1; 2; 3; 4; 5; 6; 7; 8; 9; 10; 11; 12] in
  (shape x = [3; 2; 3] /\ 2 <> 3 /\ create_patches x 1 = Raise AssertionError) /\
  (shape z = [3; 2; 2] /\ create_patches z 0 = Raise ZeroDivisionError) /\
  (shape z = [3; 2; 2] /\ 3 <> 0 /\ 2 mod 3 <> 0 /\
   create_patches z 3 = Raise AssertionError).
Proof.
  intros x z. split; [|split].
  - split; [reflexivity|]. split; [discriminate|].
    apply (proj1 (create_patches_outcome x 3 2 3 1 eq_refl)). discriminate.
  - split; [reflexivity|].
    apply (proj1 (proj2 (create_patches_outcome z 3 2 2 0 eq_refl))); reflexivity.
  - split; [reflexivity|]. split; [discriminate|]. split; [discriminate|].
    apply (proj1 (proj2 (proj2 (create_patches_outcome z 3 2 2 3 eq_refl))));
      [reflexivity | discriminate | discriminate].
Defined.

(** X3: on a rank-2 input (L, D), [recreate_images] fails with the
    assertion exactly when L is not a perfect square; for a perfect square
    it fails in the reshape unless L * D = L * p^2 * 3, and otherwise
    returns an image of shape (3, h*p, h*p) with h the square root of L. *)
Theorem recreate_images_outcome {A} (x : ndarray A) (L D p : nat) :
  shape x = [L; D] ->
  let h := Nat.sqrt L in
  (h * h <> L -> recreate_images x p = Raise AssertionError) /\
  (h * h = L -> L * D <> L * (p * p * 3) -> recreate_images x p = Raise TypeError) /\
  (h * h = L -> L * D = L * (p * p * 3) ->
   exists y, recreate_images x p = Ok y /\ shape y = [3; h * p; h * p]).
Proof.
  intros Hs h. destruct x as [s d]. cbn [shape] in Hs. subst s.
  unfold recreate_images, shape_at. cbn [shape nth_error bind]. fold h.
  repeat split.
  - intros Hne. apply Nat.eqb_neq in Hne. now rewrite Hne.
  - intros E Hne. rewrite E, Nat.eqb_refl. unfold reshape. cbn [shape].
    destruct (Nat.eqb_spec (size [L; D]) (size [h; h; p; p; 3])) as [E'|_];
      [exfalso|reflexivity].
    unfold size, fold_right in E'. nia.
  - intros E Hd. rewrite E, Nat.eqb_refl.
    assert (E' : size [L; D] = size [h; h; p; p; 3])
      by (unfold size, fold_right; nia).
    rewrite reshape_ok by exact E'. cbn [bind].
    unfold einsum_hwpqc_chpwq. cbn [shape data bind].
    rewrite reshape_ok by (cbn [shape]; symmetry; apply size_image).
    eexists. split; reflexivity.
Qed.

Lemma recreate_images_outcome_witness :
  let x := mk_ndarray [2; 3] [1; 2; 3; 4; 5; 6] in
  (shape x = [2; 3] /\ Nat.sqrt 2 * Nat.sqrt 2 <> 2) /\
  recreate_images x 1 = Raise AssertionError.
Proof.
  intros x. split.
  - split; [reflexivity | discriminate].
  - apply (proj1 (recreate_images_outcome x 2 3 1 eq_refl)). discriminate.
Defined.

Lemma image_round_trip {A} (x : ndarray A) n p :
  shape x = [3; n; n] -> well_formed x -> p <> 0 -> n mod p = 0 ->
  exists y, create_patches x p = Ok y /\ recreate_images y p = Ok x.
Proof.
  intros Hs Hw Hp Hm.
  destruct (create_patches_image x n p Hs Hw Hp Hm) as [Hc Hd].
  eexists. split; [exact Hc|].
  rewrite recreate_images_ok, patch_buffer_round_trip by assumption.
  destruct x as [s d]. cbn [shape data] in *. subst s.
  now rewrite <- (side_multiple n p Hp Hm).
Qed.

(** X4: the batched codec round-trips a whole batch of valid images:
    [recreate_images] applied to the patches of the batch returns the
    batch, sample for sample. *)
Theorem batch_round_trip {A} (xs : list (ndarray A)) (n p : nat) :
  p <> 0 -> n mod p = 0 ->
  Forall (fun x => shape x = [3; n; n] /\ well_formed x) xs ->
  exists ys,
    create_patches_batch xs p = Ok ys /\
    length ys = length xs /\
    recreate_images_batch ys p = Ok xs.
Proof.
  intros Hp Hm. unfold create_patches_batch, recreate_images_batch.
  induction 1 as [|x xs [Hs Hw] _ (ys & Ec & Hl & Er)].
  - exists []. repeat split.
  - destruct (image_round_trip x n p Hs Hw Hp Hm) as (y & Ey & Ex).
    exists (y :: ys). cbn [vmap length]. rewrite Ey. cbn [bind]. rewrite Ec.
    cbn [bind]. rewrite Ex. cbn [bind]. rewrite Er. cbn [bind].
    repeat split. now rewrite Hl.
Qed.

Lemma batch_round_trip_witness :
  let xs := [mk_ndarray [3; 1; 1] [1; 2; 3]; mk_ndarray [3; 1; 1] [4; 5; 6]] in
  (1 <> 0 /\ 1 mod 1 = 0 /\
   Forall (fun x => shape x = [3; 1; 1] /\ well_formed x) xs) /\
  exists ys,
    create_patches_batch xs 1 = Ok ys /\
    length ys = length xs /\
    recreate_images_batch ys 1 = Ok xs.
Proof.
  intros xs.
  assert (H : Forall (fun x => shape x = [3; 1; 1] /\ well_formed x) xs)
    by (repeat constructor).
  split.
  - split; [discriminate | split; [reflexivity | exact H]].
  - apply (batch_round_trip xs 1 1); [discriminate | reflexivity | exact H].
Defined.

Lemma bijection_perm (f g : nat -> nat) n :
  (forall k, k < n -> f k < n) ->
  (forall k, k < n -> g (f k) = k) ->
  Permutation (map f (seq 0 n)) (seq 0 n).
Proof.
  intros Hf Hg. apply Permutation_map_same_l.
  - apply Finite.Injective_map_NoDup_in; [|apply seq_NoDup].
    intros a b Ha Hb E. apply in_seq in Ha, Hb.
    rewrite <- (Hg a), <- (Hg b), E by lia. reflexivity.
  - intros k Hk. apply in_map_iff in Hk as (i & <- & Hi).
    apply in_seq in Hi. apply in_seq. specialize (Hf i). lia.
Qed.

(** X5: patch creation only moves pixels: the buffer of the patch sequence
    is a permutation of the buffer of the image, so no pixel is lost,
    duplicated or altered. *)
Theorem create_patches_permutes {A} (x y : ndarray A) (n p : nat) :
  shape x = [3; n; n] -> well_formed x -> p <> 0 -> n mod p = 0 ->
  create_patches x p = Ok y ->
  Permutation (data y) (data x).
Proof.
  intros Hs Hw Hp Hm Hy.
  destruct (create_patches_image x n p Hs Hw Hp Hm) as [Hc Hd].
  rewrite Hc in Hy. inversion Hy; subst. cbn [data].
  unfold patch_buffer. apply pick_perm.
  rewrite Hd, size_image, <- (size_hwpqc (n / p) (n / p) p p 3).
  apply (bijection_perm _ (hwpqc_chpwq (n / p) (n / p) p p 3)).
  - intros k Hk. rewrite (size_hwpqc (n / p) (n / p) p p 3).
    now apply chpwq_hwpqc_lt.
  - intros k Hk. now apply hwpqc_chpwq_cancel.
Qed.

Lemma create_patches_permutes_witness :
  let x := mk_ndarray [3; 2; 2] [10; 11; 12; 13; 20; 21; 22; 23; 30; 31; 32; 33] in
  let y := mk_ndarray [1; 12] [10; 20; 30; 11; 21; 31; 12; 22; 32; 13; 23; 33] in
  (shape x = [3; 2; 2] /\ well_formed x /\ 2 <> 0 /\ 2 mod 2 = 0 /\
   create_patches x 2 = Ok y) /\
  Permutation (data y) (data x).
Proof.
  intros x y. split.
  - split; [reflexivity | split; [reflexivity | split; [discriminate |
      split; reflexivity]]].
  - apply (create_patches_permutes x y 2 2);
      [reflexivity | reflexivity | discriminate | reflexivity | reflexivity].
Defined.

(** ** Random masking: which patches stay visible *)

Lemma StronglySorted_nth {A} (R : A -> A -> Prop) (l : list A) :
  StronglySorted R l ->
  forall a b x y, a < b -> nth_error l a = Some x -> nth_error l b = Some y ->
                  R x y.
Proof.
  induction 1 as [|h t _ IH Hh]; intros a b x y Hab Ha Hb.
  - destruct a; discriminate.
  - destruct b as [|b]; [lia|]. cbn [nth_error] in Hb.
    destruct a as [|a]; cbn [nth_error] in Ha.
    + inversion Ha; subst. rewrite Forall_forall in Hh.
      apply Hh. eapply nth_error_In; eauto.
    + apply (IH a b); [lia | assumption | assumption].
Qed.

Lemma Qle_bool_total a b : Qle_bool a b = true \/ Qle_bool b a = true.
Proof.
  destruct (Qlt_le_dec b a) as [H|H].
  - right. apply Qle_bool_iff. now apply Qlt_le_weak.
  - left. now apply Qle_bool_iff.
Qed.

Lemma key_le_Qle_trans : Relations_1.Transitive (key_le Qle_bool).
Proof.
  intros u v w Huv Hvw. unfold key_le in *.
  apply Qle_bool_iff in Huv, Hvw. apply Qle_bool_iff.
  eapply Qle_trans; eauto.
Qed.

Lemma nth_error_map_snd {A B} (t : list (A * B)) k i :
  nth_error (map snd t) k = Some i ->
  exists a, nth_error t k = Some (a, i).
Proof.
  rewrite nth_error_map. destruct (nth_error t k) as [[a j]|]; [|discriminate].
  cbn [option_map snd]. intros E. inversion E; subst. now exists a.
Qed.

(** Along the argsort the keys ascend. *)
Lemma argsort_ascending (noise : list Q) a b i j u v :
  a < b ->
  nth_error (argsort Qle_bool noise) a = Some i ->
  nth_error (argsort Qle_bool noise) b = Some j ->
  nth_error noise i = Some u ->
  nth_error noise j = Some v ->
  (u <= v)%Q.
Proof.
  intros Hab Ha Hb Hu Hv. unfold argsort in Ha, Hb.
  set (t := sort_keys Qle_bool (combine noise (seq 0 (length noise)))) in *.
  destruct (nth_error_map_snd t a i Ha) as [u' Hta].
  destruct (nth_error_map_snd t b j Hb) as [v' Htb].
  assert (Hin : forall w k, nth_error t k = Some w ->
                            nth_error noise (snd w) = Some (fst w)).
  { intros [w n] k Hk. apply nth_error_In in Hk. unfold t in Hk.
    apply (Permutation_in _ (sort_keys_perm _ _ _)) in Hk.
    apply in_combine_seq in Hk as [_ Hn]. now rewrite Nat.sub_0_r in Hn. }
  pose proof (Hin _ _ Hta) as Eu. pose proof (Hin _ _ Htb) as Ev.
  cbn [fst snd] in Eu, Ev.
  assert (u' = u) by congruence. assert (v' = v) by congruence. subst.
  assert (Hs : StronglySorted (key_le Qle_bool) t).
  { apply Sorted_StronglySorted; [exact key_le_Qle_trans|].
    apply sort_keys_sorted, Qle_bool_total. }
  apply Qle_bool_iff.
  exact (StronglySorted_nth _ t Hs a b (u, i) (v, j) Hab Hta Htb).
Qed.

(** X6: random masking keeps the patches with the smallest noise: with
    [keep] the value of [int(L*(1-mask_ratio))], the noise drawn for a
    visible patch is never larger than the noise drawn for a hidden one. *)
Theorem random_masking_keeps_smallest_noise
  (Key : Type) (uniform : Key -> nat -> list Q)
  (uniform_shape : forall key n, length (uniform key n) = n)
  (L : nat) (mask_ratio : Q) (key : Key) (keep : Z) (i j : nat) (u v : Q) :
  let ids_keep := slice_to (ids_shuffle uniform L key) keep in
  keep_count L mask_ratio = Ok keep ->
  In i ids_keep -> j < L -> ~ In j ids_keep ->
  nth_error (uniform key L) i = Some u ->
  nth_error (uniform key L) j = Some v ->
  (u <= v)%Q.
Proof.
  intros ids_keep _ Hi Hj Hnj Hu Hv.
  unfold ids_keep, slice_to in Hi, Hnj.
  rewrite (shuffle_length Key uniform uniform_shape) in Hi, Hnj.
  set (st := slice_stop keep L) in *.
  pose proof (slice_stop_le keep L) as Hst. fold st in Hst.
  apply In_nth_error in Hi as [a Ha]. rewrite nth_error_firstn in Ha.
  destruct (Nat.ltb_spec a st) as [Hlt|]; [|discriminate].
  destruct (restore_rank Key uniform uniform_shape L key j Hj)
    as (b & Hb & _ & Hsb).
  assert (Hge : st <= b).
  { destruct (Nat.le_gt_cases st b) as [|Hlt']; [assumption|].
    exfalso. apply Hnj.
    now apply (rank_in_slice Key uniform uniform_shape L key j b st Hst Hsb). }
  apply (argsort_ascending (uniform key L) a b i j u v); try assumption. lia.
Qed.

Lemma random_masking_keeps_smallest_noise_witness :
  (forall key n, length (table_uniform key n) = n) /\
  (keep_count 4 (1 # 2) = Ok 2%Z /\
   In 2 (slice_to (ids_shuffle table_uniform 4 sample_noise) 2) /\
   0 < 4 /\
   ~ In 0 (slice_to (ids_shuffle table_uniform 4 sample_noise) 2) /\
   nth_error (table_uniform sample_noise 4) 2 = Some (1 # 5)%Q /\
   nth_error (table_uniform sample_noise 4) 0 = Some (1 # 2)%Q) /\
  (1 # 5 <= 1 # 2)%Q.
Proof.
  assert (Hk : keep_count 4 (1 # 2) = Ok 2%Z) by (vm_compute; reflexivity).
  assert (Hin : In 2 (slice_to (ids_shuffle table_uniform 4 sample_noise) 2))
    by (left; reflexivity).
  assert (Hout : ~ In 0 (slice_to (ids_shuffle table_uniform 4 sample_noise) 2)).
  { intros [H|[H|[]]]; discriminate H. }
  split; [exact table_uniform_shape|]. split.
  - split; [exact Hk|]. split; [exact Hin|]. split; [lia|]. split; [exact Hout|].
    split; reflexivity.
  - apply (random_masking_keeps_smallest_noise (nat -> Q) table_uniform
             table_uniform_shape 4 (1 # 2) sample_noise 2 2 0 (1 # 5) (1 # 2));
      [exact Hk | exact Hin | lia | exact Hout | reflexivity | reflexivity].
Defined.

(** ** Random masking at any ratio *)

Lemma zeros_count_app l l' : zeros_count (l ++ l') = zeros_count l + zeros_count l'.
Proof. unfold zeros_count. now rewrite filter_app, length_app. Qed.

Lemma zeros_count_repeat_0 n : zeros_count (repeat 0%Q n) = n.
Proof.
  induction n as [|n IH]; [reflexivity|].
  cbn [repeat]. now rewrite zeros_count_cons, IH.
Qed.

Lemma zeros_count_perm l l' : Permutation l l' -> zeros_count l = zeros_count l'.
Proof.
  induction 1 as [|a l l' _ IH|a b l|l l' l'' _ IH1 _ IH2].
  - reflexivity.
  - now rewrite !zeros_count_cons, IH.
  - rewrite !zeros_count_cons. lia.
  - congruence.
Qed.

(** X7: whatever the mask ratio, [random_masking] raises exactly when the
    computation of [keep] does; otherwise the number of visible rows is the
    stop of the Python slice [[:keep]] on a sequence of length L, the mask
    has exactly that many zeros and is 1 elsewhere, and its entries sum to L
    minus that number. *)
Theorem random_masking_any_ratio
  (Key : Type) (uniform : Key -> nat -> list Q)
  (uniform_shape : forall key n, length (uniform key n) = n)
  {A} (x : list A) (mask_ratio : Q) (key : Key) :
  let L := length x in
  (forall e, keep_count L mask_ratio = Raise e ->
             random_masking uniform x mask_ratio key = Raise e) /\
  (forall keep, keep_count L mask_ratio = Ok keep ->
     let visible := slice_stop keep L in
     exists x_masked mask ids_restore,
       random_masking uniform x mask_ratio key = Ok (x_masked, mask, ids_restore) /\
       length x_masked = visible /\
       length mask = L /\
       zeros_count mask = visible /\
       Forall (fun m => m = 0%Q \/ m = 1%Q) mask /\
       (Qsum mask == inject_Z (Z.of_nat (L - visible)))%Q).
Proof.
  intros L. rewrite random_masking_keep. fold L. split.
  - intros e E. now rewrite E.
  - intros keep E visible. rewrite E. cbn [bind].
    eexists _, _, _. split; [reflexivity|].
    destruct (random_masking_counts Key uniform uniform_shape x key keep)
      as (Hx & Hm & Hb & Hp).
    fold L in Hx, Hm, Hb, Hp. fold visible in Hx, Hp.
    pose proof (slice_stop_le keep L) as Hst. fold visible in Hst.
    split; [exact Hx|]. split; [exact Hm|]. split; [|split; [exact Hb|]].
    + rewrite (zeros_count_perm _ _ Hp).
      rewrite zeros_count_app, zeros_count_repeat_0.
      change (repeat 1%Q (L - visible)) with (ones (L - visible)).
      rewrite zeros_count_ones. lia.
    + rewrite (Qsum_perm _ _ Hp).
      rewrite Qsum_app, Qsum_repeat_0, Qsum_repeat_1. apply Qplus_0_l.
Qed.

Lemma random_masking_any_ratio_witness :
  (forall key n, length (table_uniform key n) = n) /\
  keep_count (length [10; 11; 12; 13]) (5 # 4) = Ok (-1)%Z /\
  exists x_masked mask ids_restore,
    random_masking table_uniform [10; 11; 12; 13] (5 # 4) sample_noise
    = Ok (x_masked, mask, ids_restore) /\
    length x_masked = slice_stop (-1) 4 /\
    length mask = 4 /\
    zeros_count mask = slice_stop (-1) 4 /\
    Forall (fun m => m = 0%Q \/ m = 1%Q) mask /\
    (Qsum mask == inject_Z (Z.of_nat (4 - slice_stop (-1) 4)))%Q.
Proof.
  assert (Hk : keep_count (length [10; 11; 12; 13]) (5 # 4) = Ok (-1)%Z)
    by (vm_compute; reflexivity).
  split; [exact table_uniform_shape|]. split; [exact Hk|].
  exact (proj2 (random_masking_any_ratio (nat -> Q) table_uniform
                  table_uniform_shape [10; 11; 12; 13] (5 # 4) sample_noise)
           (-1)%Z Hk).
Defined.

(** A ratio for which [keep] cannot be computed: 1 + 2^1023 rounds to
    2^1023, four times that is beyond the largest double, and [int] of an
    infinity raises. *)
Lemma random_masking_overflow :
  keep_count 4 (- inject_Z (2 ^ 1023)) = Raise OverflowError /\
  random_masking table_uniform [10; 11; 12; 13] (- inject_Z (2 ^ 1023))
    sample_noise
  = Raise OverflowError.
Proof. split; vm_compute; reflexivity. Qed.

(** ** Random masking at a ratio above one *)

(** Rounding commutes with the sign. *)
Lemma round_double_opp q v :
  round_double q = Finite v -> round_double (- q) = Finite (- v).
Proof.
  destruct q as [n d]. intros E.
  change (round_double (- n # d) = Finite (- v)).
  unfold round_double in *. cbn [Qnum Qden] in *.
  rewrite Z.abs_opp, Z.sgn_opp.
  destruct (_ || _); [discriminate|].
  match type of E with Finite ?a = _ => assert (Ev : a = v) by congruence end.
  rewrite <- Ev, <- Qred_opp. do 2 f_equal. unfold Qopp. cbn [Qnum Qden].
  f_equal. ring.
Qed.

(** A value between an integer above -2^53 and 0 rounds to a value between
    that integer and 0. *)
Lemma round_double_neg_int q B :
  (0 <= B < 2 ^ 53)%Z -> (- inject_Z B <= q)%Q -> (q <= 0)%Q ->
  exists v, round_double q = Finite v /\ (- inject_Z B <= v)%Q /\ (v <= 0)%Q.
Proof.
  intros HB H0 H1.
  destruct (round_double_le_int (- q) B HB) as (v & E & Hv0 & Hv1); [lra | lra |].
  exists (- v)%Q. split; [|split; lra].
  rewrite (round_double_comp q (- - q)) by ring.
  now apply round_double_opp.
Qed.

(** [int(L * (1 - mask_ratio))] for a ratio between 1 and 2. *)
Lemma keep_count_above_one L r :
  (Z.of_nat L < 2 ^ 53)%Z -> (1 <= r)%Q -> (r <= 2)%Q ->
  exists keep, keep_count L r = Ok keep /\ (- Z.of_nat L <= keep <= 0)%Z.
Proof.
  intros HL H1 H2. unfold keep_count, float_of_int.
  destruct (round_double_int (inject_Z (Z.of_nat L)) (Z.of_nat L))
    as (l & El & Hl); [lia | reflexivity |].
  rewrite El. cbn [bind float_sub fl_sub].
  destruct (round_double_neg_int (1 - r) 1) as (v1 & E1 & Hv0 & Hv1).
  - change (2 ^ 53)%Z with 9007199254740992%Z. lia.
  - change (inject_Z 1) with 1%Q. lra.
  - lra.
  - rewrite E1. cbn [float_mul fl_mul].
    change (inject_Z 1) with 1%Q in Hv0.
    pose proof (inject_nat_nonneg L) as HL0.
    destruct (round_double_neg_int (l * v1) (Z.of_nat L)) as (v & Ev & Hv & Hv').
    + lia.
    + rewrite Hl. nra.
    + rewrite Hl. nra.
    + rewrite Ev. cbn [int_of_float]. eexists. split; [reflexivity|].
      unfold py_int. destruct (Qle_bool 0 v) eqn:Eb.
      * apply Qle_bool_iff in Eb.
        assert (Ez : (v == inject_Z 0)%Q) by (change (inject_Z 0) with 0%Q; lra).
        rewrite (Qfloor_comp _ _ Ez), Qfloor_Z. lia.
      * split.
        -- rewrite <- (Qceiling_Z (- Z.of_nat L)). apply Qceiling_resp_le.
           now rewrite inject_Z_opp.
        -- rewrite <- (Qceiling_Z 0). now apply Qceiling_resp_le.
Qed.

(** X8: with a mask ratio between 1 and 2 (and L < 2^53), [keep] lies
    between -L and 0.  At [keep = 0] no patch is visible; a negative [keep]
    makes the slice [[:keep]] count from the end, so that L + keep patches
    are visible again, and the mask has that many zeros. *)
Theorem random_masking_ratio_above_one
  (Key : Type) (uniform : Key -> nat -> list Q)
  (uniform_shape : forall key n, length (uniform key n) = n)
  {A} (x : list A) (mask_ratio : Q) (key : Key) :
  let L := length x in
  (Z.of_nat L < 2 ^ 53)%Z -> (1 <= mask_ratio)%Q -> (mask_ratio <= 2)%Q ->
  exists keep x_masked mask ids_restore,
    keep_count L mask_ratio = Ok keep /\
    (- Z.of_nat L <= keep <= 0)%Z /\
    random_masking uniform x mask_ratio key = Ok (x_masked, mask, ids_restore) /\
    Z.of_nat (length x_masked)
    = (if (keep =? 0)%Z then 0 else Z.of_nat L + keep)%Z /\
    zeros_count mask = length x_masked.
Proof.
  intros L HL H1 H2.
  destruct (keep_count_above_one L mask_ratio HL H1 H2) as (keep & Ek & Hk).
  exists keep. rewrite random_masking_keep. fold L. rewrite Ek. cbn [bind].
  eexists _, _, _. split; [reflexivity|]. split; [exact Hk|].
  split; [reflexivity|].
  destruct (random_masking_counts Key uniform uniform_shape x key keep)
    as (Hx & Hm & Hb & Hp).
  fold L in Hx, Hm, Hb, Hp.
  pose proof (slice_stop_le keep L) as Hst.
  split.
  - rewrite Hx. unfold slice_stop.
    destruct (Z.eqb_spec keep 0) as [->|Hn]; [reflexivity|].
    destruct (Z.ltb_spec keep 0); lia.
  - rewrite Hx, (zeros_count_perm _ _ Hp).
    rewrite zeros_count_app, zeros_count_repeat_0.
    change (repeat 1%Q (L - slice_stop keep L)) with (ones (L - slice_stop keep L)).
    rewrite zeros_count_ones. lia.
Qed.

Lemma random_masking_ratio_above_one_witness :
  (forall key n, length (table_uniform key n) = n) /\
  (Z.of_nat (length [10; 11; 12; 13]) < 2 ^ 53)%Z /\
  (1 <= 5 # 4)%Q /\ (5 # 4 <= 2)%Q /\
  (exists keep x_masked mask ids_restore,
    keep_count (length [10; 11; 12; 13]) (5 # 4) = Ok keep /\
    (- Z.of_nat (length [10; 11; 12; 13]) <= keep <= 0)%Z /\
    random_masking table_uniform [10; 11; 12; 13] (5 # 4) sample_noise
    = Ok (x_masked, mask, ids_restore) /\
    Z.of_nat (length x_masked)
    = (if (keep =? 0)%Z then 0
       else Z.of_nat (length [10; 11; 12; 13]) + keep)%Z /\
    zeros_count mask = length x_masked) /\
  keep_count 4 (5 # 4) = Ok (-1)%Z /\
  random_masking table_uniform [10; 11; 12; 13] (5 # 4) sample_noise
  = Ok ([12; 13; 11], [1; 0; 0; 0]%Q, [3; 2; 0; 1]).
Proof.
  split; [exact table_uniform_shape|].
  split; [reflexivity|]. split; [discriminate|]. split; [discriminate|].
  split; [|split; vm_compute; reflexivity].
  apply (random_masking_ratio_above_one (nat -> Q) table_uniform
           table_uniform_shape [10; 11; 12; 13] (5 # 4) sample_noise);
    [reflexivity | discriminate | discriminate].
Defined.

(** ** The decoder's un-shuffling *)

(** X9: after random masking, the decoder puts the latent token of the
    j-th kept patch back at the grid index of that patch, and the mask
    token at every hidden index; the class token stays in front and the
    sequence has L + 1 entries.  This holds for any latent sequence with
    one token per visible patch, whatever the encoder computed. *)
Theorem decoder_unshuffle_random_masking
  (Key : Type) (uniform : Key -> nat -> list Q)
  (uniform_shape : forall key n, length (uniform key n) = n)
  {A B} (x : list A) (mask_ratio : Q) (key : Key)
  (x_masked : list A) (mask : list Q) (ids_restore : list nat)
  (cls tok : B) (v : list B) :
  let L := length x in
  forall keep : Z,
  let ids_keep := slice_to (ids_shuffle uniform L key) keep in
  keep_count L mask_ratio = Ok keep ->
  random_masking uniform x mask_ratio key = Ok (x_masked, mask, ids_restore) ->
  length v = length x_masked ->
  let out := decoder_unshuffle tok (cls :: v) ids_restore in
  length out = L + 1 /\
  nth_error out 0 = Some cls /\
  (forall j i, nth_error ids_keep j = Some i ->
               nth_error out (S i) = nth_error v j) /\
  (forall i, i < L -> ~ In i ids_keep -> nth_error out (S i) = Some tok).
Proof.
  intros L keep ids_keep Hkeep E Hv out.
  rewrite random_masking_keep in E. fold L in E. rewrite Hkeep in E.
  cbn [bind] in E. inversion E as [[Ex Em Er]]. clear E.
  set (s := ids_shuffle uniform L key) in *.
  set (st := slice_stop keep L).
  pose proof (slice_stop_le keep L) as Hst. fold st in Hst.
  pose proof (shuffle_length Key uniform uniform_shape L key) as Hlen.
  fold s in Hlen.
  assert (Hk : ids_keep = firstn st s).
  { unfold ids_keep, slice_to. now rewrite Hlen. }
  assert (Hvl : length v = st).
  { rewrite Hv, <- Ex, length_pick.
    - unfold slice_to. rewrite Hlen. fold st. now apply firstn_length_le; lia.
    - apply Forall_forall. intros j Hin. unfold slice_to in Hin.
      apply in_firstn in Hin.
      pose proof (shuffle_lt Key uniform uniform_shape L key) as Hlt.
      rewrite Forall_forall in Hlt. now apply Hlt. }
  assert (Hr : length ids_restore = L).
  { rewrite <- Er. now rewrite argsort_length. }
  assert (Hin : Forall (fun j => j < length (v ++ repeat tok (L - st))) ids_restore).
  { rewrite length_app, Hvl, repeat_length.
    replace (st + (L - st)) with L by lia. rewrite <- Er.
    apply (restore_lt Key uniform uniform_shape). }
  assert (Hout : out = cls :: pick (v ++ repeat tok (L - st)) ids_restore).
  { unfold out, decoder_unshuffle. cbn [skipn firstn length app].
    rewrite Hr, Hvl. now replace (L + 1 - S st) with (L - st) by lia. }
  rewrite Hout. split; [|split; [reflexivity|split]].
  - cbn [length]. rewrite length_pick by exact Hin. lia.
  - intros j i Hj. rewrite Hk, nth_error_firstn in Hj.
    destruct (Nat.ltb_spec j st) as [Hlt|]; [|discriminate].
    assert (Hjl : j < length s) by lia.
    destruct (argsort_inv_l s j (shuffle_perm' Key uniform uniform_shape L key) Hjl)
      as (i' & Hi' & Hri).
    assert (i' = i) by congruence. subst i'.
    cbn [nth_error]. rewrite nth_error_pick by exact Hin.
    rewrite <- Er, Hri. apply nth_error_app1. lia.
  - intros i Hi Hni.
    destruct (restore_rank Key uniform uniform_shape L key i Hi)
      as (b & Hb & Hrb & Hsb).
    fold s in Hrb, Hsb.
    assert (Hge : st <= b).
    { destruct (Nat.le_gt_cases st b) as [|Hlt']; [assumption|].
      exfalso. apply Hni. rewrite Hk.
      now apply (rank_in_slice Key uniform uniform_shape L key i b st Hst Hsb). }
    cbn [nth_error]. rewrite nth_error_pick by exact Hin.
    rewrite <- Er, Hrb, nth_error_app2 by lia.
    apply nth_error_repeat. lia.
Qed.

Lemma decoder_unshuffle_random_masking_witness :
  (forall key n, length (table_uniform key n) = n) /\
  (keep_count (length [10; 11; 12; 13]) (1 # 2) = Ok 2%Z /\
   random_masking table_uniform [10; 11; 12; 13] (1 # 2) sample_noise
   = Ok ([12; 13], [1; 1; 0; 0]%Q, [3; 2; 0; 1]) /\
   length [72; 73] = length [12; 13]) /\
  let out := decoder_unshuffle 0 (99 :: [72; 73]) [3; 2; 0; 1] in
  let ids_keep :=
    slice_to (ids_shuffle table_uniform (length [10; 11; 12; 13]) sample_noise)
      2 in
  length out = length [10; 11; 12; 13] + 1 /\
  nth_error out 0 = Some 99 /\
  (forall j i, nth_error ids_keep j = Some i ->
               nth_error out (S i) = nth_error [72; 73] j) /\
  (forall i, i < length [10; 11; 12; 13] -> ~ In i ids_keep ->
             nth_error out (S i) = Some 0).
Proof.
  split; [exact table_uniform_shape|]. split.
  - split; [vm_compute; reflexivity|]. split; [vm_compute; reflexivity|].
    reflexivity.
  - apply (decoder_unshuffle_random_masking (nat -> Q) table_uniform
             table_uniform_shape [10; 11; 12; 13] (1 # 2) sample_noise
             [12; 13] [1; 1; 0; 0]%Q [3; 2; 0; 1] 99 0 [72; 73] 2%Z);
      [vm_compute; reflexivity | vm_compute; reflexivity | reflexivity].
Defined.

(** ** Grid masking in general *)

Lemma range_stride a n s :
  range a (a + n) s = map (fun i => a + i * s) (seq 0 ((n + (s - 1)) / s)).
Proof.
  unfold range. now replace (a + n - a) with n by lia.
Qed.

Lemma ceil_div_bound n s c : s <> 0 -> (c < (n + (s - 1)) / s <-> c * s < n).
Proof.
  intros Hs. pose proof (Nat.div_mod_eq (n + (s - 1)) s) as E.
  pose proof (Nat.mod_upper_bound (n + (s - 1)) s Hs) as Hm.
  split; intros H; nia.
Qed.

Lemma grid_ids_keep_eq n s :
  grid_ids_keep n s
  = flat_map (fun row => map (fun c => row * n + c * s) (seq 0 ((n + (s - 1)) / s)))
      (map (fun t => t * 2) (seq 0 ((n + 1) / 2))).
Proof.
  unfold grid_ids_keep.
  change n with (0 + n) at 3. rewrite (range_stride 0 n 2).
  apply flat_map_ext. intros row.
  replace ((row + 1) * n) with (row * n + n) by lia. apply range_stride.
Qed.

Lemma grid_ids_keep_in n s i :
  s <> 0 ->
  (In i (grid_ids_keep n s) <->
   i < n * n /\ (i / n) mod 2 = 0 /\ (i mod n) mod s = 0).
Proof.
  intros Hs. rewrite grid_ids_keep_eq, in_flat_map. split.
  - intros (row & Hr & Hi).
    apply in_map_iff in Hr as (t & <- & Ht).
    apply in_map_iff in Hi as (c & <- & Hc).
    apply in_seq in Ht, Hc.
    assert (Hc' : c * s < n) by (apply ceil_div_bound; [assumption | lia]).
    assert (Ht' : t * 2 < n)
      by (apply (ceil_div_bound n 2); [lia | change (2 - 1) with 1; lia]).
    assert (Hn : n <> 0) by lia.
    assert (Ed : (t * 2 * n + c * s) / n = t * 2).
    { rewrite Nat.div_add_l by assumption. rewrite (Nat.div_small (c * s)); lia. }
    assert (Em : (t * 2 * n + c * s) mod n = c * s).
    { rewrite Nat.add_comm, Nat.Div0.mod_add. now apply Nat.mod_small. }
    rewrite Ed, Em. repeat split.
    + nia.
    + apply Nat.Div0.mod_mul.
    + apply Nat.Div0.mod_mul.
  - intros (Hi & Hrow & Hcol).
    assert (Hn : n <> 0) by lia.
    pose proof (Nat.div_mod_eq i n) as Ei.
    pose proof (Nat.mod_upper_bound i n Hn) as Hm.
    assert (Hr : i / n < n) by (apply Nat.Div0.div_lt_upper_bound; lia).
    pose proof (Nat.div_mod_eq (i / n) 2) as Er. rewrite Hrow in Er.
    pose proof (Nat.div_mod_eq (i mod n) s) as Ec. rewrite Hcol in Ec.
    exists (i / n / 2 * 2). split.
    + apply in_map_iff. exists (i / n / 2). split; [reflexivity|].
      apply in_seq. split; [lia|]. cbn [Nat.add].
      change (n + 1) with (n + (2 - 1)). apply (ceil_div_bound n 2); lia.
    + apply in_map_iff. exists (i mod n / s). split; [nia|].
      apply in_seq. split; [lia|]. cbn [Nat.add].
      apply ceil_div_bound; [assumption | nia].
Qed.

Lemma grid_ids_keep_NoDup n s : s <> 0 -> NoDup (grid_ids_keep n s).
Proof.
  intros Hs. rewrite grid_ids_keep_eq.
  apply NoDup_flat_map_blocks.
  - apply Finite.Injective_map_NoDup_in; [|apply seq_NoDup]. intros; lia.
  - intros row _. apply Finite.Injective_map_NoDup_in; [|apply seq_NoDup].
    intros; nia.
  - intros a b x _ _ Ha Hb.
    apply in_map_iff in Ha as (i & <- & Hi).
    apply in_map_iff in Hb as (j & E & Hj).
    apply in_seq in Hi, Hj.
    assert (i * s < n) by (apply ceil_div_bound; [assumption | lia]).
    assert (j * s < n) by (apply ceil_div_bound; [assumption | lia]).
    nia.
Qed.

Lemma grid_ids_keep_length n s :
  length (grid_ids_keep n s) = (n + 1) / 2 * ((n + (s - 1)) / s).
Proof.
  rewrite grid_ids_keep_eq.
  rewrite (length_flat_map_const _ _ ((n + (s - 1)) / s)).
  - now rewrite length_map, length_seq.
  - intros a _. now rewrite length_map, length_seq.
Qed.

Lemma nth_error_set_at_same {A} (l : list A) i v :
  i < length l -> nth_error (set_at l i v) i = Some v.
Proof.
  revert i. induction l as [|a l IH]; intros [|i] H; cbn [length] in H;
    try lia; [reflexivity|].
  cbn [set_at nth_error]. apply IH. lia.
Qed.

Lemma nth_error_scatter_set {A} (ids : list nat) : forall (l : list A) v i,
  i < length l ->
  (In i ids -> nth_error (scatter_set l ids v) i = Some v) /\
  (~ In i ids -> nth_error (scatter_set l ids v) i = nth_error l i).
Proof.
  induction ids as [|k ids IH]; intros l v i Hi.
  - split; [intros []|reflexivity].
  - change (scatter_set l (k :: ids) v) with (scatter_set (set_at l k v) ids v).
    assert (Hi' : i < length (set_at l k v)) by now rewrite set_at_length.
    destruct (IH (set_at l k v) v i Hi') as [IH1 IH2].
    destruct (in_dec Nat.eq_dec i ids) as [Hin|Hnin].
    + split.
      * intros _. now apply IH1.
      * intros Hn. exfalso. apply Hn. now right.
    + split.
      * intros [->|Hin]; [|contradiction].
        rewrite IH2 by assumption. now apply nth_error_set_at_same.
      * intros Hn. rewrite IH2 by assumption.
        apply nth_error_set_at_other. intros ->. apply Hn. now left.
Qed.

Lemma grid_stride_050 r : (r == 1 # 2)%Q -> grid_stride r = 1.
Proof.
  intros H. unfold grid_stride.
  assert (E : (1 / (1 - r) == 2)%Q) by (rewrite H; reflexivity).
  unfold py_int. destruct (Qle_bool 0 (1 / (1 - r))).
  - now rewrite (Qfloor_comp _ _ E).
  - now rewrite (Qceiling_comp _ _ E).
Qed.

Lemma grid_masking_unfold (Key : Type) {A} (x : list A) (r : Q) (key : Key) s :
  ((r == 1 # 2)%Q /\ s = 1) \/ ((r == 3 # 4)%Q /\ s = 2) ->
  grid_masking x r key
  = Ok (pick x (grid_ids_keep (Nat.sqrt (length x)) s),
        scatter_set (ones (length x)) (grid_ids_keep (Nat.sqrt (length x)) s) 0%Q,
        seq 0 (length x)).
Proof.
  intros Hr. unfold grid_masking.
  assert (Hb : Qeq_bool r (1 # 2) || Qeq_bool r (3 # 4) = true).
  { destruct Hr as [[Hr _]|[Hr _]]; rewrite (Qeq_eq_bool _ _ Hr);
      [reflexivity | apply orb_true_r]. }
  assert (Hs : Z.to_nat (py_int (1 / (1 - r))%Q / 2) = s).
  { destruct Hr as [[Hr ->]|[Hr ->]];
      [now apply grid_stride_050 | now apply grid_stride_075]. }
  rewrite Hb, Hs. fold (grid_ids_keep (Nat.sqrt (length x)) s).
  f_equal. f_equal. f_equal.
  rewrite <- (ones_length (length x)) at 3.
  rewrite <- (scatter_set_length (grid_ids_keep (Nat.sqrt (length x)) s)
                (ones (length x)) 0%Q).
  apply pick_all.
Qed.

Lemma grid_ids_keep_lt L s i :
  s <> 0 -> In i (grid_ids_keep (Nat.sqrt L) s) -> i < L.
Proof.
  intros Hs Hi. apply grid_ids_keep_in in Hi as [Hi _]; [|assumption].
  pose proof (Nat.sqrt_specif L) as [Hle _]. lia.
Qed.

(** X10: for both admitted ratios (column stride 1 at 0.5, 2 at 0.75) and
    any non-empty sequence, with n the integer square root of its length:
    grid masking returns the identity as restore permutation and the rows
    of [x] at the kept indices; the mask is 0 exactly at the indices below
    n * n whose grid row is even and whose grid column is a multiple of the
    stride, and 1 everywhere else (in particular on every patch past
    n * n); the kept patches number ceil(n/2) * ceil(n/stride). *)
Theorem grid_masking_pattern
  (Key : Type) {A} (x : list A) (mask_ratio : Q) (key : Key) (s : nat) :
  ((mask_ratio == 1 # 2)%Q /\ s = 1) \/ ((mask_ratio == 3 # 4)%Q /\ s = 2) ->
  0 < length x ->
  let L := length x in
  let n := Nat.sqrt L in
  let visible i := i < n * n /\ (i / n) mod 2 = 0 /\ (i mod n) mod s = 0 in
  exists x_masked mask,
    grid_masking x mask_ratio key = Ok (x_masked, mask, seq 0 L) /\
    x_masked = pick x (grid_ids_keep n s) /\
    length x_masked = (n + 1) / 2 * ((n + (s - 1)) / s) /\
    length mask = L /\
    zeros_count mask = (n + 1) / 2 * ((n + (s - 1)) / s) /\
    forall i, i < L ->
      (visible i -> nth_error mask i = Some 0%Q) /\
      (~ visible i -> nth_error mask i = Some 1%Q).
Proof.
  intros Hr Hx L n visible.
  assert (Hs : s <> 0) by (destruct Hr as [[_ ->]|[_ ->]]; discriminate).
  eexists _, _. split; [now apply (grid_masking_unfold Key x mask_ratio key s)|].
  fold L. fold n. split; [reflexivity|]. split; [|split; [|split]].
  - rewrite length_pick; [apply grid_ids_keep_length|].
    apply Forall_forall. intros i Hi. now apply (grid_ids_keep_lt L s).
  - now rewrite scatter_set_length, ones_length.
  - rewrite zeros_scatter, zeros_count_ones.
    + apply grid_ids_keep_length.
    + now apply grid_ids_keep_NoDup.
    + intros i Hi. exists 1%Q. split; [|reflexivity].
      unfold ones. apply nth_error_repeat. now apply (grid_ids_keep_lt L s).
  - intros i Hi.
    assert (Hi' : i < length (ones L)) by now rewrite ones_length.
    destruct (nth_error_scatter_set (grid_ids_keep n s) (ones L) 0%Q i Hi')
      as [H1 H2].
    split.
    + intros Hv. apply H1. now apply grid_ids_keep_in.
    + intros Hv. rewrite H2.
      * unfold ones. now apply nth_error_repeat.
      * intros Hin. apply Hv. now apply (grid_ids_keep_in n s i Hs).
Qed.

Lemma grid_masking_pattern_witness :
  (((1 # 2 == 1 # 2)%Q /\ 1 = 1) \/ ((1 # 2 == 3 # 4)%Q /\ 1 = 2)) /\
  0 < length [10; 11; 12; 13; 14] /\
  exists x_masked mask,
    grid_masking [10; 11; 12; 13; 14] (1 # 2) tt = Ok (x_masked, mask, seq 0 5) /\
    x_masked = pick [10; 11; 12; 13; 14] (grid_ids_keep (Nat.sqrt 5) 1) /\
    length x_masked = (Nat.sqrt 5 + 1) / 2 * ((Nat.sqrt 5 + (1 - 1)) / 1) /\
    length mask = 5 /\
    zeros_count mask = (Nat.sqrt 5 + 1) / 2 * ((Nat.sqrt 5 + (1 - 1)) / 1) /\
    forall i, i < 5 ->
      (i < Nat.sqrt 5 * Nat.sqrt 5 /\ (i / Nat.sqrt 5) mod 2 = 0 /\
       (i mod Nat.sqrt 5) mod 1 = 0 -> nth_error mask i = Some 0%Q) /\
      (~ (i < Nat.sqrt 5 * Nat.sqrt 5 /\ (i / Nat.sqrt 5) mod 2 = 0 /\
          (i mod Nat.sqrt 5) mod 1 = 0) -> nth_error mask i = Some 1%Q).
Proof.
  assert (H : ((1 # 2 == 1 # 2)%Q /\ 1 = 1) \/ ((1 # 2 == 3 # 4)%Q /\ 1 = 2))
    by (left; split; reflexivity).
  split; [exact H|]. split; [cbn; lia|].
  apply (grid_masking_pattern unit [10; 11; 12; 13; 14] (1 # 2) tt 1 H).
  cbn; lia.
Defined.

Lemma grid_counts {A} (x : list A) s :
  s <> 0 ->
  let n := Nat.sqrt (length x) in
  length (pick x (grid_ids_keep n s)) = (n + 1) / 2 * ((n + (s - 1)) / s) /\
  zeros_count (scatter_set (ones (length x)) (grid_ids_keep n s) 0%Q)
  = (n + 1) / 2 * ((n + (s - 1)) / s).
Proof.
  intros Hs n. split.
  - rewrite length_pick; [apply grid_ids_keep_length|].
    apply Forall_forall. intros i Hi. now apply (grid_ids_keep_lt (length x) s).
  - rewrite zeros_scatter, zeros_count_ones.
    + apply grid_ids_keep_length.
    + now apply grid_ids_keep_NoDup.
    + intros i Hi. exists 1%Q. split; [|reflexivity].
      unfold ones. apply nth_error_repeat.
      now apply (grid_ids_keep_lt (length x) s).
Qed.

Lemma half_even m : (2 * m + 1) / 2 = m.
Proof.
  pose proof (Nat.div_mod_eq (2 * m + 1) 2).
  pose proof (Nat.mod_upper_bound (2 * m + 1) 2). lia.
Qed.

Lemma half_even' m : (2 * m + (2 - 1)) / 2 = m.
Proof. change (2 - 1) with 1. apply half_even. Qed.

(** [1 - mask_ratio] is exact at the two ratios of grid masking. *)
Lemma one_minus_half r : (r == 1 # 2)%Q -> round_double (1 - r) = Finite (1 # 2).
Proof.
  intros H. rewrite (round_double_comp (1 - r) (1 # 2)); [vm_compute; reflexivity|].
  rewrite H. reflexivity.
Qed.

Lemma one_minus_three_quarters r :
  (r == 3 # 4)%Q -> round_double (1 - r) = Finite (1 # 4).
Proof.
  intros H. rewrite (round_double_comp (1 - r) (1 # 4)); [vm_compute; reflexivity|].
  rewrite H. reflexivity.
Qed.

(** X11: on a grid with an even side n = 2m (n * n < 2^53 patches), grid
    masking keeps exactly the number of patches random masking keeps at the
    same ratio, int(L * (1 - mask_ratio)): half of them at 0.5, a quarter
    at 0.75. *)
Theorem grid_masking_even_grid
  (Key : Type) {A} (x : list A) (mask_ratio : Q) (key : Key) (m : nat) :
  (mask_ratio == 1 # 2)%Q \/ (mask_ratio == 3 # 4)%Q ->
  0 < m -> length x = 2 * m * (2 * m) ->
  (Z.of_nat (length x) < 2 ^ 53)%Z ->
  exists x_masked mask,
    grid_masking x mask_ratio key = Ok (x_masked, mask, seq 0 (length x)) /\
    keep_count (length x) mask_ratio = Ok (Z.of_nat (length x_masked)) /\
    keep_count (length x) mask_ratio = Ok (Z.of_nat (zeros_count mask)).
Proof.
  intros Hr Hm Hx HL.
  assert (Hn : Nat.sqrt (length x) = 2 * m) by (rewrite Hx; apply Nat.sqrt_square).
  assert (EL : inject_Z (Z.of_nat (length x))
               = (4 * inject_Z (Z.of_nat m) * inject_Z (Z.of_nat m))%Q).
  { rewrite Hx. replace (Z.of_nat (2 * m * (2 * m)))
      with (4 * Z.of_nat m * Z.of_nat m)%Z by lia.
    now rewrite !inject_Z_mult. }
  destruct Hr as [Hr|Hr].
  - eexists _, _. split.
    + apply (grid_masking_unfold Key x mask_ratio key 1). left. now split.
    + destruct (grid_counts x 1) as [H1 H2]; [discriminate|].
      cbv zeta in H1, H2. rewrite H1, H2, Hn, half_even, Nat.div_1_r.
      assert (Ek : keep_count (length x) mask_ratio
                   = Ok (Z.of_nat (m * (2 * m + (1 - 1))))).
      { apply (keep_count_exact _ _ (1 # 2)); [exact HL | lia
                                             | now apply one_minus_half |].
        rewrite EL.
        replace (Z.of_nat (m * (2 * m + (1 - 1))))
          with (2 * Z.of_nat m * Z.of_nat m)%Z by lia.
        rewrite !inject_Z_mult. change (inject_Z 2) with 2%Q. field. }
      now rewrite Ek.
  - eexists _, _. split.
    + apply (grid_masking_unfold Key x mask_ratio key 2). right. now split.
    + destruct (grid_counts x 2) as [H1 H2]; [discriminate|].
      cbv zeta in H1, H2. rewrite H1, H2, Hn, half_even, half_even'.
      assert (Ek : keep_count (length x) mask_ratio = Ok (Z.of_nat (m * m))).
      { apply (keep_count_exact _ _ (1 # 4)); [exact HL | lia
                                             | now apply one_minus_three_quarters |].
        rewrite EL. rewrite Nat2Z.inj_mul, inject_Z_mult. field. }
      now rewrite Ek.
Qed.

Lemma grid_masking_even_grid_witness :
  ((3 # 4 == 1 # 2)%Q \/ (3 # 4 == 3 # 4)%Q) /\ 0 < 2 /\
  length (seq 0 16) = 2 * 2 * (2 * 2) /\
  (Z.of_nat (length (seq 0 16)) < 2 ^ 53)%Z /\
  exists x_masked mask,
    grid_masking (seq 0 16) (3 # 4) tt = Ok (x_masked, mask, seq 0 (length (seq 0 16))) /\
    keep_count (length (seq 0 16)) (3 # 4) = Ok (Z.of_nat (length x_masked)) /\
    keep_count (length (seq 0 16)) (3 # 4) = Ok (Z.of_nat (zeros_count mask)).
Proof.
  assert (H : (3 # 4 == 1 # 2)%Q \/ (3 # 4 == 3 # 4)%Q) by (right; reflexivity).
  split; [exact H|]. split; [lia|]. split; [reflexivity|]. split; [reflexivity|].
  apply (grid_masking_even_grid unit (seq 0 16) (3 # 4) tt 2 H);
    [lia | reflexivity | reflexivity].
Defined.

Lemma decoder_unshuffle_identity {A} (tok cls : A) (v : list A) L :
  length v <= L ->
  decoder_unshuffle tok (cls :: v) (seq 0 L) = cls :: v ++ repeat tok (L - length v).
Proof.
  intros Hv. unfold decoder_unshuffle. cbn [skipn firstn length app].
  rewrite length_seq. replace (L + 1 - S (length v)) with (L - length v) by lia.
  f_equal.
  assert (E : seq 0 L = seq 0 (length (v ++ repeat tok (L - length v)))).
  { rewrite length_app, repeat_length. f_equal. lia. }
  rewrite E. apply pick_all.
Qed.

(** X12: after grid masking the decoder does not move anything: whatever
    latent sequence [cls :: v] the encoder produced for the visible
    patches, the sequence it decodes is the class token, the latent tokens
    in their compacted order, then the mask tokens.  So the latent token of
    the j-th kept patch sits at patch position j, not at the grid index the
    mask marks as visible. *)
Theorem decoder_unshuffle_grid_masking
  (Key : Type) {A B} (x : list A) (mask_ratio : Q) (key : Key)
  (x_masked : list A) (mask : list Q) (ids_restore : list nat)
  (cls tok : B) (v : list B) :
  0 < length x ->
  grid_masking x mask_ratio key = Ok (x_masked, mask, ids_restore) ->
  length v = length x_masked ->
  decoder_unshuffle tok (cls :: v) ids_restore
  = cls :: v ++ repeat tok (length x - length v).
Proof.
  intros Hx E Hv.
  assert (Hr : exists s,
             ((mask_ratio == 1 # 2)%Q /\ s = 1) \/ ((mask_ratio == 3 # 4)%Q /\ s = 2)).
  { unfold grid_masking in E.
    destruct (Qeq_bool mask_ratio (1 # 2)) eqn:E1.
    - exists 1. left. split; [now apply Qeq_bool_eq | reflexivity].
    - destruct (Qeq_bool mask_ratio (3 # 4)) eqn:E2; [|discriminate E].
      exists 2. right. split; [now apply Qeq_bool_eq | reflexivity]. }
  destruct Hr as [s Hr].
  assert (Hs : s <> 0) by (destruct Hr as [[_ ->]|[_ ->]]; discriminate).
  rewrite (grid_masking_unfold Key x mask_ratio key s Hr) in E.
  inversion E as [[Ex Em Er]]. clear E.
  apply decoder_unshuffle_identity.
  rewrite Hv, <- Ex, length_pick.
  - assert (El : length x = length (seq 0 (length x))) by now rewrite length_seq.
    rewrite El at 2. apply NoDup_incl_length.
    + now apply grid_ids_keep_NoDup.
    + intros i Hi. apply in_seq. split; [lia|].
      cbn [Nat.add]. now apply (grid_ids_keep_lt (length x) s).
  - apply Forall_forall. intros i Hi. now apply (grid_ids_keep_lt (length x) s).
Qed.

Lemma decoder_unshuffle_grid_masking_witness :
  (0 < length (seq 100 16) /\
   grid_masking (seq 100 16) (3 # 4) tt
   = Ok ([100; 102; 108; 110],
         [0; 1; 0; 1; 1; 1; 1; 1; 0; 1; 0; 1; 1; 1; 1; 1]%Q, seq 0 16) /\
   length [70; 72; 78; 80] = length [100; 102; 108; 110]) /\
  decoder_unshuffle 0 (99 :: [70; 72; 78; 80]) (seq 0 16)
  = 99 :: [70; 72; 78; 80] ++ repeat 0 (length (seq 100 16) - length [70; 72; 78; 80]).
Proof.
  split.
  - split; [cbn; lia|]. split; reflexivity.
  - apply (decoder_unshuffle_grid_masking unit (seq 100 16) (3 # 4) tt
             [100; 102; 108; 110]
             [0; 1; 0; 1; 1; 1; 1; 1; 0; 1; 0; 1; 1; 1; 1; 1]%Q (seq 0 16)
             99 0 [70; 72; 78; 80]);
      [cbn; lia | reflexivity | reflexivity].
Defined.

(** ** Sign, size and zero of the reconstruction loss *)







(** ** Argmax and the accuracy of the classification loss *)

Lemma argmax_from_spec v : forall b ib i,
  (argmax_from b ib i v = ib /\ Forall (fun a => a <= b)%Q v) \/
  (exists k m,
      argmax_from b ib i v = i + k /\
      nth_error v k = Some m /\
      (b < m)%Q /\
      (forall j a, j < k -> nth_error v j = Some a -> (a < m)%Q) /\
      (forall j a, nth_error v j = Some a -> (a <= m)%Q)).
Proof.
  induction v as [|a v IH]; intros b ib i; cbn [argmax_from].
  - left. split; [reflexivity | constructor].
  - destruct (Qle_bool a b) eqn:E.
    + apply Qle_bool_iff in E.
      destruct (IH b ib (S i)) as [[Hr Hall]|(k & m & Hr & Hk & Hb & He & Ha)].
      * left. split; [exact Hr | now constructor].
      * right. exists (S k), m. repeat split; try assumption.
        -- rewrite Hr. lia.
        -- intros [|j] a' Hj Hn; cbn [nth_error] in Hn.
           ++ inversion Hn; subst. eapply Qle_lt_trans; eauto.
           ++ apply (He j); [lia | assumption].
        -- intros [|j] a' Hn; cbn [nth_error] in Hn.
           ++ inversion Hn; subst. apply Qlt_le_weak. eapply Qle_lt_trans; eauto.
           ++ now apply (Ha j).
    + assert (Hlt : (b < a)%Q).
      { apply Qnot_le_lt. intros H. apply Qle_bool_iff in H. congruence. }
      right.
      destruct (IH a i (S i)) as [[Hr Hall]|(k & m & Hr & Hk & Hb & He & Ha)].
      * exists 0, a. repeat split; try assumption.
        -- rewrite Hr. lia.
        -- intros j a' Hj. lia.
        -- intros [|j] a' Hn; cbn [nth_error] in Hn.
           ++ inversion Hn; subst. apply Qle_refl.
           ++ rewrite Forall_forall in Hall. apply Hall.
              eapply nth_error_In; eauto.
      * exists (S k), m. repeat split; try assumption.
        -- rewrite Hr. lia.
        -- eapply Qlt_trans; eauto.
        -- intros [|j] a' Hj Hn; cbn [nth_error] in Hn.
           ++ inversion Hn; subst. assumption.
           ++ apply (He j); [lia | assumption].
        -- intros [|j] a' Hn; cbn [nth_error] in Hn.
           ++ inversion Hn; subst. now apply Qlt_le_weak.
           ++ now apply (Ha j).
Qed.

(** X14: [argmax] fails on an empty vector and otherwise returns the
    position of the first largest entry: the entry there is at least every
    entry, and strictly larger than every earlier one. *)
Theorem argmax_first_maximum (v : list Q) :
  (v = [] -> argmax v = Raise ValueError) /\
  (v <> [] ->
   exists i m,
     argmax v = Ok i /\
     nth_error v i = Some m /\
     (forall j a, nth_error v j = Some a -> (a <= m)%Q) /\
     (forall j a, j < i -> nth_error v j = Some a -> (a < m)%Q)).
Proof.
  split; [intros ->; reflexivity|].
  intros Hne. destruct v as [|a v]; [contradiction|]. cbn [argmax].
  destruct (argmax_from_spec v a 0 1) as [[Hr Hall]|(k & m & Hr & Hk & Hb & He & Ha)].
  - exists 0, a. rewrite Hr. repeat split.
    + intros [|j] a' Hn; cbn [nth_error] in Hn.
      * inversion Hn; subst. apply Qle_refl.
      * rewrite Forall_forall in Hall. apply Hall. eapply nth_error_In; eauto.
    + intros j a' Hj. lia.
  - exists (S k), m. rewrite Hr. repeat split; try assumption.
    + intros [|j] a' Hn; cbn [nth_error] in Hn.
      * inversion Hn; subst. now apply Qlt_le_weak.
      * now apply (Ha j).
    + intros [|j] a' Hj Hn; cbn [nth_error] in Hn.
      * inversion Hn; subst. assumption.
      * apply (He j); [lia | assumption].
Qed.

Lemma argmax_first_maximum_witness :
  ([1 # 2; 3 # 4; 3 # 4]%Q <> []) /\
  exists i m,
    argmax [1 # 2; 3 # 4; 3 # 4]%Q = Ok i /\
    nth_error [1 # 2; 3 # 4; 3 # 4]%Q i = Some m /\
    (forall j a, nth_error [1 # 2; 3 # 4; 3 # 4]%Q j = Some a -> (a <= m)%Q) /\
    (forall j a, j < i -> nth_error [1 # 2; 3 # 4; 3 # 4]%Q j = Some a -> (a < m)%Q).
Proof.
  split; [discriminate|].
  apply (proj2 (argmax_first_maximum [1 # 2; 3 # 4; 3 # 4]%Q)). discriminate.
Defined.

Lemma map2_map_same {A B C D} (f : B -> C -> D) (g : A -> B) (h : A -> C) l :
  map2 f (map g l) (map h l) = map (fun j => f (g j) (h j)) l.
Proof.
  induction l as [|a l IH]; [reflexivity|]. cbn [map map2]. now rewrite IH.
Qed.

Lemma filter_id_map {A} (phi : A -> bool) l :
  length (filter (fun b => b) (map phi l)) = length (filter phi l).
Proof.
  induction l as [|a l IH]; [reflexivity|]. cbn [map filter].
  destruct (phi a); cbn [length]; now rewrite IH.
Qed.

Lemma one_hot_entry_eqb j a c :
  Qeq_bool (if j =? a then 1 else 0) (if j =? c then 1 else 0)
  = Bool.eqb (j =? a) (j =? c).
Proof. now destruct (j =? a), (j =? c). Qed.

(** Two one-hot vectors of length K agree everywhere when they mark the
    same class, and everywhere but at the two marked entries otherwise. *)
Lemma one_hot_agreement a c K :
  a < K -> c < K ->
  length (filter (fun b => b) (map2 Qeq_bool (one_hot a K) (one_hot c K)))
  = if a =? c then K else K - 2.
Proof.
  intros Ha Hc. unfold one_hot. rewrite map2_map_same, filter_id_map.
  rewrite (filter_ext _ (fun j => Bool.eqb (j =? a) (j =? c)))
    by (intros j; apply one_hot_entry_eqb).
  destruct (Nat.eqb_spec a c) as [->|Hne].
  - rewrite (filter_ext _ (fun _ => true))
      by (intros j; apply eqb_reflx).
    assert (E : forall l : list nat, filter (fun _ => true) l = l)
      by (induction l as [|x l IH]; [reflexivity | cbn; now rewrite IH]).
    now rewrite E, length_seq.
  - pose proof (filter_length (fun j => Bool.eqb (j =? a) (j =? c)) (seq 0 K)) as Hf.
    rewrite length_seq in Hf.
    assert (H2 : length (filter (fun j => negb (Bool.eqb (j =? a) (j =? c))) (seq 0 K)) = 2).
    { change 2 with (length [a; c]). apply Permutation_length.
      apply NoDup_Permutation.
      - apply NoDup_filter, seq_NoDup.
      - constructor; [intros [E|[]]; congruence|].
        constructor; [intros []|constructor].
      - intros j. rewrite filter_In, in_seq. split.
        + intros [_ Hj].
          destruct (Nat.eqb_spec j a) as [E|E]; [left; now symmetry|].
          destruct (Nat.eqb_spec j c) as [E'|E'];
            [right; left; now symmetry | discriminate].
        + intros [<-|[<-|[]]].
          * split; [lia|]. rewrite Nat.eqb_refl.
            destruct (Nat.eqb_spec a c); [contradiction | reflexivity].
          * split; [lia|]. rewrite Nat.eqb_refl.
            destruct (Nat.eqb_spec c a); [congruence | reflexivity]. }
    lia.
Qed.

Lemma length_one_hot i K : length (one_hot i K) = K.
Proof. unfold one_hot. now rewrite length_map, length_seq. Qed.

Lemma agreement_counts K : forall ids cs,
  length ids = length cs ->
  Forall (fun a => a < K) ids -> Forall (fun c => c < K) cs ->
  let eq := concat (map2 (map2 Qeq_bool)
                      (map (fun i => one_hot i K) ids)
                      (map (fun c => one_hot c K) cs)) in
  length eq = length ids * K /\
  length (filter (fun b => b) eq) + 2 * wrong_count ids cs = length ids * K.
Proof.
  induction ids as [|a ids IH]; intros [|c cs] Hl Ha Hc; try discriminate.
  - split; reflexivity.
  - inversion Ha as [|? ? Ha1 Ha2]; inversion Hc as [|? ? Hc1 Hc2]; subst.
    destruct (IH cs) as [IH1 IH2]; [now inversion Hl | assumption | assumption |].
    cbv zeta in *. cbn [map map2 concat length].
    rewrite length_app, filter_app, length_app, IH1.
    split.
    + rewrite length_map2 by now rewrite !length_one_hot.
      rewrite length_one_hot. lia.
    + rewrite (one_hot_agreement a c K Ha1 Hc1).
      unfold wrong_count in *. cbn [combine filter fst snd].
      destruct (Nat.eqb_spec a c) as [->|Hne]; cbn [negb length]; lia.
Qed.

Lemma vmap_argmax (ls : list (list Q)) K :
  0 < K -> Forall (fun r => length r = K) ls ->
  exists ids,
    vmap argmax ls = Ok ids /\ length ids = length ls /\
    Forall (fun a => a < K) ids.
Proof.
  intros HK. apply vmap_spec. intros r Hr.
  destruct r as [|a r]; [cbn in Hr; lia|].
  eexists. split; [reflexivity|].
  destruct (argmax_from_spec r a 0 1) as [[E _]|(k & m & E & Hk & _)];
    rewrite E.
  - lia.
  - assert (k < length r) by (apply nth_error_Some; congruence).
    cbn [length] in Hr. lia.
Qed.

(** X15: for one-hot labels over K classes, the accuracy returned by
    [mae_cls_loss] is (N*K - 2*w) / (N*K), where w is the number of samples
    whose argmax class differs from the label class: every wrong sample
    still contributes K - 2 agreeing entries. *)
Theorem mae_cls_loss_accuracy_formula
  (Key Params : Type) (split : Key -> Key * Key * Key * Key)
  (softmax_cross_entropy : list Q -> list Q -> Q)
  (model : cls_model Key Params) (params : Params)
  (imgs : list (ndarray Q)) (labels : ndarray Q) (train : bool)
  (mask_ratio : Q) (key key' dropout_rng drop_path_rng masked_rng : Key)
  (logits : ndarray Q) (N K : nat) (cs : list nat) :
  split key = (key', dropout_rng, drop_path_rng, masked_rng) ->
  apply_cls model params imgs mask_ratio train masked_rng dropout_rng drop_path_rng
  = logits ->
  0 < K ->
  shape logits = [N; K] -> well_formed logits ->
  shape labels = [N; K] ->
  rows labels = map (fun c => one_hot c K) cs ->
  length cs = N -> Forall (fun c => c < K) cs ->
  exists loss ids,
    vmap argmax (rows logits) = Ok ids /\
    mae_cls_loss split softmax_cross_entropy model params (imgs, labels)
      train mask_ratio key
    = Ok (loss,
          fdiv (inject_Z (Z.of_nat (N * K - 2 * wrong_count ids cs)))
               (inject_Z (Z.of_nat (N * K))),
          key').
Proof.
  intros Hsplit Happly HK Hls Hlw Hlab Hrows Hcs Hlt.
  destruct (rows_spec logits N K Hls Hlw) as [Hrl Hrf].
  destruct (vmap_argmax (rows logits) K HK Hrf) as (ids & Ev & Hil & Hif).
  exists (fdiv (Qsum (map2 softmax_cross_entropy (rows logits) (rows labels)))
            (inject_Z (Z.of_nat (length (map2 softmax_cross_entropy
                                           (rows logits) (rows labels)))))),
         ids.
  split; [exact Ev|].
  unfold mae_cls_loss. rewrite Hsplit, Happly.
  unfold shape_at. rewrite Hlab. cbn [nth_error bind]. rewrite Ev. cbn [bind].
  rewrite Hrows. unfold elementwise_agreement.
  destruct (agreement_counts K ids cs) as [H1 H2];
    [congruence | assumption | assumption |].
  cbv zeta in H1, H2. rewrite H1.
  replace (length (filter (fun b => b)
             (concat (map2 (map2 Qeq_bool) (map (fun i => one_hot i K) ids)
                        (map (fun c => one_hot c K) cs)))))
    with (N * K - 2 * wrong_count ids cs) by lia.
  replace (length ids) with N by congruence.
  reflexivity.
Qed.

Lemma mae_cls_loss_accuracy_formula_witness :
  let logits := mk_ndarray [2; 3] [1 # 1; 0 # 1; 0 # 1; 0 # 1; 0 # 1; 5 # 1]%Q in
  let labels := mk_ndarray [2; 3] [0 # 1; 1 # 1; 0 # 1; 0 # 1; 0 # 1; 1 # 1]%Q in
  let model := {| apply_cls := fun (_ : unit) _ _ _ (_ _ _ : unit) => logits |} in
  let sce := fun (_ _ : list Q) => 0%Q in
  (demo_split tt = (tt, tt, tt, tt) /\
   apply_cls model tt demo_batch (3 # 4)%Q true tt tt tt = logits /\
   0 < 3 /\ shape logits = [2; 3] /\ well_formed logits /\
   shape labels = [2; 3] /\
   rows labels = map (fun c => one_hot c 3) [1; 2] /\
   length [1; 2] = 2 /\ Forall (fun c => c < 3) [1; 2]) /\
  exists loss ids,
    vmap argmax (rows logits) = Ok ids /\
    mae_cls_loss demo_split sce model tt (demo_batch, labels) true (3 # 4)%Q tt
    = Ok (loss,
          fdiv (inject_Z (Z.of_nat (2 * 3 - 2 * wrong_count ids [1; 2])))
               (inject_Z (Z.of_nat (2 * 3))),
          tt).
Proof.
  intros logits labels model sce.
  assert (Hf : Forall (fun c => c < 3) [1; 2]) by (repeat constructor).
  split.
  - split; [reflexivity|]. split; [reflexivity|]. split; [lia|].
    split; [reflexivity|]. split; [reflexivity|]. split; [reflexivity|].
    split; [reflexivity|]. split; [reflexivity | exact Hf].
  - apply (mae_cls_loss_accuracy_formula unit unit demo_split sce model tt
             demo_batch labels true (3 # 4)%Q tt tt tt tt tt logits 2 3 [1; 2]);
      [reflexivity | reflexivity | lia | reflexivity | reflexivity | reflexivity
      | reflexivity | reflexivity | exact Hf].
Defined.

